(** * A shallow embedding of the matchtree package (matchtree.go)

    The Go program keeps its nodes behind pointers; here they live in an
    arena (a [list matchNode]) and a pointer is an index into it.  A new node
    is allocated at the end of the arena, so a handle never changes once
    given out, exactly like a Go pointer.  A Go panic (nil dereference,
    index out of range, the "unreachable" panics of dummyMatchNode) is the
    [None] of the [option] the functions return. *)

From Stdlib Require Import ZArith PrimFloat SpecFloat FloatAxioms.
From stdpp Require Import base gmap list strings pretty.

Set Warnings "-inexact-float".

(** ** MatchType *)

Inductive MatchType :=
| MatchNone
| MatchString
| MatchInteger
| MatchIntegerInterval
| MatchNumberInterval.

#[global] Instance MatchType_eq_dec : EqDecision MatchType.
Proof. solve_decision. Defined.

(** Go's [int] on a 64-bit platform: two's complement wrap-around. *)
Definition wrap64 (z : Z) : Z := ((z + 2 ^ 63) mod 2 ^ 64) - 2 ^ 63.

(** ** IntegerInterval *)

Module IntegerInterval.

Record t := mk {
  Min : option Z;
  MinIsExcluded : bool;
  Max : option Z;
  MaxIsExcluded : bool
}.

(** [func (i IntegerInterval) Equals(other IntegerInterval) bool] *)
Definition Equals (i other : t) : bool :=
  if negb (Bool.eqb (bool_decide (Min i = None)) (bool_decide (Min other = None))
           && Bool.eqb (bool_decide (Max i = None)) (bool_decide (Max other = None)))
  then false
  else
    (match Min i with
     | Some a =>
         match Min other with
         | Some b => Z.eqb a b && Bool.eqb (MinIsExcluded i) (MinIsExcluded other)
         | None => false (* unreachable: ruled out by the nil check *)
         end
     | None => true
     end)
    &&
    (match Max i with
     | Some a =>
         match Max other with
         | Some b => Z.eqb a b && Bool.eqb (MaxIsExcluded i) (MaxIsExcluded other)
         | None => false (* unreachable: ruled out by the nil check *)
         end
     | None => true
     end).

(** [func (i IntegerInterval) Contains(x int64) bool] *)
Definition Contains (i : t) (x : Z) : bool :=
  (match Min i with
   | Some y => if MinIsExcluded i then negb (x <=? y)%Z else negb (x <? y)%Z
   | None => true
   end)
  &&
  (match Max i with
   | Some y => if MaxIsExcluded i then negb (y <=? x)%Z else negb (y <? x)%Z
   | None => true
   end).

End IntegerInterval.

(** ** NumberInterval (float64 as Rocq's primitive binary64 floats) *)

(** [const epsilon = 1e-10] *)
Definition epsilon : float := 1e-10%float.

Module NumberInterval.

Record t := mk {
  Min : option float;
  MinIsExcluded : bool;
  Max : option float;
  MaxIsExcluded : bool
}.

(** [func (i NumberInterval) Equals(other NumberInterval) bool]:
    [math.Abs(a-b) >= epsilon] makes the bounds different. *)
Definition Equals (i other : t) : bool :=
  if negb (Bool.eqb (bool_decide (Min i = None)) (bool_decide (Min other = None))
           && Bool.eqb (bool_decide (Max i = None)) (bool_decide (Max other = None)))
  then false
  else
    (match Min i with
     | Some a =>
         match Min other with
         | Some b => negb (epsilon <=? abs (a - b))%float
                     && Bool.eqb (MinIsExcluded i) (MinIsExcluded other)
         | None => false (* unreachable: ruled out by the nil check *)
         end
     | None => true
     end)
    &&
    (match Max i with
     | Some a =>
         match Max other with
         | Some b => negb (epsilon <=? abs (a - b))%float
                     && Bool.eqb (MaxIsExcluded i) (MaxIsExcluded other)
         | None => false (* unreachable: ruled out by the nil check *)
         end
     | None => true
     end).

(** [func (i NumberInterval) Contains(x float64) bool] *)
Definition Contains (i : t) (x : float) : bool :=
  (match Min i with
   | Some y =>
       if MinIsExcluded i
       then negb (x <=? y + epsilon)%float   (* x <= y+epsilon => false *)
       else negb (x <? y - epsilon)%float    (* x < y-epsilon => false *)
   | None => true
   end)
  &&
  (match Max i with
   | Some y =>
       if MaxIsExcluded i
       then negb (y - epsilon <=? x)%float   (* x >= y-epsilon => false *)
       else negb (y + epsilon <? x)%float    (* x > y+epsilon => false *)
   | None => true
   end).

End NumberInterval.

(** ** Patterns, keys and results *)

(** [MatchPattern]; the Go field [Type] is [pType].  The [current*] fields
    are the ones [walkPatterns] sets while expanding the value lists. *)
Record MatchPattern := mkMatchPattern {
  pType : MatchType;
  IsAny : bool;
  IsInverse : bool;
  Strings : list string;
  Integers : list Z;
  IntegerIntervals : list IntegerInterval.t;
  NumberIntervals : list NumberInterval.t;
  currentString : string;
  currentInteger : Z;
  currentIntegerInterval : IntegerInterval.t;
  currentNumberInterval : NumberInterval.t
}.

Definition setCurrentString (p : MatchPattern) (v : string) : MatchPattern :=
  {| pType := pType p; IsAny := IsAny p; IsInverse := IsInverse p;
     Strings := Strings p; Integers := Integers p;
     IntegerIntervals := IntegerIntervals p; NumberIntervals := NumberIntervals p;
     currentString := v; currentInteger := currentInteger p;
     currentIntegerInterval := currentIntegerInterval p;
     currentNumberInterval := currentNumberInterval p |}.

Definition setCurrentInteger (p : MatchPattern) (v : Z) : MatchPattern :=
  {| pType := pType p; IsAny := IsAny p; IsInverse := IsInverse p;
     Strings := Strings p; Integers := Integers p;
     IntegerIntervals := IntegerIntervals p; NumberIntervals := NumberIntervals p;
     currentString := currentString p; currentInteger := v;
     currentIntegerInterval := currentIntegerInterval p;
     currentNumberInterval := currentNumberInterval p |}.

Definition setCurrentIntegerInterval (p : MatchPattern) (v : IntegerInterval.t) : MatchPattern :=
  {| pType := pType p; IsAny := IsAny p; IsInverse := IsInverse p;
     Strings := Strings p; Integers := Integers p;
     IntegerIntervals := IntegerIntervals p; NumberIntervals := NumberIntervals p;
     currentString := currentString p; currentInteger := currentInteger p;
     currentIntegerInterval := v;
     currentNumberInterval := currentNumberInterval p |}.

Definition setCurrentNumberInterval (p : MatchPattern) (v : NumberInterval.t) : MatchPattern :=
  {| pType := pType p; IsAny := IsAny p; IsInverse := IsInverse p;
     Strings := Strings p; Integers := Integers p;
     IntegerIntervals := IntegerIntervals p; NumberIntervals := NumberIntervals p;
     currentString := currentString p; currentInteger := currentInteger p;
     currentIntegerInterval := currentIntegerInterval p;
     currentNumberInterval := v |}.

(** [MatchKey]; the Go fields [Type], [String], [Integer], [Number]. *)
Record MatchKey := mkMatchKey {
  kType : MatchType;
  kString : string;
  kInteger : Z;
  kNumber : float
}.

(** [matchResult] *)
Record matchResult := mkMatchResult {
  ValueIndex : nat;
  Priority : Z
}.

(** [matchNodeWithRefCount] *)
Record matchNodeWithRefCount := mkMatchNodeWithRefCount {
  MatchNode : nat;
  MaxRefCount : nat
}.

(** [slices.IndexFunc], with -1 as [None]. *)
Fixpoint indexFunc {A} (f : A -> bool) (l : list A) : option nat :=
  match l with
  | [] => None
  | x :: l' => if f x then Some 0 else S <$> indexFunc f l'
  end.

(** ** Inverse groups, the part the four non-leaf node kinds share

    Every non-leaf node keeps its inverse groups in [inverseChildren] and a
    reverse index [inverseChildIndexes] from an excluded element to the
    groups excluding it.  The string and integer nodes use a Go map for the
    index, the interval nodes a list searched with [Equals]; the loops over
    the index are the same in all four and are written once here, over the
    index's lookup ([for _, childIndex := range index[v]]) and its append
    ([index[v] = append(index[v], newChildIndex)]). *)

Section InverseGroups.
Context {K Idx : Type}.
Variable lookupIdx : Idx -> K -> list nat.
Variable addIdx : Idx -> K -> nat -> Idx.

(** [refCounts[childIndex]++], out of range is a panic. *)
Definition incrAt (i : nat) (rcs : list nat) : option (list nat) :=
c ← rcs !! i; Some (<[i := S c]> rcs).

Fixpoint incrAll (cis : list nat) (rcs : list nat) : option (list nat) :=
match cis with
| [] => Some rcs
| ci :: cis' => rcs' ← incrAt ci rcs; incrAll cis' rcs'
end.

(** [for _, v := range vs { for _, childIndex := range index[v] { refCounts[childIndex]++ } }] *)
Fixpoint countRefs (idx : Idx) (vs : list K) (rcs : list nat) : option (list nat) :=
match vs with
| [] => Some rcs
| v :: vs' => rcs' ← incrAll (lookupIdx idx v) rcs; countRefs idx vs' rcs'
end.

(** [for childIndex, refCount := range refCounts { if refCount == maxRefCount &&
  n.inverseChildren[childIndex].MaxRefCount == maxRefCount { return ... } }]:
  the index of the group found. *)
Fixpoint findReusable (ics : list matchNodeWithRefCount) (m : nat) (i : nat)
  (rcs : list nat) : option (option nat) :=
match rcs with
| [] => Some None
| rc :: rcs' =>
    if Nat.eqb rc m then
      ic ← ics !! i;
      if Nat.eqb (MaxRefCount ic) m then Some (Some i)
      else findReusable ics m (S i) rcs'
    else findReusable ics m (S i) rcs'
end.

Definition addAll (idx : Idx) (vs : list K) (h : nat) : Idx :=
fold_left (fun idx v => addIdx idx v h) vs idx.

(** The [if pattern.IsInverse { ... }] branch of [GetOrInsertChild]:
  [fresh] is the handle a new child gets.  Returns the child, the new
  groups and index, and whether the child was allocated. *)
Definition getOrInsertInverseChild (ics : list matchNodeWithRefCount) (idx : Idx)
  (vs : list K) (fresh : nat)
  : option (nat * list matchNodeWithRefCount * Idx * bool) :=
rcs ← countRefs idx vs (replicate (length ics) 0);
let maxRefCount := length vs in
found ← findReusable ics maxRefCount 0 rcs;
match found with
| Some g => ic ← ics !! g; Some (MatchNode ic, ics, idx, false)
| None =>
    Some (fresh,
          ics ++ [{| MatchNode := fresh; MaxRefCount := maxRefCount |}],
          addAll idx vs (length ics),
          true)
end.

(** [for childIndex, refCount := range refCounts { if refCount >= 1 { continue };
  yield(n.inverseChildren[childIndex].MatchNode) }] *)
Fixpoint yieldUnexcluded (ics : list matchNodeWithRefCount) (i : nat) (rcs : list nat)
  : option (list nat) :=
match rcs with
| [] => Some []
| rc :: rcs' =>
    if Nat.leb 1 rc then yieldUnexcluded ics (S i) rcs'
    else ic ← ics !! i; rest ← yieldUnexcluded ics (S i) rcs';
         Some (MatchNode ic :: rest)
end.

(** The inverse part of [FindChildren]: [cis] are the group indexes the
  index lists for the key, each one counted. *)
Definition findInverseChildren (ics : list matchNodeWithRefCount) (cis : list nat)
  : option (list nat) :=
if Nat.leb 1 (length ics) then
  rcs ← incrAll cis (replicate (length ics) 0);
  yieldUnexcluded ics 0 rcs
else Some [].

End InverseGroups.

(** ** Nodes of string and integer kind: [matchNodeOfString], [matchNodeOfInteger]

    Their children and reverse index are Go maps, here [gmap]s. *)

Module MapNode.

Record t (K : Type) `{Countable K} := mk {
  children : gmap K nat;
  inverseChildren : list matchNodeWithRefCount;
  inverseChildIndexes : gmap K (list nat);
  anyChild : option nat
}.
Arguments mk {K _ _}.
Arguments children {K _ _}.
Arguments inverseChildren {K _ _}.
Arguments inverseChildIndexes {K _ _}.
Arguments anyChild {K _ _}.

Section Ops.
Context {K : Type} `{Countable K}.

Definition empty : t K := mk ∅ [] ∅ None.

(** [n.inverseChildIndexes[v]] (a missing key reads as nil) *)
Definition lookupIdx (m : gmap K (list nat)) (v : K) : list nat :=
default [] (m !! v).

(** [inverseChildIndexes[v] = append(inverseChildIndexes[v], newChildIndex)] *)
Definition addIdx (m : gmap K (list nat)) (v : K) (h : nat) : gmap K (list nat) :=
<[v := lookupIdx m v ++ [h]]> m.

(** [GetOrInsertChild(pattern, newChildType)]: [vs] is the pattern's value
  list, [cur] its current value, [fresh] the handle of a new child. *)
Definition GetOrInsertChild (n : t K) (isAny isInverse : bool) (vs : list K)
  (cur : K) (fresh : nat) : option (nat * t K * bool) :=
if isAny then
  match anyChild n with
  | Some c => Some (c, n, false)
  | None => Some (fresh, mk (children n) (inverseChildren n)
                            (inverseChildIndexes n) (Some fresh), true)
  end
else if isInverse then
  '(c, ics, idx, alloc) ←
    getOrInsertInverseChild lookupIdx addIdx (inverseChildren n)
      (inverseChildIndexes n) vs fresh;
  Some (c, mk (children n) ics idx (anyChild n), alloc)
else
  match children n !! cur with
  | Some c => Some (c, n, false)
  | None => Some (fresh, mk (<[cur := fresh]> (children n)) (inverseChildren n)
                            (inverseChildIndexes n) (anyChild n), true)
  end.

(** [FindChildren(key)], the yielded nodes in order. *)
Definition FindChildren (n : t K) (k : K) : option (list nat) :=
inv ← findInverseChildren (inverseChildren n) (lookupIdx (inverseChildIndexes n) k);
Some (match children n !! k with Some c => [c] | None => [] end
      ++ inv
      ++ match anyChild n with Some c => [c] | None => [] end).
End Ops.

End MapNode.

(** ** Nodes of interval kind: [matchNodeOfIntegerInterval], [matchNodeOfNumberInterval]

    Their children and reverse index are slices searched with the interval's
    [Equals] ([slices.IndexFunc]); [FindChildren] tests [Contains]. *)

Module ListNode.

Record t (I : Type) := mk {
  children : list (I * nat);
  inverseChildren : list matchNodeWithRefCount;
  inverseChildIndexes : list (I * list nat);
  anyChild : option nat
}.
Arguments mk {I}.
Arguments children {I}.
Arguments inverseChildren {I}.
Arguments inverseChildIndexes {I}.
Arguments anyChild {I}.

Section Ops.
Context {I X : Type}.
Variable Equals : I -> I -> bool.
Variable Contains : I -> X -> bool.

Definition empty : t I := mk [] [] [] None.

(** [i := slices.IndexFunc(n.inverseChildIndexes, func(x) bool { return
  x.Interval.Equals(v) }); if i < 0 { continue }; range n.inverseChildIndexes[i].MatchNodeIndexes] *)
Definition lookupIdx (idx : list (I * list nat)) (v : I) : list nat :=
match indexFunc (fun x => Equals x.1 v) idx with
| Some i => default [] (snd <$> idx !! i)
| None => []
end.

(** The second loop of the inverse branch: append to the entry found, or
  append a new entry. *)
Definition addIdx (idx : list (I * list nat)) (v : I) (h : nat) : list (I * list nat) :=
match indexFunc (fun x => Equals x.1 v) idx with
| Some i => alter (fun e => (e.1, e.2 ++ [h])) i idx
| None => idx ++ [(v, [h])]
end.

Definition GetOrInsertChild (n : t I) (isAny isInverse : bool) (vs : list I)
  (cur : I) (fresh : nat) : option (nat * t I * bool) :=
if isAny then
  match anyChild n with
  | Some c => Some (c, n, false)
  | None => Some (fresh, mk (children n) (inverseChildren n)
                            (inverseChildIndexes n) (Some fresh), true)
  end
else if isInverse then
  '(c, ics, idx, alloc) ←
    getOrInsertInverseChild lookupIdx addIdx (inverseChildren n)
      (inverseChildIndexes n) vs fresh;
  Some (c, mk (children n) ics idx (anyChild n), alloc)
else
  match indexFunc (fun x => Equals x.1 cur) (children n) with
  | Some i => x ← children n !! i; Some (x.2, n, false)
  | None => Some (fresh, mk (children n ++ [(cur, fresh)]) (inverseChildren n)
                            (inverseChildIndexes n) (anyChild n), true)
  end.

(** [FindChildren(key)]: every child whose interval contains the key, in
  order; then the groups none of whose entries containing the key lists;
  then the wildcard child. *)
Definition FindChildren (n : t I) (k : X) : option (list nat) :=
inv ← findInverseChildren (inverseChildren n)
        (concat (map snd (filter (fun e => Contains e.1 k) (inverseChildIndexes n))));
Some (map snd (filter (fun x => Contains x.1 k) (children n))
      ++ inv
      ++ match anyChild n with Some c => [c] | None => [] end).
End Ops.

End ListNode.

(** ** [matchNode]: the five node kinds *)

Inductive matchNode :=
| matchNodeOfNone (results : list matchResult)
| matchNodeOfString (n : MapNode.t string)
| matchNodeOfInteger (n : MapNode.t Z)
| matchNodeOfIntegerInterval (n : ListNode.t IntegerInterval.t)
| matchNodeOfNumberInterval (n : ListNode.t NumberInterval.t).

(** [newMatchNode(type1)] *)
Definition newMatchNode (ty : MatchType) : matchNode :=
  match ty with
  | MatchNone => matchNodeOfNone []
  | MatchString => matchNodeOfString MapNode.empty
  | MatchInteger => matchNodeOfInteger MapNode.empty
  | MatchIntegerInterval => matchNodeOfIntegerInterval ListNode.empty
  | MatchNumberInterval => matchNodeOfNumberInterval ListNode.empty
  end.

(** The node's own part of [GetOrInsertChild]; a leaf panics ([dummyMatchNode]). *)
Definition nodeGetOrInsertChild (nd : matchNode) (p : MatchPattern) (fresh : nat)
    : option (nat * matchNode * bool) :=
  match nd with
  | matchNodeOfNone _ => None
  | matchNodeOfString n =>
      '(c, n', a) ← MapNode.GetOrInsertChild n (IsAny p) (IsInverse p)
                      (Strings p) (currentString p) fresh;
      Some (c, matchNodeOfString n', a)
  | matchNodeOfInteger n =>
      '(c, n', a) ← MapNode.GetOrInsertChild n (IsAny p) (IsInverse p)
                      (Integers p) (currentInteger p) fresh;
      Some (c, matchNodeOfInteger n', a)
  | matchNodeOfIntegerInterval n =>
      '(c, n', a) ← ListNode.GetOrInsertChild IntegerInterval.Equals n (IsAny p)
                      (IsInverse p) (IntegerIntervals p) (currentIntegerInterval p) fresh;
      Some (c, matchNodeOfIntegerInterval n', a)
  | matchNodeOfNumberInterval n =>
      '(c, n', a) ← ListNode.GetOrInsertChild NumberInterval.Equals n (IsAny p)
                      (IsInverse p) (NumberIntervals p) (currentNumberInterval p) fresh;
      Some (c, matchNodeOfNumberInterval n', a)
  end.

(** The arena of nodes; a handle is an index. *)
Abbreviation arena := (list matchNode).

(** [node.GetOrInsertChild(pattern, newChildType)] on the node at handle [id]:
    a new child is [newMatchNode(newChildType)] at the end of the arena. *)
Definition GetOrInsertChild (s : arena) (id : nat) (p : MatchPattern)
    (newChildType : MatchType) : option (nat * arena) :=
  nd ← s !! id;
  r ← nodeGetOrInsertChild nd p (length s);
  match r with
  | (c, nd', true) => Some (c, <[id := nd']> s ++ [newMatchNode newChildType])
  | (c, nd', false) => Some (c, <[id := nd']> s)
  end.

(** [node.FindChildren(key)] *)
Definition FindChildren (s : arena) (id : nat) (key : MatchKey) : option (list nat) :=
  nd ← s !! id;
  match nd with
  | matchNodeOfNone _ => None
  | matchNodeOfString n => MapNode.FindChildren n (kString key)
  | matchNodeOfInteger n => MapNode.FindChildren n (kInteger key)
  | matchNodeOfIntegerInterval n =>
      ListNode.FindChildren IntegerInterval.Contains n (kInteger key)
  | matchNodeOfNumberInterval n =>
      ListNode.FindChildren NumberInterval.Contains n (kNumber key)
  end.

(** [node.AddResult(result)] *)
Definition AddResult (s : arena) (id : nat) (r : matchResult) : option arena :=
  nd ← s !! id;
  match nd with
  | matchNodeOfNone rs => Some (<[id := matchNodeOfNone (rs ++ [r])]> s)
  | _ => None
  end.

(** [node.GetResults()] *)
Definition GetResults (s : arena) (id : nat) : option (list matchResult) :=
  nd ← s !! id;
  match nd with
  | matchNodeOfNone rs => Some rs
  | _ => None
  end.

(** ** Errors returned by [AddRule] and [Search] *)

Inductive matchError :=
| ErrNumberOfPatterns (expected actual : nat)   (* "unexpected number of match patterns" *)
| ErrNumberOfKeys (expected actual : nat)       (* "unexpected number of match keys" *)
| ErrMatchType (expected actual : MatchType).   (* "unexpected match type" *)

(** ** Deduplicating clones of the value lists: [cloneStrings] and the like *)

(** [for _, v := range s { if slices.ContainsFunc(clone, v.Equals) { continue };
    clone = append(clone, v) }]; [cloneStrings] and [cloneIntegers] use [==]. *)
Fixpoint cloneWith {A} (eqb : A -> A -> bool) (clone s : list A) : list A :=
  match s with
  | [] => clone
  | v :: s' =>
      if existsb (eqb v) clone then cloneWith eqb clone s'
      else cloneWith eqb (clone ++ [v]) s'
  end.

Definition cloneStrings (s : list string) : list string :=
  cloneWith (fun a b => bool_decide (a = b)) [] s.
Definition cloneIntegers (s : list Z) : list Z :=
  cloneWith Z.eqb [] s.
Definition cloneIntegerIntervals (s : list IntegerInterval.t) : list IntegerInterval.t :=
  cloneWith IntegerInterval.Equals [] s.
Definition cloneNumberIntervals (s : list NumberInterval.t) : list NumberInterval.t :=
  cloneWith NumberInterval.Equals [] s.

Definition clonePattern (p : MatchPattern) : MatchPattern :=
  {| pType := pType p; IsAny := IsAny p; IsInverse := IsInverse p;
     Strings := cloneStrings (Strings p); Integers := cloneIntegers (Integers p);
     IntegerIntervals := cloneIntegerIntervals (IntegerIntervals p);
     NumberIntervals := cloneNumberIntervals (NumberIntervals p);
     currentString := currentString p; currentInteger := currentInteger p;
     currentIntegerInterval := currentIntegerInterval p;
     currentNumberInterval := currentNumberInterval p |}.

(** The first position whose type differs from the tree's: the loop
    [for i, pattern := range rule.Patterns { if pattern.Type != t.types[i] ... }]. *)
Fixpoint firstTypeMismatch (types actual : list MatchType) : option (MatchType * MatchType) :=
  match types, actual with
  | ty :: types', a :: actual' =>
      if decide (a = ty) then firstTypeMismatch types' actual' else Some (ty, a)
  | _, _ => None
  end.

(** ** [MatchTree[T]] and its two entry points *)

Section Tree.
Context {T : Type}.

Record MatchTree := mkMatchTree {
types : list MatchType;
values : list T;
root : option nat;
nodes : arena
}.

(** [NewMatchTree(types)] (it panics on an unknown type; [MatchNone] is
  the only one the Rocq type admits). *)
Definition NewMatchTree (tys : list MatchType) : option MatchTree :=
if decide (MatchNone ∈ tys) then None
else Some (mkMatchTree tys [] None []).

(** The first [getOrInsertNode] of [doAddRule]: the root, created with the
  given type when the tree has none. *)
Definition getOrInsertRoot (t : MatchTree) (ty : MatchType) : nat * MatchTree :=
match root t with
| Some r => (r, t)
| None =>
    let r := length (nodes t) in
    (r, mkMatchTree (types t) (values t) (Some r) (nodes t ++ [newMatchNode ty]))
end.

(** The chain of [getOrInsertNode] closures of [doAddRule]: the node of each
  dimension is the child of the previous node for the previous pattern,
  created with the current pattern's type ([MatchNone] for the leaf). *)
Fixpoint walkPath (s : arena) (node : nat) (lastPattern : MatchPattern)
  (ps : list MatchPattern) : option (nat * arena) :=
match ps with
| [] => GetOrInsertChild s node lastPattern MatchNone
| p :: ps' =>
    '(c, s') ← GetOrInsertChild s node lastPattern (pType p);
    walkPath s' c p ps'
end.

(** [func (t *MatchTree[T]) doAddRule(patterns, valueIndex, priority)] *)
Definition doAddRule (t : MatchTree) (patterns : list MatchPattern)
  (valueIndex : nat) (priority : Z) : option MatchTree :=
let '(r, t1) := getOrInsertRoot t
                  (match patterns with p :: _ => pType p | [] => MatchNone end) in
'(leaf, s) ← match patterns with
             | [] => Some (r, nodes t1)
             | p :: ps => walkPath (nodes t1) r p ps
             end;
s' ← AddResult s leaf {| ValueIndex := valueIndex; Priority := priority |};
Some (mkMatchTree (types t1) (values t1) (root t1) s').

(** [for _, v := range vs { ...; walkPatterns(i + 1) }] threading the tree. *)
Fixpoint forEach {A} (f : A -> MatchTree -> option MatchTree) (vs : list A)
  (t : MatchTree) : option MatchTree :=
match vs with
| [] => Some t
| v :: vs' => t' ← f v t; forEach f vs' t'
end.

(** [walkPatterns(i)]: [pre] are [patterns[:i]] with their current values
  set, [rest] are [patterns[i:]]. *)
Fixpoint walkPatterns (pre rest : list MatchPattern) (valueIndex : nat)
  (priority : Z) (t : MatchTree) {struct rest} : option MatchTree :=
match rest with
| [] => doAddRule t pre valueIndex priority
| p :: rest' =>
    if IsAny p then walkPatterns (pre ++ [p]) rest' valueIndex priority t
    else if IsInverse p then walkPatterns (pre ++ [p]) rest' valueIndex priority t
    else
      match pType p with
      | MatchString =>
          forEach (fun v => walkPatterns (pre ++ [setCurrentString p v]) rest'
                              valueIndex priority) (Strings p) t
      | MatchInteger =>
          forEach (fun v => walkPatterns (pre ++ [setCurrentInteger p v]) rest'
                              valueIndex priority) (Integers p) t
      | MatchIntegerInterval =>
          forEach (fun v => walkPatterns (pre ++ [setCurrentIntegerInterval p v]) rest'
                              valueIndex priority) (IntegerIntervals p) t
      | MatchNumberInterval =>
          forEach (fun v => walkPatterns (pre ++ [setCurrentNumberInterval p v]) rest'
                              valueIndex priority) (NumberIntervals p) t
      | MatchNone => None (* panic("unreachable") *)
      end
end.

(** [MatchRule[T]] *)
Record MatchRule := mkMatchRule {
Patterns : list MatchPattern;
Value : T;
RulePriority : Z
}.

(** [func (t *MatchTree[T]) AddRule(rule MatchRule[T]) error]: the tree
  after the call and the error returned. *)
Definition AddRule (t : MatchTree) (rule : MatchRule)
  : option (MatchTree * option matchError) :=
if negb (Nat.eqb (length (Patterns rule)) (length (types t))) then
  Some (t, Some (ErrNumberOfPatterns (length (types t)) (length (Patterns rule))))
else
  match firstTypeMismatch (types t) (map pType (Patterns rule)) with
  | Some (expected, actual) => Some (t, Some (ErrMatchType expected actual))
  | None =>
      let valueIndex := length (values t) in
      let t1 := mkMatchTree (types t) (values t ++ [Value rule]) (root t) (nodes t) in
      let patterns := map clonePattern (Patterns rule) in
      t2 ← walkPatterns [] patterns valueIndex (RulePriority rule) t1;
      Some (t2, None)
  end.

(** The comparison function given to [slices.SortFunc] in [extractValues]:
  [delta := y.Priority - x.Priority; if delta == 0 { delta = x.ValueIndex -
  y.ValueIndex }], in Go's 64-bit [int]. *)
Definition cmpResults (x y : matchResult) : Z :=
let delta := wrap64 (Priority y - Priority x) in
if Z.eqb delta 0
then wrap64 (Z.of_nat (ValueIndex x) - Z.of_nat (ValueIndex y))
else delta.

(** [slices.SortFunc]: pdqsort, which on slices of at most 12 elements is
  Go's [insertionSortCmpFunc]: [for i := a + 1; i < b; i++ { for j := i;
  j > a && cmp(data[j], data[j-1]) < 0; j-- { swap } }].  [insertRev]
  moves [x] left over the sorted prefix, kept reversed.  On longer slices
  pdqsort runs another algorithm; this model stays insertion sort there.
  The two agree whenever [cmpResults] does not wrap around: it is then a
  strict total order on results up to equality (two results with the same
  value index come from one rule and are equal), so the sorted slice is
  unique.  They may differ on longer slices whose priorities make the
  subtraction wrap. *)
Fixpoint insertRev {A} (cmp : A -> A -> Z) (x : A) (revPrefix : list A) : list A :=
match revPrefix with
| [] => [x]
| p :: ps => if Z.ltb (cmp x p) 0 then p :: insertRev cmp x ps else x :: p :: ps
end.

Definition sortFunc {A} (cmp : A -> A -> Z) (l : list A) : list A :=
rev (fold_left (fun acc x => insertRev cmp x acc) l []).

(** [lastValueIndex := -1; for _, result := range results { if result.ValueIndex ==
  lastValueIndex { continue }; results[n] = result; n++; lastValueIndex = result.ValueIndex }] *)
Fixpoint dedupResults (lastValueIndex : Z) (rs : list matchResult) : list matchResult :=
match rs with
| [] => []
| r :: rs' =>
    if Z.eqb (Z.of_nat (ValueIndex r)) lastValueIndex
    then dedupResults lastValueIndex rs'
    else r :: dedupResults (Z.of_nat (ValueIndex r)) rs'
end.

(** [func (t *MatchTree[T]) extractValues(nodes []matchNode) []T] *)
Definition extractValues (t : MatchTree) (ns : list nat) : option (list T) :=
rss ← mapM (GetResults (nodes t)) ns;
let n := sum_list_with length rss in
if Nat.eqb n 1 then
  (* return []T{t.values[nodes[0].GetResults()[0].ValueIndex]} *)
  rs0 ← head rss; r ← head rs0; v ← values t !! ValueIndex r; Some [v]
else
  let results := sortFunc cmpResults (concat rss) in
  mapM (fun r => values t !! ValueIndex r) (dedupResults (-1) results).

(** One layer of the traversal: [for _, node := range nodes {
  nextNodes = slices.AppendSeq(nextNodes, node.FindChildren(key)) }] *)
Definition searchLayer (s : arena) (key : MatchKey) (ns : list nat) : option (list nat) :=
css ← mapM (fun n => FindChildren s n key) ns; Some (concat css).

Fixpoint searchNodes (s : arena) (keys : list MatchKey) (ns : list nat)
  : option (list nat) :=
match keys with
| [] => Some ns
| key :: keys' => ns' ← searchLayer s key ns; searchNodes s keys' ns'
end.

(** [func (t *MatchTree[T]) Search(keys []MatchKey) ([]T, error)] *)
Definition Search (t : MatchTree) (keys : list MatchKey)
  : option (list T * option matchError) :=
if negb (Nat.eqb (length keys) (length (types t))) then
  Some ([], Some (ErrNumberOfKeys (length (types t)) (length keys)))
else
  match firstTypeMismatch (types t) (map kType keys) with
  | Some (expected, actual) => Some ([], Some (ErrMatchType expected actual))
  | None =>
      let ns0 := match root t with Some r => [r] | None => [] end in
      ns ← searchNodes (nodes t) keys ns0;
      match ns with
      | [] => Some ([], None)
      | _ => vs ← extractValues t ns; Some (vs, None)
      end
  end.

End Tree.

Arguments MatchTree : clear implicits.
Arguments MatchRule : clear implicits.

(** ** Literals as a Go caller writes them (zero values elsewhere) *)

Definition zeroIntegerInterval : IntegerInterval.t := IntegerInterval.mk None false None false.
Definition zeroNumberInterval : NumberInterval.t := NumberInterval.mk None false None false.

Definition mkPattern (ty : MatchType) (isAny isInverse : bool) (ss : list string)
    (zs : list Z) (iis : list IntegerInterval.t) (nis : list NumberInterval.t) : MatchPattern :=
  {| pType := ty; IsAny := isAny; IsInverse := isInverse;
     Strings := ss; Integers := zs; IntegerIntervals := iis; NumberIntervals := nis;
     currentString := ""; currentInteger := 0;
     currentIntegerInterval := zeroIntegerInterval;
     currentNumberInterval := zeroNumberInterval |}.

Definition stringKey (v : string) : MatchKey := mkMatchKey MatchString v 0 0%float.
Definition integerKey (v : Z) : MatchKey := mkMatchKey MatchInteger "" v 0%float.
Definition integerIntervalKey (v : Z) : MatchKey := mkMatchKey MatchIntegerInterval "" v 0%float.
Definition numberIntervalKey (v : float) : MatchKey := mkMatchKey MatchNumberInterval "" 0 v.

Definition emptyTree {T} (tys : list MatchType) : MatchTree T := mkMatchTree tys [] None [].

(** Adds the rules in order, stopping at the first error or panic. *)
Fixpoint addRules {T} (t : MatchTree T) (rules : list (MatchRule T)) : option (MatchTree T) :=
  match rules with
  | [] => Some t
  | r :: rs =>
      match AddRule t r with
      | Some (t', None) => addRules t' rs
      | _ => None
      end
  end.

(** ** Concrete inputs *)

Definition anyStringPattern : MatchPattern := mkPattern MatchString true false [] [] [] [].

(** Two wildcard rules, the first with priority [math.MinInt64], the second
    with priority 1. *)
Definition overflowRules : list (MatchRule string) :=
  [mkMatchRule [anyStringPattern] "A" (- 2 ^ 63);
   mkMatchRule [anyStringPattern] "B" 1].

(** Two rules with priorities 5 and 10, then two with equal priorities. *)
Definition priorityRules : list (MatchRule string) :=
  [mkMatchRule [anyStringPattern] "P5" 5;
   mkMatchRule [anyStringPattern] "P10" 10;
   mkMatchRule [anyStringPattern] "A" 3;
   mkMatchRule [anyStringPattern] "B" 3].

Definition searchAfter {T} (tys : list MatchType) (rules : list (MatchRule T))
    (keys : list MatchKey) : option (list T * option matchError) :=
  t ← addRules (emptyTree tys) rules; Search t keys.

(** The documented orderings hold on small priorities. *)
Example priority_order_small :
  searchAfter [MatchString] priorityRules [stringKey "k"]
  = Some (["P10"; "P5"; "A"; "B"], None).
Proof. vm_compute. reflexivity. Qed.

(** The spec's shape error: a count or a per-position kind that differs
    from the tree's dimension sequence. *)
Definition shapeMismatch (expected actual : list MatchType) : Prop :=
  length actual <> length expected \/
  exists i a b, expected !! i = Some a /\ actual !! i = Some b /\ a <> b.

(** The number of values of the pattern's own kind. *)
Definition patternValueCount (p : MatchPattern) : nat :=
  match pType p with
  | MatchString => length (Strings p)
  | MatchInteger => length (Integers p)
  | MatchIntegerInterval => length (IntegerIntervals p)
  | MatchNumberInterval => length (NumberIntervals p)
  | MatchNone => 0
  end.

(** A structurally empty pattern: no wildcard or inverse flag, no values. *)
Definition structurallyEmpty (p : MatchPattern) : Prop :=
  IsAny p = false /\ IsInverse p = false /\ patternValueCount p = 0.

Definition emptyStringPattern : MatchPattern := mkPattern MatchString false false [] [] [] [].

(** A rule with one empty String pattern. *)
Definition emptyPatternRules : list (MatchRule string) :=
  [mkMatchRule [emptyStringPattern] "E" 0].

(** The spec's cartesian expansion: a wildcard or inverse pattern stays one
    choice; an exact pattern gives one choice per value, with that value as
    the current one. *)
Definition expandPattern (p : MatchPattern) : list MatchPattern :=
  if IsAny p then [p]
  else if IsInverse p then [p]
  else match pType p with
       | MatchString => map (setCurrentString p) (Strings p)
       | MatchInteger => map (setCurrentInteger p) (Integers p)
       | MatchIntegerInterval => map (setCurrentIntegerInterval p) (IntegerIntervals p)
       | MatchNumberInterval => map (setCurrentNumberInterval p) (NumberIntervals p)
       | MatchNone => []
       end.

(** Every combination of choices, the first dimension varying slowest. *)
Fixpoint cartesianExpansion (ps : list MatchPattern) : list (list MatchPattern) :=
  match ps with
  | [] => [[]]
  | p :: ps' => flat_map (fun h => map (cons h) (cartesianExpansion ps')) (expandPattern p)
  end.

(** The spec's example: a [String; Integer] tree with one rule. *)
Definition cartesianRules : list (MatchRule string) :=
  [mkMatchRule [mkPattern MatchString false false ["a"; "b"] [] [] [];
                mkPattern MatchInteger false false [] [1; 2]%Z [] []] "V" 0].

(** A closed numeric interval [lo, hi]. *)
Definition closedNumberInterval (lo hi : float) : NumberInterval.t :=
  NumberInterval.mk (Some lo) false (Some hi) false.

(** [b = [0, 10]]; [a] and [c] move the upper bound by 0.6e-10 down and up:
    each is [Equals] to [b], and [a] is not [Equals] to [c]. *)
Definition intervalB : NumberInterval.t := closedNumberInterval 0 10.
Definition intervalA : NumberInterval.t := closedNumberInterval 0 (10 - 0.6e-10).
Definition intervalC : NumberInterval.t := closedNumberInterval 0 (10 + 0.6e-10).

Definition inverseNumberPattern (nis : list NumberInterval.t) : MatchPattern :=
  mkPattern MatchNumberInterval false true [] [] [] nis.

(** Rule "B" excludes [{b}]; rules "AC1" and "AC2" both exclude [{a, c}]. *)
Definition sharedInverseRules : list (MatchRule string) :=
  [mkMatchRule [inverseNumberPattern [intervalB]] "B" 0;
   mkMatchRule [inverseNumberPattern [intervalA; intervalC]] "AC1" 0;
   mkMatchRule [inverseNumberPattern [intervalA; intervalC]] "AC2" 0].

(** The spec's [{"admin", "root"}] exclusion, in a given order. *)
Definition inverseStringPattern (ss : list string) : MatchPattern :=
  mkPattern MatchString false true ss [] [] [].

(** The spec's reading of a pattern: a wildcard admits every key; otherwise
    the key must be one of the values (equal, or contained in an interval),
    or, for an inverse pattern, none of them. *)
Definition specPatternAdmits (p : MatchPattern) (k : MatchKey) : bool :=
  if IsAny p then true
  else
    let hit :=
      match pType p with
      | MatchNone => false
      | MatchString => existsb (fun v => String.eqb v (kString k)) (Strings p)
      | MatchInteger => existsb (fun v => Z.eqb v (kInteger k)) (Integers p)
      | MatchIntegerInterval =>
          existsb (fun i => IntegerInterval.Contains i (kInteger k)) (IntegerIntervals p)
      | MatchNumberInterval =>
          existsb (fun i => NumberInterval.Contains i (kNumber k)) (NumberIntervals p)
      end in
    if IsInverse p then negb hit else hit.

(** A rule matches a key list when each pattern admits its key. *)
Fixpoint specPatternsAdmit (ps : list MatchPattern) (keys : list MatchKey) : bool :=
  match ps, keys with
  | [], [] => true
  | p :: ps', k :: keys' => specPatternAdmits p k && specPatternsAdmit ps' keys'
  | _, _ => false
  end.

Definition specRuleMatches {T} (rule : MatchRule T) (keys : list MatchKey) : bool :=
  specPatternsAdmit (Patterns rule) keys.

Definition stringPattern (ss : list string) : MatchPattern :=
  mkPattern MatchString false false ss [] [] [].

(** Rule "A" excludes [b = [0, 10]] and wants "s1"; rule "B" excludes [c],
    whose upper bound is 0.6e-10 above [b]'s, and wants "s2". *)
Definition unsoundRules : list (MatchRule string) :=
  [mkMatchRule [inverseNumberPattern [intervalB]; stringPattern ["s1"]] "A" 0;
   mkMatchRule [inverseNumberPattern [intervalC]; stringPattern ["s2"]] "B" 0].

(** [10 + 1.3e-10] lies in [c] but not in [b]. *)
Definition unsoundKeys : list MatchKey :=
  [numberIntervalKey (10 + 1.3e-10)%float; stringKey "s2"].

(** The inverse groups of a tree's root, for a numeric first dimension. *)
Definition rootNumberInverseGroups {T} (t : MatchTree T) : list matchNodeWithRefCount :=
  match root t with
  | Some r =>
      match nodes t !! r with
      | Some (matchNodeOfNumberInterval n) => ListNode.inverseChildren n
      | _ => []
      end
  | None => []
  end.

(** ** The reuse rule of inverse groups, stated over the reverse index *)

(** How many times the reverse index lists group [g] for the values of [E]:
    the [refCounts[g]] that [GetOrInsertChild] computes. *)
Definition refCount {K Idx} (lookupIdx : Idx -> K -> list nat) (idx : Idx) (E : list K)
    (g : nat) : nat :=
  sum_list_with (fun v => count_occ Nat.eq_dec (lookupIdx idx v) g) E.

(** The reverse index names only existing groups. *)
Definition wfIdx {K Idx} (lookupIdx : Idx -> K -> list nat) (idx : Idx) (n : nat) : Prop :=
  forall v, Forall (fun g => g < n) (lookupIdx idx v).

Definition maxAt (ics : list matchNodeWithRefCount) (g : nat) : nat :=
  default 0 (MaxRefCount <$> ics !! g).

(** Group [g] excludes every element of [E], and has [|E|] elements. *)
Definition groupMatch {K Idx} (lookupIdx : Idx -> K -> list nat)
    (ics : list matchNodeWithRefCount) (idx : Idx) (E : list K) (g : nat) : bool :=
  Nat.eqb (refCount lookupIdx idx E g) (length E) && Nat.eqb (maxAt ics g) (length E).

(** The first [g] in [i, i + n) with [f g]. *)
Fixpoint findFirst (f : nat -> bool) (i n : nat) : option nat :=
  match n with
  | 0 => None
  | S n' => if f i then Some i else findFirst f (S i) n'
  end.

(** The spec's rule: reuse the child of the first group that matches [E],
    or else append a group for [E] with a new child. *)
Definition inverseChildSpec {K Idx} (lookupIdx : Idx -> K -> list nat)
    (addIdx : Idx -> K -> nat -> Idx) (ics : list matchNodeWithRefCount) (idx : Idx)
    (E : list K) (fresh : nat) : option (nat * list matchNodeWithRefCount * Idx * bool) :=
  match findFirst (groupMatch lookupIdx ics idx E) 0 (length ics) with
  | Some g => ic ← ics !! g; Some (MatchNode ic, ics, idx, false)
  | None => Some (fresh, ics ++ [{| MatchNode := fresh; MaxRefCount := length E |}],
                  addAll addIdx idx E (length ics), true)
  end.

(** No two elements of the list are equal under [eqb]: what [cloneWith]
    leaves. *)
Fixpoint distinctBy {K} (eqb : K -> K -> bool) (l : list K) : Prop :=
  match l with
  | [] => True
  | v :: l' => Forall (fun u => eqb v u = false /\ eqb u v = false) l' /\ distinctBy eqb l'
  end.

(** What [IntegerInterval.Equals] compares: each present bound with its flag. *)
Definition integerIntervalBounds (i : IntegerInterval.t)
    : option (Z * bool) * option (Z * bool) :=
  (option_map (fun a => (a, IntegerInterval.MinIsExcluded i)) (IntegerInterval.Min i),
   option_map (fun b => (b, IntegerInterval.MaxIsExcluded i)) (IntegerInterval.Max i)).

(** Inverse insertions with any exclusion lists, one after another. *)
Inductive invSteps {K Idx} (lookupIdx : Idx -> K -> list nat) (addIdx : Idx -> K -> nat -> Idx)
    : list matchNodeWithRefCount * Idx -> list matchNodeWithRefCount * Idx -> Prop :=
| invSteps_refl st : invSteps lookupIdx addIdx st st
| invSteps_step ics idx E fresh c ics' idx' a st :
    getOrInsertInverseChild lookupIdx addIdx ics idx E fresh = Some (c, ics', idx', a) ->
    invSteps lookupIdx addIdx (ics', idx') st -> invSteps lookupIdx addIdx (ics, idx) st.

(** Insertions of any patterns into one node, one after another. *)
Inductive nodeSteps : matchNode -> matchNode -> Prop :=
| nodeSteps_refl nd : nodeSteps nd nd
| nodeSteps_step nd p fresh c nd' a nd'' :
    nodeGetOrInsertChild nd p fresh = Some (c, nd', a) -> nodeSteps nd' nd'' ->
    nodeSteps nd nd''.

(** The exclusion list an inverse pattern gives a node of kind [ty] is a
    reordering of the one of [p]. *)
Definition sameExclusions (ty : MatchType) (p p' : MatchPattern) : Prop :=
  match ty with
  | MatchString => Permutation (Strings p') (Strings p)
  | MatchInteger => Permutation (Integers p') (Integers p)
  | MatchIntegerInterval => Permutation (IntegerIntervals p') (IntegerIntervals p)
  | _ => False
  end.

(** Every group a node's reverse index lists exists. *)
Definition nodeIdxWF (nd : matchNode) : Prop :=
  match nd with
  | matchNodeOfNone _ => True
  | matchNodeOfString n =>
      wfIdx MapNode.lookupIdx (MapNode.inverseChildIndexes n) (length (MapNode.inverseChildren n))
  | matchNodeOfInteger n =>
      wfIdx MapNode.lookupIdx (MapNode.inverseChildIndexes n) (length (MapNode.inverseChildren n))
  | matchNodeOfIntegerInterval n =>
      wfIdx (ListNode.lookupIdx IntegerInterval.Equals) (ListNode.inverseChildIndexes n)
        (length (ListNode.inverseChildren n))
  | matchNodeOfNumberInterval n =>
      wfIdx (ListNode.lookupIdx NumberInterval.Equals) (ListNode.inverseChildIndexes n)
        (length (ListNode.inverseChildren n))
  end.

(** A node of the arena is a terminal node, or a node of some type grown
    from a new one by insertions. *)
Definition nodeOK (nd : matchNode) : Prop :=
  (exists rs, nd = matchNodeOfNone rs) \/ (exists ty, nodeSteps (newMatchNode ty) nd).

Definition arenaOK (s : arena) : Prop := Forall nodeOK s.

(** Every group a reverse-index entry of an interval node lists exists. *)
Definition entriesWF {I} (idx : list (I * list nat)) (n : nat) : Prop :=
  Forall (fun e => Forall (fun g => g < n) e.2) idx.

(** The spec's [FindChildren(key)]: the exact-match children, then, in group
    order, the child of each group whose exclusion set does not hold the key,
    then the wildcard child. *)
Fixpoint unexcludedGroups (excluded : nat -> bool) (ics : list matchNodeWithRefCount)
    (i : nat) : list nat :=
  match ics with
  | [] => []
  | ic :: ics' =>
      (if excluded i then [] else [MatchNode ic]) ++ unexcludedGroups excluded ics' (S i)
  end.

Definition anyChildren (c : option nat) : list nat :=
  match c with Some c => [c] | None => [] end.

(** A group of a string or integer node excludes the key when the reverse
    index lists it under the key; a group of an interval node, when an
    entry whose interval contains the key lists it. *)
Definition specMapFindChildren {K} `{Countable K} (n : MapNode.t K) (k : K) : list nat :=
  anyChildren (MapNode.children n !! k)
  ++ unexcludedGroups
       (fun g => bool_decide (g ∈ MapNode.lookupIdx (MapNode.inverseChildIndexes n) k))
       (MapNode.inverseChildren n) 0
  ++ anyChildren (MapNode.anyChild n).

Definition specListFindChildren {I X} (Contains : I -> X -> bool) (n : ListNode.t I) (k : X)
    : list nat :=
  map snd (filter (fun x => Contains x.1 k) (ListNode.children n))
  ++ unexcludedGroups
       (fun g => existsb (fun e => Contains e.1 k && bool_decide (g ∈ e.2))
                   (ListNode.inverseChildIndexes n))
       (ListNode.inverseChildren n) 0
  ++ anyChildren (ListNode.anyChild n).

Definition specFindChildren (nd : matchNode) (key : MatchKey) : option (list nat) :=
  match nd with
  | matchNodeOfNone _ => None
  | matchNodeOfString n => Some (specMapFindChildren n (kString key))
  | matchNodeOfInteger n => Some (specMapFindChildren n (kInteger key))
  | matchNodeOfIntegerInterval n =>
      Some (specListFindChildren IntegerInterval.Contains n (kInteger key))
  | matchNodeOfNumberInterval n =>
      Some (specListFindChildren NumberInterval.Contains n (kNumber key))
  end.

(** The tree the spec's cartesian example builds. *)
Definition cartesianTree : MatchTree string :=
  match addRules (emptyTree [MatchString; MatchInteger]) cartesianRules with
  | Some t => t
  | None => emptyTree []
  end.

(** Trees a program can hold: made by [NewMatchTree], then changed only by
    [AddRule] calls that returned ([Search] returns no tree: it changes none). *)
Inductive reachable {T} : MatchTree T -> Prop :=
| reachable_new tys t : NewMatchTree tys = Some t -> reachable t
| reachable_add t rule t' e : reachable t -> AddRule t rule = Some (t', e) -> reachable t'.

(** From arena [s] to arena [s']: every terminal node keeps its results and
    gains only copies of [res]; every terminal node of [s'] is an old one so
    grown, or a new one holding copies of [res] only, at least one. *)
Definition nodesGrow (res : matchResult) (s s' : arena) : Prop :=
  (forall i rs, s !! i = Some (matchNodeOfNone rs) ->
     exists rs', s' !! i = Some (matchNodeOfNone (rs ++ rs')) /\ Forall (eq res) rs') /\
  (forall i rs, s' !! i = Some (matchNodeOfNone rs) ->
     (exists rs0 rs', s !! i = Some (matchNodeOfNone rs0) /\ rs = rs0 ++ rs'
                      /\ Forall (eq res) rs') \/
     (rs <> [] /\ Forall (eq res) rs)).

(** One step that keeps the types and values and grows the arena by [res]. *)
Definition treeGrows {T} (res : matchResult) (t t' : MatchTree T) : Prop :=
  types t' = types t /\ values t' = values t /\ nodesGrow res (nodes t) (nodes t').

(** The arena invariant of C9 and C10: terminal nodes hold results, each
    indexing into the value table. *)
Definition resultsWF {T} (t : MatchTree T) : Prop :=
  forall i rs, nodes t !! i = Some (matchNodeOfNone rs) ->
    rs <> [] /\ Forall (fun r => ValueIndex r < length (values t)) rs.

(** ** What a path of the tree admits *)

(** The label of an edge: what the pattern that made the edge admits of a
    key.  A wildcard edge admits every key, an exact edge the keys equal to
    (or, for intervals, contained in) its value, an inverse edge the keys
    that no element of its exclusion set admits. *)
Inductive edgeLabel :=
| LAny
| LString (v : string)
| LNotStrings (E : list string)
| LInteger (v : Z)
| LNotIntegers (E : list Z)
| LInterval (i : IntegerInterval.t)
| LNotIntervals (E : list IntegerInterval.t).

Definition labelAdmits (l : edgeLabel) (k : MatchKey) : bool :=
  match l with
  | LAny => true
  | LString v => String.eqb v (kString k)
  | LNotStrings E => negb (existsb (fun v => String.eqb v (kString k)) E)
  | LInteger v => Z.eqb v (kInteger k)
  | LNotIntegers E => negb (existsb (fun v => Z.eqb v (kInteger k)) E)
  | LInterval i => IntegerInterval.Contains i (kInteger k)
  | LNotIntervals E => negb (existsb (fun i => IntegerInterval.Contains i (kInteger k)) E)
  end.

Fixpoint labelsAdmit (pl : list edgeLabel) (keys : list MatchKey) : bool :=
  match pl, keys with
  | [], [] => true
  | l :: pl', k :: keys' => labelAdmits l k && labelsAdmit pl' keys'
  | _, _ => false
  end.

Definition nodeType (nd : matchNode) : MatchType :=
  match nd with
  | matchNodeOfNone _ => MatchNone
  | matchNodeOfString _ => MatchString
  | matchNodeOfInteger _ => MatchInteger
  | matchNodeOfIntegerInterval _ => MatchIntegerInterval
  | matchNodeOfNumberInterval _ => MatchNumberInterval
  end.

(** The exclusion sets a node's inverse groups stand for: group [g] stands
    for [grp g]; [excl idx g k] (the group is skipped for key [k]) holds
    exactly when an element of [grp g] admits [k]; the reverse index lists a
    group at most once under a value. *)
Definition groupsSem {K Idx} (lookupIdx : Idx -> K -> list nat) (sem : K -> MatchKey -> bool)
    (excl : Idx -> nat -> MatchKey -> bool) (ics : list matchNodeWithRefCount) (idx : Idx)
    (grp : nat -> list K) : Prop :=
  wfIdx lookupIdx idx (length ics) /\
  (forall g k, excl idx g k = true -> g < length ics) /\
  (forall g k, g < length ics -> excl idx g k = existsb (fun v => sem v k) (grp g)) /\
  (forall g v, count_occ Nat.eq_dec (lookupIdx idx v) g <= 1).

(** When [FindChildren] skips group [g] for key [k]: a string or integer
    node looks the key up in the reverse index, an interval node looks for
    an entry whose interval contains the key. *)
Definition mapExcl {K} `{Countable K} (keyOf : MatchKey -> K) (idx : gmap K (list nat))
    (g : nat) (k : MatchKey) : bool :=
  bool_decide (g ∈ MapNode.lookupIdx idx (keyOf k)).

Definition listExcl {I} (Contains : I -> MatchKey -> bool) (idx : list (I * list nat))
    (g : nat) (k : MatchKey) : bool :=
  existsb (fun e => Contains e.1 k && bool_decide (g ∈ e.2)) idx.

(** The children of a node at path [pl] carry the path extended by the
    label of their edge. *)
Definition mapNodeLabels {K} `{Countable K} (exact : K -> edgeLabel) (notIn : list K -> edgeLabel)
    (keyOf : MatchKey -> K) (n : MapNode.t K) (lab : list (list edgeLabel))
    (pl : list edgeLabel) : Prop :=
  (forall v c, MapNode.children n !! v = Some c -> lab !! c = Some (pl ++ [exact v])) /\
  (forall c, MapNode.anyChild n = Some c -> lab !! c = Some (pl ++ [LAny])) /\
  exists grp,
    groupsSem MapNode.lookupIdx (fun v k => bool_decide (v = keyOf k)) (mapExcl keyOf)
      (MapNode.inverseChildren n) (MapNode.inverseChildIndexes n) grp /\
    forall g ic, MapNode.inverseChildren n !! g = Some ic ->
      lab !! MatchNode ic = Some (pl ++ [notIn (grp g)]).

Definition listNodeLabels {I} (Equals : I -> I -> bool) (Contains : I -> MatchKey -> bool)
    (exact : I -> edgeLabel) (notIn : list I -> edgeLabel) (n : ListNode.t I)
    (lab : list (list edgeLabel)) (pl : list edgeLabel) : Prop :=
  (forall i x, ListNode.children n !! i = Some x -> lab !! x.2 = Some (pl ++ [exact x.1])) /\
  (forall c, ListNode.anyChild n = Some c -> lab !! c = Some (pl ++ [LAny])) /\
  exists grp,
    groupsSem (ListNode.lookupIdx Equals) Contains (listExcl Contains)
      (ListNode.inverseChildren n) (ListNode.inverseChildIndexes n) grp /\
    forall g ic, ListNode.inverseChildren n !! g = Some ic ->
      lab !! MatchNode ic = Some (pl ++ [notIn (grp g)]).

Definition integerIntervalSem (i : IntegerInterval.t) (k : MatchKey) : bool :=
  IntegerInterval.Contains i (kInteger k).

(** The labels of the children of a non-terminal node; number-interval
    nodes are left out. *)
Definition nodeLabels (nd : matchNode) (lab : list (list edgeLabel)) (pl : list edgeLabel)
    : Prop :=
  match nd with
  | matchNodeOfNone _ => True
  | matchNodeOfString n => mapNodeLabels LString LNotStrings kString n lab pl
  | matchNodeOfInteger n => mapNodeLabels LInteger LNotIntegers kInteger n lab pl
  | matchNodeOfIntegerInterval n =>
      listNodeLabels IntegerInterval.Equals integerIntervalSem LInterval LNotIntervals n lab pl
  | matchNodeOfNumberInterval _ => False
  end.

(** A node at path [pl]: a terminal node sits at full depth, and each of
    its results is the value of a rule that every key list the path admits
    matches; a non-terminal node has the type of its dimension, and its
    children are labelled. *)
Definition nodeSound {T} (R : list (MatchRule T)) (tys : list MatchType)
    (lab : list (list edgeLabel)) (pl : list edgeLabel) (nd : matchNode) : Prop :=
  match nd with
  | matchNodeOfNone rs =>
      length pl = length tys /\
      Forall (fun r => exists rule, R !! ValueIndex r = Some rule /\
                forall keys, labelsAdmit pl keys = true -> specRuleMatches rule keys = true) rs
  | _ => tys !! length pl = Some (nodeType nd) /\ nodeLabels nd lab pl
  end.

(** Every node of the arena has a path of labels from the root. *)
Definition soundArena {T} (R : list (MatchRule T)) (tys : list MatchType) (s : arena)
    (lab : list (list edgeLabel)) : Prop :=
  length lab = length s /\
  forall i nd, s !! i = Some nd -> exists pl, lab !! i = Some pl /\ nodeSound R tys lab pl nd.

Definition soundTree {T} (t : MatchTree T) (R : list (MatchRule T)) (lab : list (list edgeLabel))
    : Prop :=
  soundArena R (types t) (nodes t) lab /\ forall r, root t = Some r -> lab !! r = Some [].

(** Trees made by [NewMatchTree] and [AddRule] calls, with the rules the
    calls added: a call that returned an error added none. *)
Inductive builtFrom {T} : MatchTree T -> list (MatchRule T) -> Prop :=
| builtFrom_new tys t : NewMatchTree tys = Some t -> builtFrom t []
| builtFrom_added t R rule t' :
    builtFrom t R -> AddRule t rule = Some (t', None) -> builtFrom t' (R ++ [rule])
| builtFrom_failed t R rule t' e :
    builtFrom t R -> AddRule t rule = Some (t', Some e) -> builtFrom t' R.

(** The value lists of a pattern are duplicate-free, as [clonePattern]
    leaves them; an exact pattern's current value is one of its values. *)
Definition patDistinct (p : MatchPattern) : Prop :=
  distinctBy (fun a b => bool_decide (a = b)) (Strings p) /\
  distinctBy (fun a b => bool_decide (a = b)) (Integers p) /\
  distinctBy IntegerInterval.Equals (IntegerIntervals p).

Definition patCurrentIn (p : MatchPattern) : Prop :=
  match pType p with
  | MatchString => currentString p ∈ Strings p
  | MatchInteger => currentInteger p ∈ Integers p
  | MatchIntegerInterval => currentIntegerInterval p ∈ IntegerIntervals p
  | _ => True
  end.

Definition patOK (p : MatchPattern) : Prop :=
  patDistinct p /\ (IsAny p = false -> IsInverse p = false -> patCurrentIn p).

(** An edge label admits only keys the pattern admits. *)
Definition labelImplies (l : edgeLabel) (p : MatchPattern) : Prop :=
  forall k, labelAdmits l k = true -> specPatternAdmits p k = true.

(** The dimension types the soundness argument covers. *)
Definition tysOK (tys : list MatchType) : Prop :=
  Forall (fun ty => ty <> MatchNone /\ ty <> MatchNumberInterval) tys.

(** ** Match type names *)

(** [NumberOfMatchTypes = int(iota)] *)
Definition NumberOfMatchTypes : Z := 5.

(** [var matchType2String = [NumberOfMatchTypes]string{...}], in [iota] order. *)
Definition matchType2String : list string :=
  ["NONE"; "STRING"; "INTEGER"; "INTEGER_INTERVAL"; "NUMBER_INTERVAL"].

(** [func (t MatchType) String() string] on [i := int(t)]; [fmt.Sprintf("%d", i)]
    is [pretty i]. *)
Definition MatchType_String (i : Z) : string :=
  if (0 <=? i)%Z && (i <? NumberOfMatchTypes)%Z
  then default "" (matchType2String !! Z.to_nat i)   (* always found: [i] is in range *)
  else "UNKNOWN(" +:+ pretty i +:+ ")".

(** The error of [ParseMatchType]: [fmt.Errorf("unknown match type %q", s)]. *)
Inductive parseError := ErrUnknownMatchType (s : string).

(** [for i, ss := range matchType2String { if ss == s { return MatchType(i), nil } }] *)
Fixpoint parseFrom (i : Z) (names : list string) (s : string) : option Z :=
  match names with
  | [] => None
  | ss :: names' => if String.eqb ss s then Some i else parseFrom (i + 1)%Z names' s
  end.

(** [func ParseMatchType(s string) (MatchType, error)] *)
Definition ParseMatchType (s : string) : Z * option parseError :=
  match parseFrom 0 matchType2String s with
  | Some i => (i, None)
  | None => (0%Z, Some (ErrUnknownMatchType s))
  end.

(** ** Search completeness: invariants and reachability *)

(** Group [g] of the reverse index stands for [grp g]: a value under which
    the index lists [g] is [eqb]-equal to an element of [grp g]; the index
    lists a group at most once under a value; [grp g] has at most
    [MaxRefCount] elements. *)
Definition groupsCount {K Idx} (lookupIdx : Idx -> K -> list nat) (eqb : K -> K -> bool)
    (ics : list matchNodeWithRefCount) (idx : Idx) (grp : nat -> list K) : Prop :=
  (forall g v, g ∈ lookupIdx idx v -> g < length ics /\ existsb (eqb v) (grp g) = true) /\
  (forall g v, count_occ Nat.eq_dec (lookupIdx idx v) g <= 1) /\
  (forall g, g < length ics -> length (grp g) <= maxAt ics g).

(** A group is skipped for a key only when an element of the set it stands
    for admits the key. *)
Definition exclCover {K Idx} (sem : K -> MatchKey -> bool) (excl : Idx -> nat -> MatchKey -> bool)
    (ics : list matchNodeWithRefCount) (idx : Idx) (grp : nat -> list K) : Prop :=
  forall g k, excl idx g k = true -> g < length ics /\ existsb (fun v => sem v k) (grp g) = true.

Definition mapGroupsOK {K} `{Countable K} (keyOf : MatchKey -> K) (n : MapNode.t K) : Prop :=
  exists grp,
    groupsCount MapNode.lookupIdx (fun a b => bool_decide (a = b))
      (MapNode.inverseChildren n) (MapNode.inverseChildIndexes n) grp /\
    exclCover (fun v k => bool_decide (v = keyOf k)) (mapExcl keyOf)
      (MapNode.inverseChildren n) (MapNode.inverseChildIndexes n) grp.

Definition listGroupsOK {I X} (Equals : I -> I -> bool) (Contains : I -> X -> bool)
    (keyOf : MatchKey -> X) (n : ListNode.t I) : Prop :=
  exists grp,
    groupsCount (ListNode.lookupIdx Equals) Equals
      (ListNode.inverseChildren n) (ListNode.inverseChildIndexes n) grp /\
    exclCover (fun v k => Contains v (keyOf k)) (listExcl (fun v k => Contains v (keyOf k)))
      (ListNode.inverseChildren n) (ListNode.inverseChildIndexes n) grp.

(** The inverse-group invariants of the node kinds the completeness
    argument covers. *)
Definition nodeGroupsOK (nd : matchNode) : Prop :=
  match nd with
  | matchNodeOfString n => mapGroupsOK kString n
  | matchNodeOfInteger n => mapGroupsOK kInteger n
  | matchNodeOfIntegerInterval n =>
      listGroupsOK IntegerInterval.Equals IntegerInterval.Contains kInteger n
  | _ => True
  end.

Definition groupsOK (s : arena) : Prop := Forall nodeGroupsOK s.

(** What the value [walkPatterns] sets as current admits of a key. *)
Definition currentAdmits (p : MatchPattern) (k : MatchKey) : bool :=
  match pType p with
  | MatchNone => false
  | MatchString => String.eqb (currentString p) (kString k)
  | MatchInteger => Z.eqb (currentInteger p) (kInteger k)
  | MatchIntegerInterval => IntegerInterval.Contains (currentIntegerInterval p) (kInteger k)
  | MatchNumberInterval => NumberInterval.Contains (currentNumberInterval p) (kNumber k)
  end.

(** What the edge [doAddRule] follows or makes for a pattern admits: all
    keys for a wildcard, the pattern's reading for an inverse pattern, the
    current value's for any other. *)
Definition walkAdmits (p : MatchPattern) (k : MatchKey) : bool :=
  if IsAny p then true else if IsInverse p then specPatternAdmits p k else currentAdmits p k.

(** [m] is among the nodes [FindChildren] leads to from [n] along [keys]. *)
Inductive reaches (s : arena) : nat -> list MatchKey -> nat -> Prop :=
| reaches_nil n : reaches s n [] n
| reaches_cons n k ks cs c m :
    FindChildren s n k = Some cs -> c ∈ cs -> reaches s c ks m -> reaches s n (k :: ks) m.

(** From arena [s] to [s']: [FindChildren] still yields what it yielded. *)
Definition findGrows (s s' : arena) : Prop :=
  forall n k cs c, FindChildren s n k = Some cs -> c ∈ cs ->
    exists cs', FindChildren s' n k = Some cs' /\ c ∈ cs'.

Fixpoint walkAdmitsAll (ps : list MatchPattern) (keys : list MatchKey) : bool :=
  match ps, keys with
  | [], [] => true
  | p :: ps', k :: keys' => walkAdmits p k && walkAdmitsAll ps' keys'
  | _, _ => false
  end.



Section Ext.
Context {T : Type}.

(** From tree [t] to [t']: the root stays, [FindChildren] still yields
    what it yielded, terminal nodes keep their results. *)
Definition treeExt (t t' : MatchTree T) : Prop :=
  (forall r, root t = Some r -> root t' = Some r) /\ findGrows (nodes t) (nodes t') /\
  (forall i rs, nodes t !! i = Some (matchNodeOfNone rs) ->
     exists rs', nodes t' !! i = Some (matchNodeOfNone (rs ++ rs'))).

(** A terminal node holding a result of value index [vi] is reached from
    the root along [keys]. *)
Definition pathTo (t : MatchTree T) (keys : list MatchKey) (vi : nat) : Prop :=
  exists r leaf rs res, root t = Some r /\ reaches (nodes t) r keys leaf /\
    nodes t !! leaf = Some (matchNodeOfNone rs) /\ res ∈ rs /\ ValueIndex res = vi.
End Ext.

Definition completeRules : list (MatchRule string) :=
  [mkMatchRule [anyStringPattern; mkPattern MatchInteger false false [] [1; 2]%Z [] []] "a" 0;
   mkMatchRule [mkPattern MatchString false false ["x"] [] [] [];
                mkPattern MatchInteger false true [] [2]%Z [] []] "b" 1;
   mkMatchRule [mkPattern MatchString false false ["y"] [] [] [];
                mkPattern MatchInteger true false [] [] [] []] "c" 2].

Definition completeTree : MatchTree string :=
  match addRules (emptyTree [MatchString; MatchInteger]) completeRules with
  | Some t => t
  | None => emptyTree []
  end.

(** Concrete inputs of further properties. *)

Definition exactAPattern : MatchPattern :=
  setCurrentString (mkPattern MatchString false false ["a"] [] [] []) "a".

Definition exactAArena : list matchNode :=
  match GetOrInsertChild [newMatchNode MatchString] 0 exactAPattern MatchNone with
  | Some (_, s') => s'
  | None => []
  end.

(** ** Theorems *)

(** C1: [extractValues] orders by [delta := y.Priority - x.Priority] in Go's
    64-bit [int]; the subtraction wraps around, and a rule of priority
    [math.MinInt64] inserted before a rule of priority 1 comes out first. *)
Theorem extractValues_priority_overflow :
  searchAfter [MatchString] overflowRules [stringKey "k"] = Some (["A"; "B"], None)
  /\ (RulePriority (nth 0 overflowRules (mkMatchRule [] "" 0))
      < RulePriority (nth 1 overflowRules (mkMatchRule [] "" 0)))%Z.
Proof. split; [vm_compute; reflexivity | simpl; lia]. Qed.

(** Float comparison is antisymmetric: [a <= b] rules out [b < a]. *)
Lemma SFcompare_antisym a b :
  SpecFloat.SFcompare b a = option_map CompOpp (SpecFloat.SFcompare a b).
Proof.
  destruct a as [sa|sa| |sa ma ea], b as [sb|sb| |sb mb eb];
    try destruct sa; try destruct sb; simpl; try reflexivity.
  - rewrite (Z.compare_antisym ea eb).
    destruct (Z.compare ea eb) eqn:E; simpl; try reflexivity.
    pose proof (Pos.compare_cont_antisym ma mb Eq) as A; simpl in A.
    rewrite <- A. destruct (Pos.compare_cont Eq ma mb); reflexivity.
  - rewrite (Z.compare_antisym ea eb).
    destruct (Z.compare ea eb) eqn:E; simpl; try reflexivity.
    pose proof (Pos.compare_cont_antisym ma mb Eq) as A; simpl in A.
    rewrite <- A. destruct (Pos.compare_cont Eq ma mb); reflexivity.
Qed.

Lemma float_leb_not_ltb (a b : float) : (a <=? b)%float = true -> (b <? a)%float = false.
Proof.
  rewrite FloatAxioms.leb_spec, FloatAxioms.ltb_spec.
  unfold SpecFloat.SFleb, SpecFloat.SFltb.
  rewrite SFcompare_antisym.
  destruct (SpecFloat.SFcompare _ _) as [[]|]; simpl; congruence.
Qed.

(** Float comparison is antisymmetric: [a < b] rules out [b <= a]. *)
Lemma float_ltb_not_leb (a b : float) : (a <? b)%float = true -> (b <=? a)%float = false.
Proof.
  rewrite FloatAxioms.leb_spec, FloatAxioms.ltb_spec.
  unfold SpecFloat.SFleb, SpecFloat.SFltb.
  rewrite SFcompare_antisym.
  destruct (SpecFloat.SFcompare _ _) as [[]|]; simpl; congruence.
Qed.

(** C3: [NumberInterval.Contains]: an absent bound constrains nothing and the
    two sides are tested independently; a present bound is compared with
    [y+epsilon] or [y-epsilon] (float64 sums), so an inclusive bound admits
    every point up to epsilon outside it and an exclusive bound rejects every
    point up to epsilon inside it, and no further: an inclusive bound rejects
    every point more than epsilon outside it ([x < y-epsilon] or
    [y+epsilon < x]) and an exclusive bound admits every point more than
    epsilon inside it, so each side is the literal comparison shifted by
    exactly epsilon; on the spec's inputs, [0.0, 10.0] contains 10.0 + 5e-11
    and not 10.0 + 5e-9, and (10.0, 20.0) contains neither 10.0 nor
    10.0 + 5e-11; one and a half epsilon past the bound, [0.0, 10.0] no
    longer contains 10.0 + 1.5e-10 and (10.0, 20.0) contains it. *)
Theorem NumberInterval_Contains_epsilon :
  (forall me xe x, NumberInterval.Contains (NumberInterval.mk None me None xe) x = true)
  /\ (forall i x, NumberInterval.Contains i x =
        NumberInterval.Contains
          (NumberInterval.mk (NumberInterval.Min i) (NumberInterval.MinIsExcluded i) None false) x
        && NumberInterval.Contains
          (NumberInterval.mk None false (NumberInterval.Max i) (NumberInterval.MaxIsExcluded i)) x)
  /\ (forall y x xe, (y - epsilon <=? x)%float = true ->
        NumberInterval.Contains (NumberInterval.mk (Some y) false None xe) x = true)
  /\ (forall y x me, (x <=? y + epsilon)%float = true ->
        NumberInterval.Contains (NumberInterval.mk None me (Some y) false) x = true)
  /\ (forall i y x, NumberInterval.Min i = Some y -> NumberInterval.MinIsExcluded i = true ->
        (x <=? y + epsilon)%float = true -> NumberInterval.Contains i x = false)
  /\ (forall i y x, NumberInterval.Max i = Some y -> NumberInterval.MaxIsExcluded i = true ->
        (y - epsilon <=? x)%float = true -> NumberInterval.Contains i x = false)
  /\ (forall y x xe, (x <? y - epsilon)%float = true ->
        NumberInterval.Contains (NumberInterval.mk (Some y) false None xe) x = false)
  /\ (forall y x me, (y + epsilon <? x)%float = true ->
        NumberInterval.Contains (NumberInterval.mk None me (Some y) false) x = false)
  /\ (forall y x xe, (y + epsilon <? x)%float = true ->
        NumberInterval.Contains (NumberInterval.mk (Some y) true None xe) x = true)
  /\ (forall y x me, (x <? y - epsilon)%float = true ->
        NumberInterval.Contains (NumberInterval.mk None me (Some y) true) x = true)
  /\ NumberInterval.Contains (NumberInterval.mk (Some 0%float) false (Some 10%float) false)
       10.00000000005%float = true
  /\ NumberInterval.Contains (NumberInterval.mk (Some 0%float) false (Some 10%float) false)
       10.000000005%float = false
  /\ NumberInterval.Contains (NumberInterval.mk (Some 10%float) true (Some 20%float) true)
       10%float = false
  /\ NumberInterval.Contains (NumberInterval.mk (Some 10%float) true (Some 20%float) true)
       10.00000000005%float = false
  /\ NumberInterval.Contains (NumberInterval.mk (Some 0%float) false (Some 10%float) false)
       10.00000000015%float = false
  /\ NumberInterval.Contains (NumberInterval.mk (Some 10%float) true (Some 20%float) true)
       10.00000000015%float = true.
Proof.
  split; [| split; [| split; [| split; [| split; [| split; [| split; [| split; [| split; [| split]]]]]]]]].
  - intros me xe x. reflexivity.
  - intros [mi me ma xe] x. unfold NumberInterval.Contains; simpl.
    rewrite !andb_true_r. reflexivity.
  - intros y x xe H. unfold NumberInterval.Contains; simpl.
    rewrite (float_leb_not_ltb _ _ H). reflexivity.
  - intros y x me H. unfold NumberInterval.Contains; simpl.
    rewrite (float_leb_not_ltb _ _ H). reflexivity.
  - intros [mi me ma xe] y x Hmi Hme H; simpl in *; subst.
    unfold NumberInterval.Contains; simpl. rewrite H. reflexivity.
  - intros [mi me ma xe] y x Hma Hxe H; simpl in *; subst.
    unfold NumberInterval.Contains; simpl. rewrite H, andb_false_r. reflexivity.
  - intros y x xe H. unfold NumberInterval.Contains; simpl. rewrite H. reflexivity.
  - intros y x me H. unfold NumberInterval.Contains; simpl. rewrite H. reflexivity.
  - intros y x xe H. unfold NumberInterval.Contains; simpl.
    rewrite (float_ltb_not_leb _ _ H). reflexivity.
  - intros y x me H. unfold NumberInterval.Contains; simpl.
    rewrite (float_ltb_not_leb _ _ H). reflexivity.
  - repeat split; vm_compute; reflexivity.
Qed.

Lemma firstTypeMismatch_None (exp act : list MatchType) :
  firstTypeMismatch exp act = None <->
  forall i a b, exp !! i = Some a -> act !! i = Some b -> a = b.
Proof.
  revert act; induction exp as [|e exp IH]; intros [|a act]; simpl.
  - split; [intros _ i a b H; discriminate|reflexivity].
  - split; [intros _ i a' b H; discriminate|reflexivity].
  - split; [intros _ i a' b _ H; discriminate|reflexivity].
  - destruct (decide (a = e)) as [->|Hne].
    + rewrite IH. split.
      * intros H [|i] x y Hx Hy; simpl in *; [congruence|eauto].
      * intros H i x y Hx Hy. apply (H (S i)); assumption.
    + split; [discriminate|].
      intros H. exfalso. apply Hne. symmetry. apply (H 0); reflexivity.
Qed.

Lemma firstTypeMismatch_Some (exp act : list MatchType) e a :
  firstTypeMismatch exp act = Some (e, a) ->
  exists i, exp !! i = Some e /\ act !! i = Some a /\ e <> a.
Proof.
  revert act; induction exp as [|x exp IH]; intros [|y act]; simpl; try discriminate.
  destruct (decide (y = x)) as [->|Hne].
  - intros H. destruct (IH _ H) as (i & ?). exists (S i). assumption.
  - intros [= -> ->]. exists 0. simpl. auto.
Qed.

Lemma shapeMismatch_iff (exp act : list MatchType) :
  shapeMismatch exp act <->
  negb (Nat.eqb (length act) (length exp)) = true \/ firstTypeMismatch exp act <> None.
Proof.
  unfold shapeMismatch.
  destruct (Nat.eqb_spec (length act) (length exp)) as [Hl|Hl]; simpl.
  - destruct (firstTypeMismatch exp act) as [[e a]|] eqn:F.
    + apply firstTypeMismatch_Some in F as (i & ? & ? & ?).
      split; [intros _; right; discriminate|intros _; right; eauto 7].
    + rewrite firstTypeMismatch_None in F. split.
      * intros [H|(i & a & b & Ha & Hb & Hab)]; [contradiction|].
        exfalso. apply Hab. eapply F; eassumption.
      * intros [H|H]; [discriminate|congruence].
  - split; [intros _; left; reflexivity|intros _; left; assumption].
Qed.

(** C2: [AddRule] returns an error exactly when the pattern count or a
    pattern's type disagrees with the tree's types, and then leaves the
    tree as it was; [Search] returns an error exactly when the key count or
    a key's type disagrees. *)
Theorem shape_validation {T} (t : MatchTree T) (rule : MatchRule T) (keys : list MatchKey) :
  ((exists t' e, AddRule t rule = Some (t', Some e))
     <-> shapeMismatch (types t) (map pType (Patterns rule)))
  /\ (forall t' e, AddRule t rule = Some (t', Some e) -> t' = t)
  /\ ((exists vs e, Search t keys = Some (vs, Some e))
     <-> shapeMismatch (types t) (map kType keys)).
Proof.
  rewrite !shapeMismatch_iff, !length_map.
  unfold AddRule, Search.
  split; [|split].
  - destruct (negb _) eqn:L.
    + split; [intros _; left; reflexivity|intros _; eauto].
    + destruct (firstTypeMismatch _ _) as [[e a]|] eqn:F.
      * split; [intros _; right; discriminate|intros _; eauto].
      * split; [|intros [H|H]; congruence].
        intros (t' & e & H).
        destruct (walkPatterns _ _ _ _ _); discriminate.
  - intros t' e. destruct (negb _).
    + congruence.
    + destruct (firstTypeMismatch _ _) as [[x a]|].
      * congruence.
      * destruct (walkPatterns _ _ _ _ _); discriminate.
  - destruct (negb _) eqn:L.
    + split; [intros _; left; reflexivity|intros _; eauto].
    + destruct (firstTypeMismatch _ _) as [[e a]|] eqn:F.
      * split; [intros _; right; discriminate|intros _; eauto].
      * split; [|intros [H|H]; congruence].
        intros (vs & e & H).
        destruct (searchNodes _ _ _) as [[|n ns]|]; simpl in H; try discriminate.
        destruct (extractValues _ _); discriminate.
Qed.

Lemma forEach_unchanged {T A} (f : A -> MatchTree T -> option (MatchTree T)) vs t :
  (forall v t, f v t = Some t) -> forEach f vs t = Some t.
Proof.
  intros Hf. induction vs as [|v vs IH]; simpl; [reflexivity|].
  rewrite Hf. exact IH.
Qed.

Lemma cloneWith_nil {A} (eqb : A -> A -> bool) clone : cloneWith eqb clone [] = clone.
Proof. reflexivity. Qed.

Lemma walkPatterns_empty_pattern {T} (rest pre : list MatchPattern) vi prio (t : MatchTree T) p :
  In p rest -> structurallyEmpty p -> Forall (fun q => pType q <> MatchNone) rest ->
  walkPatterns pre rest vi prio t = Some t.
Proof.
  revert pre t. induction rest as [|q rest IH]; intros pre t Hin He Hty; [destruct Hin|].
  inversion Hty as [|? ? Hq Hrest]; subst.
  destruct Hin as [->|Hin].
  - destruct He as (Ha & Hi & Hc). simpl. rewrite Ha, Hi.
    unfold patternValueCount in Hc.
    destruct (pType p); try contradiction;
      apply length_zero_iff_nil in Hc; rewrite Hc; reflexivity.
  - simpl. destruct (IsAny q); [apply IH; assumption|].
    destruct (IsInverse q); [apply IH; assumption|].
    destruct (pType q); try contradiction;
      apply forEach_unchanged; intros; apply IH; assumption.
Qed.

(** C7 (as stated it fails): [AddRule] has no options parameter, and a rule
    with an empty String pattern is found by no key. *)
Lemma empty_pattern_not_wildcard :
  searchAfter [MatchString] emptyPatternRules [stringKey "k"] = Some ([], None).
Proof. vm_compute. reflexivity. Qed.

(** C7 (amended): [AddRule] takes the tree and the rule only; when the rule
    is well-shaped and one of its patterns is structurally empty, the call
    appends the value and inserts no tree path, so the rule matches no key. *)
Theorem AddRule_empty_pattern {T} (t : MatchTree T) (rule : MatchRule T) p :
  MatchNone ∉ types t ->
  map pType (Patterns rule) = types t ->
  In p (Patterns rule) -> structurallyEmpty p ->
  AddRule t rule
  = Some (mkMatchTree (types t) (values t ++ [Value rule]) (root t) (nodes t), None).
Proof.
  intros Hnone Hty Hin He. unfold AddRule.
  rewrite <- Hty, length_map, Nat.eqb_refl. simpl.
  assert (firstTypeMismatch (map pType (Patterns rule)) (map pType (Patterns rule)) = None)
    as -> by (apply firstTypeMismatch_None; congruence).
  rewrite (walkPatterns_empty_pattern _ _ _ _ _ (clonePattern p)); [reflexivity| | |].
  - apply in_map. assumption.
  - destruct He as (Ha & Hi & Hc). unfold structurallyEmpty, clonePattern; simpl.
    split; [assumption|split; [assumption|]].
    unfold patternValueCount in *; simpl.
    destruct (pType p); try reflexivity;
      apply length_zero_iff_nil in Hc; rewrite Hc; reflexivity.
  - apply Forall_forall. intros q Hq. apply list_elem_of_In, in_map_iff in Hq as (q0 & <- & Hq0).
    simpl. intros Heq. apply Hnone. rewrite <- Hty.
    apply list_elem_of_In. rewrite <- Heq. apply in_map. assumption.
Qed.

Lemma AddRule_empty_pattern_witness :
  AddRule (emptyTree [MatchString]) (mkMatchRule [emptyStringPattern] "E" 0)
  = Some (mkMatchTree [MatchString] ["E"] None [], None).
Proof.
  apply (AddRule_empty_pattern (emptyTree [MatchString]) (mkMatchRule [emptyStringPattern] "E" 0)
           emptyStringPattern).
  - simpl. apply not_elem_of_cons. split; [discriminate|apply not_elem_of_nil].
  - reflexivity.
  - left. reflexivity.
  - split; [reflexivity|split; reflexivity].
Defined.

Lemma forEach_app {T A} (f : A -> MatchTree T -> option (MatchTree T)) l1 l2 t :
  forEach f (l1 ++ l2) t = (t' ← forEach f l1 t; forEach f l2 t').
Proof.
  revert t; induction l1 as [|x l1 IH]; intros t; simpl; [reflexivity|].
  destruct (f x t); simpl; [apply IH|reflexivity].
Qed.

Lemma forEach_map {T A B} (f : B -> MatchTree T -> option (MatchTree T)) (g : A -> B) l t :
  forEach f (map g l) t = forEach (fun x => f (g x)) l t.
Proof.
  revert t; induction l as [|x l IH]; intros t; simpl; [reflexivity|].
  destruct (f (g x) t); simpl; [apply IH|reflexivity].
Qed.

Lemma forEach_flat_map {T A B} (f : B -> MatchTree T -> option (MatchTree T))
    (g : A -> list B) l t :
  forEach f (flat_map g l) t = forEach (fun x => forEach f (g x)) l t.
Proof.
  revert t; induction l as [|x l IH]; intros t; simpl; [reflexivity|].
  rewrite forEach_app. destruct (forEach f (g x) t); simpl; [apply IH|reflexivity].
Qed.

Lemma forEach_ext {T A} (f g : A -> MatchTree T -> option (MatchTree T)) l t :
  (forall x t, f x t = g x t) -> forEach f l t = forEach g l t.
Proof.
  intros H. revert t; induction l as [|x l IH]; intros t; simpl; [reflexivity|].
  rewrite H. destruct (g x t); simpl; [apply IH|reflexivity].
Qed.

Lemma walkPatterns_cartesian {T} (rest pre : list MatchPattern) vi prio (t : MatchTree T) :
  Forall (fun q => pType q <> MatchNone) rest ->
  walkPatterns pre rest vi prio t
  = forEach (fun ps t => doAddRule t (pre ++ ps) vi prio) (cartesianExpansion rest) t.
Proof.
  revert pre t. induction rest as [|q rest IH]; intros pre t Hty.
  - simpl. rewrite app_nil_r. destruct (doAddRule t pre vi prio); reflexivity.
  - inversion Hty as [|? ? Hq Hrest]; subst. simpl.
    rewrite forEach_flat_map. unfold expandPattern.
    assert (Hcons : forall h (t : MatchTree T), walkPatterns (pre ++ [h]) rest vi prio t
              = forEach (fun ps (t : MatchTree T) => doAddRule t (pre ++ ps) vi prio)
                        (map (cons h) (cartesianExpansion rest)) t).
    { intros h t'. rewrite IH by assumption. rewrite forEach_map.
      apply forEach_ext. intros ps t''. rewrite <- app_assoc. reflexivity. }
    destruct (IsAny q); [simpl; rewrite Hcons; destruct (forEach _ _ _); reflexivity|].
    destruct (IsInverse q); [simpl; rewrite Hcons; destruct (forEach _ _ _); reflexivity|].
    destruct (pType q); try contradiction;
      rewrite forEach_map; apply forEach_ext; intros; apply Hcons.
Qed.

Lemma doAddRule_adds_result {T} (t t' : MatchTree T) ps vi prio :
  doAddRule t ps vi prio = Some t' ->
  exists leaf rs, nodes t' !! leaf = Some (matchNodeOfNone rs)
                  /\ mkMatchResult vi prio ∈ rs.
Proof.
  unfold doAddRule. destruct (getOrInsertRoot _ _) as [r t1].
  destruct (match ps with [] => _ | _ => _ end) as [[leaf s]|]; simpl; [|discriminate].
  unfold AddResult. destruct (s !! leaf) as [nd|] eqn:Hl; simpl; [|discriminate].
  destruct nd as [rs| | | |]; try discriminate.
  intros [= <-]. simpl. exists leaf, (rs ++ [mkMatchResult vi prio]).
  split.
  - apply list_lookup_insert_eq. apply lookup_lt_is_Some. eauto.
  - apply elem_of_app. right. apply list_elem_of_singleton. reflexivity.
Qed.

Lemma cloned_types_not_none {T} (t : MatchTree T) (ps : list MatchPattern) :
  MatchNone ∉ types t -> map pType ps = types t ->
  Forall (fun q => pType q <> MatchNone) (map clonePattern ps).
Proof.
  intros Hnone Hty. apply Forall_forall. intros q Hq.
  apply list_elem_of_In, in_map_iff in Hq as (q0 & <- & Hq0).
  simpl. intros Heq. apply Hnone. rewrite <- Hty.
  apply list_elem_of_In. rewrite <- Heq. apply in_map. assumption.
Qed.

Lemma AddRule_well_shaped {T} (t : MatchTree T) (rule : MatchRule T) :
  map pType (Patterns rule) = types t ->
  AddRule t rule
  = (t2 ← walkPatterns [] (map clonePattern (Patterns rule)) (length (values t))
            (RulePriority rule)
            (mkMatchTree (types t) (values t ++ [Value rule]) (root t) (nodes t));
     Some (t2, None)).
Proof.
  intros Hty. unfold AddRule.
  rewrite <- Hty, length_map, Nat.eqb_refl. simpl.
  assert (firstTypeMismatch (map pType (Patterns rule)) (map pType (Patterns rule)) = None)
    as -> by (apply firstTypeMismatch_None; congruence).
  rewrite Hty. reflexivity.
Qed.

(** C8: a well-shaped rule is inserted as one [doAddRule] path per element of
    the cartesian product of its (deduplicated, cloned) patterns' value sets,
    in order, each with the rule's value index and priority; every such
    insertion leaves that result in a terminal node; and in a [String; Integer]
    tree the rule {"a","b"} x {1,2} -> "V" is found for (a,1), (a,2), (b,1),
    (b,2) and not for (c,1). *)
Theorem AddRule_cartesian_expansion :
  (forall T (t : MatchTree T) (rule : MatchRule T),
     MatchNone ∉ types t -> map pType (Patterns rule) = types t ->
     AddRule t rule
     = (t2 ← forEach (fun ps t' => doAddRule t' ps (length (values t)) (RulePriority rule))
                     (cartesianExpansion (map clonePattern (Patterns rule)))
                     (mkMatchTree (types t) (values t ++ [Value rule]) (root t) (nodes t));
        Some (t2, None))) /\
  (forall T (t t' : MatchTree T) ps vi prio,
     doAddRule t ps vi prio = Some t' ->
     exists leaf rs, nodes t' !! leaf = Some (matchNodeOfNone rs)
                     /\ mkMatchResult vi prio ∈ rs) /\
  (forall s z, (s, z) ∈ [("a", 1%Z); ("a", 2%Z); ("b", 1%Z); ("b", 2%Z)] ->
     searchAfter [MatchString; MatchInteger] cartesianRules [stringKey s; integerKey z]
     = Some (["V"], None)) /\
  searchAfter [MatchString; MatchInteger] cartesianRules [stringKey "c"; integerKey 1]
  = Some ([], None).
Proof.
  split; [|split; [|split]].
  - intros T t rule Hnone Hty. rewrite AddRule_well_shaped by assumption.
    rewrite walkPatterns_cartesian by (eapply cloned_types_not_none; eassumption).
    reflexivity.
  - intros T t t' ps vi prio. apply doAddRule_adds_result.
  - intros s z Hin. repeat (apply elem_of_cons in Hin as [Hin|Hin];
      [injection Hin as -> ->; vm_compute; reflexivity|]).
    apply not_elem_of_nil in Hin. contradiction.
  - vm_compute. reflexivity.
Qed.

(** *** Allocation and terminal nodes along an insertion *)

Lemma getOrInsertInverseChild_alloc {K Idx} (lk : Idx -> K -> list nat) ad ics idx vs fresh
    c ics' idx' :
  getOrInsertInverseChild lk ad ics idx vs fresh = Some (c, ics', idx', true) -> c = fresh.
Proof.
  unfold getOrInsertInverseChild.
  destruct (countRefs _ _ _ _); simpl; [|discriminate].
  destruct (findReusable _ _ _ _) as [[g|]|]; simpl; try discriminate.
  - destruct (ics !! g); simpl; discriminate.
  - intros H; injection H as <- _ _; reflexivity.
Qed.

Lemma MapNode_GetOrInsertChild_alloc {K} `{Countable K} (n : MapNode.t K) a i vs cur fresh c n' :
  MapNode.GetOrInsertChild n a i vs cur fresh = Some (c, n', true) -> c = fresh.
Proof.
  unfold MapNode.GetOrInsertChild.
  destruct a; [destruct (MapNode.anyChild n); intros H1; injection H1; congruence|].
  destruct i.
  - destruct (getOrInsertInverseChild _ _ _ _ _ _) as [[[[c0 ics] idx] al]|] eqn:E;
      simpl; [|discriminate].
    intros H1; injection H1 as -> _ ->. eapply getOrInsertInverseChild_alloc; eassumption.
  - destruct (MapNode.children n !! cur); intros H1; injection H1; congruence.
Qed.

Lemma ListNode_GetOrInsertChild_alloc {I} eqv (n : ListNode.t I) a i vs cur fresh c n' :
  ListNode.GetOrInsertChild eqv n a i vs cur fresh = Some (c, n', true) -> c = fresh.
Proof.
  unfold ListNode.GetOrInsertChild.
  destruct a; [destruct (ListNode.anyChild n); intros H1; injection H1; congruence|].
  destruct i.
  - destruct (getOrInsertInverseChild _ _ _ _ _ _) as [[[[c0 ics] idx] al]|] eqn:E;
      simpl; [|discriminate].
    intros H1; injection H1 as -> _ ->. eapply getOrInsertInverseChild_alloc; eassumption.
  - destruct (indexFunc _ _).
    + destruct (ListNode.children n !! _); simpl; [intros H1; injection H1; congruence|discriminate].
    + intros H1; injection H1; congruence.
Qed.

Lemma nodeGetOrInsertChild_spec nd p fresh c nd' a :
  nodeGetOrInsertChild nd p fresh = Some (c, nd', a) ->
  (forall rs, nd <> matchNodeOfNone rs) /\ (forall rs, nd' <> matchNodeOfNone rs) /\
  (a = true -> c = fresh).
Proof.
  destruct nd as [rs0|n|n|n|n]; simpl; [discriminate| | | |].
  all: match goal with
       | |- context [MapNode.GetOrInsertChild ?n ?x ?y ?z ?w ?f] =>
           destruct (MapNode.GetOrInsertChild n x y z w f) as [[[c0 n0] a0]|] eqn:E
       | |- context [ListNode.GetOrInsertChild ?e ?n ?x ?y ?z ?w ?f] =>
           destruct (ListNode.GetOrInsertChild e n x y z w f) as [[[c0 n0] a0]|] eqn:E
       end; simpl; [|discriminate].
  all: intros H1; injection H1 as <- <- <-; split; [discriminate|split; [discriminate|]].
  all: intros ->; first [eapply MapNode_GetOrInsertChild_alloc; eassumption
                        | eapply ListNode_GetOrInsertChild_alloc; eassumption].
Qed.

Lemma GetOrInsertChild_terminals s id p ty c s' :
  GetOrInsertChild s id p ty = Some (c, s') ->
  (forall i rs, s !! i = Some (matchNodeOfNone rs) -> s' !! i = Some (matchNodeOfNone rs)) /\
  (forall i rs, s' !! i = Some (matchNodeOfNone rs) ->
     s !! i = Some (matchNodeOfNone rs) \/ (ty = MatchNone /\ i = c /\ rs = [])).
Proof.
  unfold GetOrInsertChild.
  destruct (s !! id) as [nd|] eqn:Hid; simpl; [|discriminate].
  destruct (nodeGetOrInsertChild nd p (length s)) as [[[c0 nd'] al]|] eqn:Hn;
    simpl; [|discriminate].
  apply nodeGetOrInsertChild_spec in Hn as (Hnd & Hnd' & Hc).
  assert (Hlt : id < length s) by (apply lookup_lt_Some in Hid; assumption).
  assert (Hold : forall i rs, s !! i = Some (matchNodeOfNone rs) ->
                 <[id := nd']> s !! i = Some (matchNodeOfNone rs)).
  { intros i rs Hi. destruct (decide (i = id)) as [->|Hne].
    - rewrite Hid in Hi. injection Hi as Hi. exfalso; exact (Hnd rs Hi).
    - rewrite list_lookup_insert_ne by congruence. assumption. }
  assert (Hback : forall i rs, <[id := nd']> s !! i = Some (matchNodeOfNone rs) ->
                  s !! i = Some (matchNodeOfNone rs)).
  { intros i rs Hi. destruct (decide (i = id)) as [->|Hne].
    - rewrite list_lookup_insert_eq in Hi by assumption. injection Hi as Hi.
      exfalso; exact (Hnd' rs Hi).
    - rewrite list_lookup_insert_ne in Hi by congruence. assumption. }
  destruct al; intros H1; injection H1 as <- <-.
  - split.
    + intros i rs Hi. rewrite lookup_app_l by (rewrite length_insert;
        apply lookup_lt_Some in Hi; assumption). auto.
    + intros i rs Hi. rewrite lookup_app in Hi.
      destruct (<[id := nd']> s !! i) eqn:E.
      * injection Hi as ->. left; auto.
      * apply lookup_ge_None in E. rewrite length_insert in E.
        apply list_lookup_singleton_Some in Hi as [Hi0 Hty]. rewrite length_insert in Hi0.
        right. specialize (Hc eq_refl). subst c0.
        destruct ty; try discriminate. simpl in Hty. injection Hty as <-.
        split; [reflexivity|split; [lia|reflexivity]].
  - split; [exact Hold|]. intros i rs Hi. left; auto.
Qed.

Lemma walkPath_terminals (ps : list MatchPattern) s node lp leaf s' :
  Forall (fun q => pType q <> MatchNone) ps ->
  walkPath s node lp ps = Some (leaf, s') ->
  (forall i rs, s !! i = Some (matchNodeOfNone rs) -> s' !! i = Some (matchNodeOfNone rs)) /\
  (forall i rs, s' !! i = Some (matchNodeOfNone rs) ->
     s !! i = Some (matchNodeOfNone rs) \/ (i = leaf /\ rs = [])).
Proof.
  revert s node lp. induction ps as [|q ps IH]; intros s node lp Hty; simpl.
  - intros H. apply GetOrInsertChild_terminals in H as [H1 H2].
    split; [exact H1|]. intros i rs Hi. destruct (H2 i rs Hi) as [?|(_ & ? & ?)]; auto.
  - inversion Hty as [|? ? Hq Hps]; subst.
    destruct (GetOrInsertChild s node lp (pType q)) as [[c s1]|] eqn:E; simpl; [|discriminate].
    intros H. apply GetOrInsertChild_terminals in E as [E1 E2].
    destruct (IH s1 c q Hps H) as [I1 I2]. split; [auto|].
    intros i rs Hi. destruct (I2 i rs Hi) as [Hs1|?]; [|auto].
    destruct (E2 i rs Hs1) as [?|(? & _)]; [auto|contradiction].
Qed.

Lemma nodesGrow_trans res s1 s2 s3 :
  nodesGrow res s1 s2 -> nodesGrow res s2 s3 -> nodesGrow res s1 s3.
Proof.
  intros [A1 B1] [A2 B2]. split.
  - intros i rs Hi. destruct (A1 i rs Hi) as (rs1 & H1 & F1).
    destruct (A2 i _ H1) as (rs2 & H2 & F2).
    exists (rs1 ++ rs2). rewrite app_assoc. split; [assumption|].
    apply Forall_app; split; assumption.
  - intros i rs Hi. destruct (B2 i rs Hi) as [(rs0 & rs' & H2 & -> & F2)|[Hne F]].
    + destruct (B1 i rs0 H2) as [(rs00 & rs'' & H1 & -> & F1)|[Hne0 F0]].
      * left. exists rs00, (rs'' ++ rs'). rewrite app_assoc.
        split; [assumption|split; [reflexivity|apply Forall_app; split; assumption]].
      * right. split; [destruct rs0; [contradiction|discriminate]|].
        apply Forall_app; split; assumption.
    + right. split; assumption.
Qed.

Lemma nodesGrow_refl res s : nodesGrow res s s.
Proof.
  split.
  - intros i rs Hi. exists []. rewrite app_nil_r. split; [assumption|constructor].
  - intros i rs Hi. left. exists rs, []. rewrite app_nil_r.
    split; [assumption|split; [reflexivity|constructor]].
Qed.

Lemma doAddRule_grows {T} (t t' : MatchTree T) ps vi prio :
  Forall (fun q => pType q <> MatchNone) ps ->
  doAddRule t ps vi prio = Some t' ->
  types t' = types t /\ values t' = values t /\
  nodesGrow (mkMatchResult vi prio) (nodes t) (nodes t').
Proof.
  intros Hty. unfold doAddRule.
  (* the root, and the terminal nodes it may add *)
  assert (Hroot : forall ty, (ps = [] \/ ty <> MatchNone) ->
            let '(r, t1) := getOrInsertRoot t ty in
            types t1 = types t /\ values t1 = values t /\
            (forall i rs, nodes t !! i = Some (matchNodeOfNone rs) ->
                          nodes t1 !! i = Some (matchNodeOfNone rs)) /\
            (forall i rs, nodes t1 !! i = Some (matchNodeOfNone rs) ->
                          nodes t !! i = Some (matchNodeOfNone rs) \/
                          (ps = [] /\ i = r /\ rs = []))).
  { intros ty Hps. unfold getOrInsertRoot. destruct (root t) as [r|]; simpl.
    - split; [reflexivity|split; [reflexivity|split; [auto|auto]]].
    - split; [reflexivity|split; [reflexivity|split]].
      + intros i rs Hi. rewrite lookup_app_l by (apply lookup_lt_Some in Hi; assumption).
        assumption.
      + intros i rs Hi. rewrite lookup_app in Hi.
        destruct (nodes t !! i) eqn:E; [left; assumption|].
        apply lookup_ge_None in E. apply list_lookup_singleton_Some in Hi as [Hi0 Hn].
        destruct Hps as [Hps|Hps]; [|destruct ty; try contradiction; discriminate].
        right. destruct ty; try discriminate. simpl in Hn. injection Hn as <-.
        split; [assumption|split; [lia|reflexivity]]. }
  specialize (Hroot (match ps with p :: _ => pType p | [] => MatchNone end)).
  destruct (getOrInsertRoot t _) as [r t1].
  destruct (Hroot ltac:(destruct ps as [|p ps']; [left; reflexivity|right;
                        inversion Hty; assumption])) as (Ht1 & Hv1 & R1 & R2).
  clear Hroot.
  (* the path to the leaf *)
  assert (Hpath : forall leaf s,
            match ps with [] => Some (r, nodes t1) | p :: ps' => walkPath (nodes t1) r p ps' end
            = Some (leaf, s) ->
            (forall i rs, nodes t !! i = Some (matchNodeOfNone rs) ->
                          s !! i = Some (matchNodeOfNone rs)) /\
            (forall i rs, s !! i = Some (matchNodeOfNone rs) ->
                          nodes t !! i = Some (matchNodeOfNone rs) \/ (i = leaf /\ rs = []))).
  { intros leaf s Hw. destruct ps as [|p ps'].
    - injection Hw as <- <-. split; [assumption|].
      intros i rs Hi. destruct (R2 i rs Hi) as [?|(_ & ? & ?)]; auto.
    - inversion Hty as [|? ? _ Hps']; subst.
      apply walkPath_terminals in Hw as [W1 W2]; [|assumption].
      split; [auto|]. intros i rs Hi. destruct (W2 i rs Hi) as [Hs|?]; [|auto].
      destruct (R2 i rs Hs) as [?|(? & _)]; [auto|discriminate]. }
  destruct (match ps with [] => _ | _ => _ end) as [[leaf s]|]; simpl; [|discriminate].
  destruct (Hpath leaf s eq_refl) as [P1 P2]. clear Hpath.
  unfold AddResult. destruct (s !! leaf) as [nd|] eqn:Hl; simpl; [|discriminate].
  destruct nd as [rs0| | | |]; try discriminate.
  intros H1; injection H1 as <-. simpl.
  split; [assumption|split; [assumption|]].
  assert (Hlt : leaf < length s) by (apply lookup_lt_Some in Hl; assumption).
  split.
  - intros i rs Hi. specialize (P1 i rs Hi). destruct (decide (i = leaf)) as [->|Hne].
    + rewrite Hl in P1. injection P1 as ->. exists [mkMatchResult vi prio].
      rewrite list_lookup_insert_eq by assumption. split; [reflexivity|repeat constructor].
    + exists []. rewrite list_lookup_insert_ne, app_nil_r by congruence.
      split; [assumption|constructor].
  - intros i rs Hi. destruct (decide (i = leaf)) as [->|Hne].
    + rewrite list_lookup_insert_eq in Hi by assumption. injection Hi as <-.
      destruct (P2 leaf rs0 Hl) as [Ho|(_ & ->)].
      * left. exists rs0, [mkMatchResult vi prio].
        split; [assumption|split; [reflexivity|repeat constructor]].
      * right. split; [discriminate|repeat constructor].
    + rewrite list_lookup_insert_ne in Hi by congruence.
      destruct (P2 i rs Hi) as [Ho|(? & _)]; [|contradiction].
      left. exists rs, []. rewrite app_nil_r. split; [assumption|split; [reflexivity|constructor]].
Qed.

Lemma forEach_grows {T A} res (f : A -> MatchTree T -> option (MatchTree T)) l t t' :
  (forall x t1 t2, In x l -> f x t1 = Some t2 -> treeGrows res t1 t2) ->
  forEach f l t = Some t' -> treeGrows res t t'.
Proof.
  revert t. induction l as [|x l IH]; intros t Hf; simpl.
  - intros H; injection H as <-. split; [reflexivity|split; [reflexivity|apply nodesGrow_refl]].
  - destruct (f x t) as [t1|] eqn:E; simpl; [|discriminate]. intros H.
    destruct (Hf x t t1 (or_introl eq_refl) E) as (A1 & B1 & C1).
    destruct (IH t1 (fun y t3 t4 Hy => Hf y t3 t4 (or_intror Hy)) H) as (A2 & B2 & C2).
    split; [congruence|split; [congruence|eapply nodesGrow_trans; eassumption]].
Qed.

Lemma walkPatterns_grows {T} (rest pre : list MatchPattern) vi prio (t t' : MatchTree T) :
  Forall (fun q => pType q <> MatchNone) pre ->
  Forall (fun q => pType q <> MatchNone) rest ->
  walkPatterns pre rest vi prio t = Some t' -> treeGrows (mkMatchResult vi prio) t t'.
Proof.
  revert pre t t'. induction rest as [|q rest IH]; intros pre t t' Hpre Hrest; simpl.
  - intros H. apply doAddRule_grows in H; assumption.
  - inversion Hrest as [|? ? Hq Hrest']; subst.
    assert (Hnext : forall q' (t1 t2 : MatchTree T), pType q' = pType q ->
              walkPatterns (pre ++ [q']) rest vi prio t1 = Some t2 ->
              treeGrows (mkMatchResult vi prio) t1 t2).
    { intros q' t1 t2 Hq' H. eapply IH; [|eassumption|eassumption].
      apply Forall_app; split; [assumption|constructor; [congruence|constructor]]. }
    destruct (IsAny q); [apply Hnext; reflexivity|].
    destruct (IsInverse q); [apply Hnext; reflexivity|].
    destruct (pType q) eqn:Ety; try contradiction;
      apply forEach_grows; intros v t1 t2 _; apply Hnext; simpl; assumption.
Qed.

Lemma AddRule_grows {T} (t t' : MatchTree T) rule e :
  MatchNone ∉ types t ->
  AddRule t rule = Some (t', e) ->
  (e <> None /\ t' = t) \/
  (e = None /\ types t' = types t /\ values t' = values t ++ [Value rule] /\
   nodesGrow (mkMatchResult (length (values t)) (RulePriority rule)) (nodes t) (nodes t')).
Proof.
  intros Hnone. unfold AddRule.
  destruct (negb _) eqn:Hlen; [intros H; injection H as <- <-; left; split; [discriminate|reflexivity]|].
  destruct (firstTypeMismatch _ _) as [[x y]|] eqn:Hm;
    [intros H; injection H as <- <-; left; split; [discriminate|reflexivity]|].
  destruct (walkPatterns _ _ _ _ _) as [t2|] eqn:Hw; simpl; [|discriminate].
  intros H; injection H as <- <-. right.
  apply walkPatterns_grows in Hw as (A & B & C); [|constructor|].
  - simpl in A, B. split; [reflexivity|split; [assumption|split; [assumption|exact C]]].
  - assert (Hty : map pType (Patterns rule) = types t).
    { apply negb_false_iff, Nat.eqb_eq in Hlen.
      apply (list_eq_same_length _ _ (length (types t))); [reflexivity|rewrite length_map; lia|].
      intros i a b _ Ha Hb. symmetry. eapply firstTypeMismatch_None; eassumption. }
    eapply cloned_types_not_none; [exact Hnone|exact Hty].
Qed.

Lemma reachable_wf {T} (t : MatchTree T) :
  reachable t -> (MatchNone ∉ types t) /\ resultsWF t.
Proof.
  induction 1 as [tys t Hnew|t rule t' e Hr [Hnone Hwf] Hadd].
  - unfold NewMatchTree in Hnew. destruct (decide (MatchNone ∈ tys)); [discriminate|].
    injection Hnew as <-. split; [assumption|]. intros i rs Hi. simpl in Hi.
    rewrite lookup_nil in Hi. discriminate.
  - destruct (AddRule_grows t t' rule e Hnone Hadd)
      as [[_ ->]|(_ & Hty & Hv & _ & Hg)]; [split; assumption|].
    split; [rewrite Hty; assumption|].
    intros i rs Hi. rewrite Hv, length_app. simpl.
    destruct (Hg i rs Hi) as [(rs0 & rs' & H0 & -> & F)|[Hne F]].
    + destruct (Hwf i rs0 H0) as [Hne0 F0]. split; [destruct rs0; [contradiction|discriminate]|].
      apply Forall_app; split.
      * eapply Forall_impl; [exact F0|]. intros r Hr'. simpl in Hr'. lia.
      * eapply Forall_impl; [exact F|]. intros r <-. simpl. lia.
    + split; [assumption|]. eapply Forall_impl; [exact F|]. intros r <-. simpl. lia.
Qed.

Lemma reachable_cartesianTree : reachable cartesianTree.
Proof.
  apply (reachable_add (emptyTree [MatchString; MatchInteger]) (hd (mkMatchRule [] "V" 0) cartesianRules)
           cartesianTree None).
  - apply (reachable_new [MatchString; MatchInteger]). vm_compute. reflexivity.
  - vm_compute. reflexivity.
Qed.

(** C9: in every reachable tree each stored result indexes into the value
    table; an [AddRule] call only appends to the value table (the rule's
    value when it succeeds, nothing when it reports an error), keeps every
    stored result, and adds only results carrying the next value index
    [length (values t)], which no stored result carries: indices are handed
    out in increasing insertion order and never reused. *)
Theorem value_index_invariant {T} (t : MatchTree T) :
  reachable t ->
  (forall i rs r, nodes t !! i = Some (matchNodeOfNone rs) -> r ∈ rs ->
     ValueIndex r < length (values t)) /\
  (forall rule t' e, AddRule t rule = Some (t', e) ->
     values t' = values t ++ (if e then [] else [Value rule]) /\
     (forall i rs, nodes t !! i = Some (matchNodeOfNone rs) ->
        exists rs', nodes t' !! i = Some (matchNodeOfNone (rs ++ rs'))) /\
     (forall i rs r, nodes t' !! i = Some (matchNodeOfNone rs) -> r ∈ rs ->
        (exists rs0, nodes t !! i = Some (matchNodeOfNone rs0) /\ r ∈ rs0) \/
        (e = None /\ r = mkMatchResult (length (values t)) (RulePriority rule)))).
Proof.
  intros Hr. destruct (reachable_wf t Hr) as [Hnone Hwf]. split.
  - intros i rs r Hi Hin. destruct (Hwf i rs Hi) as [_ F].
    rewrite Forall_forall in F. apply F. assumption.
  - intros rule t' e Hadd.
    destruct (AddRule_grows t t' rule e Hnone Hadd) as [[He ->]|(-> & _ & Hv & [G1 G2])].
    + destruct e; [|contradiction]. rewrite app_nil_r.
      split; [reflexivity|split].
      * intros i rs Hi. exists []. rewrite app_nil_r. assumption.
      * intros i rs r Hi Hin. left. exists rs. split; assumption.
    + split; [assumption|split].
      * intros i rs Hi. destruct (G1 i rs Hi) as (rs' & H' & _). exists rs'. assumption.
      * intros i rs r Hi Hin. destruct (G2 i rs Hi) as [(rs0 & rs' & H0 & -> & F)|[_ F]].
        -- apply elem_of_app in Hin as [Hin|Hin].
           ++ left. exists rs0. split; assumption.
           ++ right. rewrite Forall_forall in F. split; [reflexivity|symmetry; apply F; assumption].
        -- right. rewrite Forall_forall in F. split; [reflexivity|symmetry; apply F; assumption].
Qed.

Lemma value_index_invariant_witness :
  reachable cartesianTree /\
  (forall i rs r, nodes cartesianTree !! i = Some (matchNodeOfNone rs) -> r ∈ rs ->
     ValueIndex r < length (values cartesianTree)).
Proof.
  split; [exact reachable_cartesianTree|].
  exact (proj1 (value_index_invariant cartesianTree reachable_cartesianTree)).
Defined.

Lemma GetResults_terminal (s : arena) n rs :
  GetResults s n = Some rs -> s !! n = Some (matchNodeOfNone rs).
Proof.
  unfold GetResults. destruct (s !! n) as [[rs0| | | |]|]; simpl; try discriminate.
  intros H; injection H as <-. reflexivity.
Qed.

Lemma sum_one_single (rss : list (list matchResult)) :
  Forall (fun rs => rs <> []) rss -> sum_list_with length rss = 1 ->
  exists r, rss = [[r]].
Proof.
  destruct rss as [|rs rss]; simpl; [discriminate|]. intros F Hs.
  inversion F as [|? ? Hne Frest]; subst.
  destruct rs as [|r [|r' rs]]; [contradiction| |simpl in Hs; lia].
  destruct rss as [|rs2 rss]; [exists r; reflexivity|].
  inversion Frest as [|? ? Hne2 _]; subst. simpl in Hs.
  destruct rs2; [contradiction|simpl in Hs; lia].
Qed.

(** C10: in every reachable tree every terminal node holds a result; so when
    the terminal nodes a search reached hold one result in total, there is one
    such node, with one result, and the fast path of [extractValues] returns
    that result's value (it neither reads an empty result list nor indexes
    out of the value table). *)
Theorem terminal_nodes_nonempty {T} (t : MatchTree T) :
  reachable t ->
  (forall i rs, nodes t !! i = Some (matchNodeOfNone rs) -> rs <> []) /\
  (forall ns rss, mapM (GetResults (nodes t)) ns = Some rss ->
     sum_list_with length rss = 1 ->
     exists n r v, ns = [n] /\ rss = [[r]] /\ values t !! ValueIndex r = Some v /\
                   extractValues t ns = Some [v]).
Proof.
  intros Hr. destruct (reachable_wf t Hr) as [_ Hwf].
  assert (Hne : forall i rs, nodes t !! i = Some (matchNodeOfNone rs) -> rs <> [])
    by (intros i rs Hi; apply (Hwf i rs Hi)).
  split; [exact Hne|].
  intros ns rss Hm Hs.
  pose proof Hm as Hf. apply mapM_Some in Hf.
  assert (F : Forall (fun rs => rs <> []) rss).
  { clear Hm Hs. induction Hf as [|n rs ns' rss' Hn _ IH]; constructor; [|exact IH].
    apply GetResults_terminal in Hn. eapply Hne; eassumption. }
  destruct (sum_one_single rss F Hs) as [r ->].
  inversion Hf as [|n rs ns' rss' Hn Hrest]; subst.
  inversion Hrest; subst.
  apply GetResults_terminal in Hn.
  destruct (Hwf n [r] Hn) as [_ Fr]. inversion Fr as [|? ? Hlt _]; subst.
  destruct (lookup_lt_is_Some_2 (values t) (ValueIndex r) Hlt) as [v Hv].
  exists n, r, v. split; [reflexivity|split; [reflexivity|split; [assumption|]]].
  unfold extractValues. rewrite Hm. simpl. rewrite Hv. reflexivity.
Qed.

Lemma terminal_nodes_nonempty_witness :
  reachable cartesianTree /\
  (forall i rs, nodes cartesianTree !! i = Some (matchNodeOfNone rs) -> rs <> []).
Proof.
  split; [exact reachable_cartesianTree|].
  exact (proj1 (terminal_nodes_nonempty cartesianTree reachable_cartesianTree)).
Defined.


(** *** The reuse rule of inverse groups *)

Lemma findFirst_Some f i n g :
  findFirst f i n = Some g ->
  i <= g < i + n /\ f g = true /\ forall k, i <= k < g -> f k = false.
Proof.
  revert i. induction n as [|n IH]; intros i; simpl; [discriminate|].
  destruct (f i) eqn:Hf.
  - intros H; injection H as <-. split; [lia|split; [assumption|intros; lia]].
  - intros H. destruct (IH (S i) H) as (Hr & Hg & Hk). split; [lia|split; [assumption|]].
    intros k Hki. destruct (decide (k = i)) as [->|Hne]; [assumption|apply Hk; lia].
Qed.

Lemma findFirst_None f i n :
  findFirst f i n = None -> forall k, i <= k < i + n -> f k = false.
Proof.
  revert i. induction n as [|n IH]; intros i; simpl; [intros _ k; lia|].
  destruct (f i) eqn:Hf; [discriminate|]. intros H k Hk.
  destruct (decide (k = i)) as [->|Hne]; [assumption|apply (IH (S i) H); lia].
Qed.

Lemma findFirst_char f i n g :
  i <= g < i + n -> f g = true -> (forall k, i <= k < g -> f k = false) ->
  findFirst f i n = Some g.
Proof.
  revert i. induction n as [|n IH]; intros i Hg Hfg Hk; simpl; [lia|].
  destruct (decide (g = i)) as [->|Hne]; [rewrite Hfg; reflexivity|].
  rewrite (Hk i ltac:(lia)). apply IH; [lia|assumption|intros; apply Hk; lia].
Qed.

Lemma findFirst_ext f f' i n :
  (forall k, f k = f' k) -> findFirst f i n = findFirst f' i n.
Proof.
  intros H. revert i. induction n as [|n IH]; intros i; simpl; [reflexivity|].
  rewrite H, IH. reflexivity.
Qed.

Lemma findFirst_prefix f f' n n' g :
  findFirst f 0 n = Some g -> (forall k, k <= g -> f' k = f k) -> n <= n' ->
  findFirst f' 0 n' = Some g.
Proof.
  intros H Hk Hn. apply findFirst_Some in H as (Hr & Hg & Hlt).
  apply findFirst_char; [lia|rewrite Hk; [assumption|lia]|].
  intros k Hkg. rewrite Hk by lia. apply Hlt. assumption.
Qed.

Lemma sum_list_with_perm {A} (f : A -> nat) l l' :
  Permutation l l' -> sum_list_with f l = sum_list_with f l'.
Proof. induction 1; simpl; lia. Qed.

Lemma sum_list_with_Forall_ext {A} (f g : A -> nat) l :
  Forall (fun x => f x = g x) l -> sum_list_with f l = sum_list_with g l.
Proof. induction 1; simpl; congruence. Qed.

Section InverseGroupFacts.
Context {K Idx : Type}.
Variable lookupIdx : Idx -> K -> list nat.
Variable addIdx : Idx -> K -> nat -> Idx.
Variable eqb : K -> K -> bool.

Lemma incrAll_spec cis rcs :
  Forall (fun g => g < length rcs) cis ->
  exists rcs', incrAll cis rcs = Some rcs' /\ length rcs' = length rcs /\
    forall g, rcs' !! g = (fun c => c + count_occ Nat.eq_dec cis g) <$> rcs !! g.
Proof.
  revert rcs. induction cis as [|ci cis IH]; intros rcs Hc; simpl.
  - exists rcs. split; [reflexivity|split; [reflexivity|]].
    intros g. destruct (rcs !! g); simpl; [rewrite Nat.add_0_r|]; reflexivity.
  - inversion Hc as [|? ? Hci Hcis]; subst.
    unfold incrAt. destruct (lookup_lt_is_Some_2 rcs ci Hci) as [c Hc0]. rewrite Hc0. simpl.
    destruct (IH (<[ci := S c]> rcs)) as (rcs' & H1 & H2 & H3);
      [rewrite length_insert; assumption|].
    exists rcs'. split; [assumption|split; [rewrite H2, length_insert; reflexivity|]].
    intros g. rewrite H3. destruct (decide (ci = g)) as [->|Hne].
    + rewrite list_lookup_insert_eq by assumption. rewrite Hc0. simpl.
      destruct (Nat.eq_dec g g); [|contradiction]. f_equal. lia.
    + rewrite list_lookup_insert_ne by assumption.
      destruct (Nat.eq_dec ci g); [contradiction|reflexivity].
Qed.

Lemma countRefs_spec idx E rcs :
  wfIdx lookupIdx idx (length rcs) ->
  exists rcs', countRefs lookupIdx idx E rcs = Some rcs' /\ length rcs' = length rcs /\
    forall g, rcs' !! g = (fun c => c + refCount lookupIdx idx E g) <$> rcs !! g.
Proof.
  unfold refCount. revert rcs. induction E as [|v E IH]; intros rcs Hwf; simpl.
  - exists rcs. split; [reflexivity|split; [reflexivity|]].
    intros g. destruct (rcs !! g); simpl; [rewrite Nat.add_0_r|]; reflexivity.
  - destruct (incrAll_spec (lookupIdx idx v) rcs (Hwf v)) as (r1 & E1 & L1 & G1).
    rewrite E1. simpl.
    destruct (IH r1) as (r2 & E2 & L2 & G2); [rewrite L1; assumption|].
    exists r2. split; [assumption|split; [congruence|]].
    intros g. rewrite G2, G1. destruct (rcs !! g); simpl; [f_equal; lia|reflexivity].
Qed.

Lemma findReusable_spec ics m (R : nat -> nat) rcs i :
  (forall k c, rcs !! k = Some c -> c = R (i + k)) -> i + length rcs = length ics ->
  findReusable ics m i rcs
  = Some (findFirst (fun g => Nat.eqb (R g) m && Nat.eqb (maxAt ics g) m) i (length rcs)).
Proof.
  revert i. induction rcs as [|rc rcs IH]; intros i HR Hlen; simpl; [reflexivity|].
  assert (Hrc : rc = R i) by (rewrite (HR 0 rc eq_refl); f_equal; lia).
  simpl in Hlen. assert (Hi : i < length ics) by lia.
  destruct (lookup_lt_is_Some_2 ics i Hi) as [ic Hic].
  assert (IH' : findReusable ics m (S i) rcs = Some (findFirst
                  (fun g => Nat.eqb (R g) m && Nat.eqb (maxAt ics g) m) (S i) (length rcs))).
  { apply IH; [|lia]. intros k c Hk. rewrite (HR (S k) c Hk). f_equal. lia. }
  replace (maxAt ics i) with (MaxRefCount ic) by (unfold maxAt; rewrite Hic; reflexivity).
  subst rc. destruct (Nat.eqb (R i) m); simpl; [|exact IH'].
  rewrite Hic. simpl. destruct (Nat.eqb (MaxRefCount ic) m); [reflexivity|exact IH'].
Qed.

(** [GetOrInsertChild]'s inverse branch is the spec's rule, whenever the
    reverse index names only existing groups. *)
Lemma getOrInsertInverseChild_spec ics idx E fresh :
  wfIdx lookupIdx idx (length ics) ->
  getOrInsertInverseChild lookupIdx addIdx ics idx E fresh
  = inverseChildSpec lookupIdx addIdx ics idx E fresh.
Proof.
  intros Hwf. unfold getOrInsertInverseChild, inverseChildSpec.
  destruct (countRefs_spec idx E (replicate (length ics) 0)) as (rcs & E1 & L1 & G1);
    [rewrite length_replicate; assumption|].
  rewrite E1. simpl. rewrite length_replicate in L1.
  rewrite (findReusable_spec ics (length E) (refCount lookupIdx idx E) rcs 0); [|intros k c Hk|lia].
  - simpl. rewrite L1. unfold groupMatch. reflexivity.
  - rewrite G1 in Hk.
    destruct (decide (k < length ics)) as [Hlt|Hge].
    + rewrite lookup_replicate_2 in Hk by assumption.
      simpl in Hk. injection Hk as <-. reflexivity.
    + rewrite (proj1 (lookup_replicate_None _ _ _)) in Hk; [discriminate|lia].
Qed.
End InverseGroupFacts.

Section InverseGroupSharing.
Context {K Idx : Type}.
Variable lookupIdx : Idx -> K -> list nat.
Variable addIdx : Idx -> K -> nat -> Idx.
Variable eqb : K -> K -> bool.
(** Adding [h] under [v] lists it for exactly the values [eqb]-equal to [v]. *)
Hypothesis lookup_addIdx : forall idx v h v',
  lookupIdx (addIdx idx v h) v' = lookupIdx idx v' ++ (if eqb v v' then [h] else []).
Hypothesis eqb_refl : forall v, eqb v v = true.

Lemma lookup_addAll idx E h v :
  lookupIdx (addAll addIdx idx E h) v
  = lookupIdx idx v ++ flat_map (fun u => if eqb u v then [h] else []) E.
Proof.
  unfold addAll. revert idx. induction E as [|u E IH]; intros idx; simpl.
  - rewrite app_nil_r. reflexivity.
  - rewrite IH, lookup_addIdx, app_assoc. reflexivity.
Qed.

Lemma count_added_other E v h g :
  g <> h -> count_occ Nat.eq_dec (flat_map (fun u => if eqb u v then [h] else []) E) g = 0.
Proof.
  intros Hne. induction E as [|u E IH]; simpl; [reflexivity|].
  rewrite count_occ_app, IH. destruct (eqb u v); simpl; [|reflexivity].
  destruct (Nat.eq_dec h g); [congruence|reflexivity].
Qed.

Lemma refCount_addAll_other idx E' h E g :
  g <> h -> refCount lookupIdx (addAll addIdx idx E' h) E g = refCount lookupIdx idx E g.
Proof.
  intros Hne. unfold refCount. apply sum_list_with_Forall_ext, Forall_forall.
  intros v _. rewrite lookup_addAll, count_occ_app, count_added_other by assumption. lia.
Qed.

Lemma count_added_distinct (E : list K) h :
  distinctBy eqb E ->
  sum_list_with (fun v => count_occ Nat.eq_dec
                   (flat_map (fun u => if eqb u v then [h] else []) E) h) E = length E.
Proof.
  induction E as [|v0 E IH]; simpl; [reflexivity|]. intros [Hd Hrest].
  rewrite count_occ_app, eqb_refl. simpl. destruct (Nat.eq_dec h h); [|contradiction].
  assert (H0 : count_occ Nat.eq_dec (flat_map (fun u => if eqb u v0 then [h] else []) E) h = 0).
  { clear IH Hrest. induction Hd as [|u E [_ Hu] _ IHd]; simpl; [reflexivity|].
    rewrite count_occ_app, Hu, IHd. reflexivity. }
  rewrite H0. f_equal. rewrite <- (IH Hrest).
  apply sum_list_with_Forall_ext. eapply Forall_impl; [exact Hd|].
  intros u [Hu _]. rewrite count_occ_app, Hu. reflexivity.
Qed.

Lemma refCount_new idx E h :
  wfIdx lookupIdx idx h -> distinctBy eqb E ->
  refCount lookupIdx (addAll addIdx idx E h) E h = length E.
Proof.
  intros Hwf Hd. unfold refCount. rewrite <- (count_added_distinct E h Hd).
  apply sum_list_with_Forall_ext, Forall_forall. intros v _.
  rewrite lookup_addAll, count_occ_app.
  assert (count_occ Nat.eq_dec (lookupIdx idx v) h = 0) as ->; [|reflexivity].
  apply count_occ_not_In. intros Hin. specialize (Hwf v).
  rewrite Forall_forall in Hwf. specialize (Hwf h (proj2 (list_elem_of_In _ _) Hin)). lia.
Qed.

Lemma wfIdx_step ics idx E fresh c ics' idx' a :
  wfIdx lookupIdx idx (length ics) ->
  getOrInsertInverseChild lookupIdx addIdx ics idx E fresh = Some (c, ics', idx', a) ->
  wfIdx lookupIdx idx' (length ics').
Proof.
  intros Hwf. rewrite getOrInsertInverseChild_spec by assumption. unfold inverseChildSpec.
  destruct (findFirst _ _ _) as [g|].
  - destruct (ics !! g); simpl; [|discriminate]. intros H; injection H as _ <- <- _. assumption.
  - intros H; injection H as _ <- <- _. intros v. rewrite lookup_addAll, length_app. simpl.
    apply Forall_app. split.
    + eapply Forall_impl; [apply Hwf|]. simpl. lia.
    + apply Forall_forall. intros g Hg. apply list_elem_of_In, in_flat_map in Hg as (u & _ & Hu).
      destruct (eqb u v); [destruct Hu as [<-|[]]; lia|destruct Hu].
Qed.

Lemma groupMatch_new_other ics idx E' fresh E g :
  g < length ics ->
  groupMatch lookupIdx (ics ++ [{| MatchNode := fresh; MaxRefCount := length E' |}])
    (addAll addIdx idx E' (length ics)) E g
  = groupMatch lookupIdx ics idx E g.
Proof.
  intros Hg. unfold groupMatch, maxAt.
  rewrite refCount_addAll_other by lia. rewrite lookup_app_l by assumption. reflexivity.
Qed.

(** After an insertion of [E], the child returned is that of the first group
    matching [E]. *)
Lemma first_match_after_insert ics idx E fresh c ics' idx' a :
  wfIdx lookupIdx idx (length ics) -> distinctBy eqb E ->
  getOrInsertInverseChild lookupIdx addIdx ics idx E fresh = Some (c, ics', idx', a) ->
  exists g ic, findFirst (groupMatch lookupIdx ics' idx' E) 0 (length ics') = Some g /\
               ics' !! g = Some ic /\ MatchNode ic = c.
Proof.
  intros Hwf Hd. rewrite getOrInsertInverseChild_spec by assumption. unfold inverseChildSpec.
  destruct (findFirst _ _ _) as [g|] eqn:Hf.
  - destruct (ics !! g) as [ic|] eqn:Hic; simpl; [|discriminate].
    intros H; injection H as <- <- <- _. exists g, ic. split; [assumption|split; [assumption|reflexivity]].
  - intros H; injection H as <- <- <- _.
    exists (length ics), {| MatchNode := fresh; MaxRefCount := length E |}.
    split; [|split; [rewrite lookup_app_r, Nat.sub_diag by lia; reflexivity|reflexivity]].
    apply findFirst_char; [rewrite length_app; simpl; lia| |].
    + unfold groupMatch, maxAt. rewrite refCount_new by assumption.
      rewrite lookup_app_r, Nat.sub_diag by lia. simpl. rewrite !Nat.eqb_refl. reflexivity.
    + intros k Hk. rewrite groupMatch_new_other by lia.
      apply (findFirst_None _ 0 (length ics) Hf). lia.
Qed.

(** An insertion of any other list keeps the first group matching [E]. *)
Lemma first_match_step ics idx E g ic E' fresh c ics' idx' a :
  wfIdx lookupIdx idx (length ics) ->
  findFirst (groupMatch lookupIdx ics idx E) 0 (length ics) = Some g -> ics !! g = Some ic ->
  getOrInsertInverseChild lookupIdx addIdx ics idx E' fresh = Some (c, ics', idx', a) ->
  findFirst (groupMatch lookupIdx ics' idx' E) 0 (length ics') = Some g /\ ics' !! g = Some ic.
Proof.
  intros Hwf Hf Hic. rewrite getOrInsertInverseChild_spec by assumption. unfold inverseChildSpec.
  destruct (findFirst (groupMatch lookupIdx ics idx E') 0 (length ics)) as [g'|].
  - destruct (ics !! g'); simpl; [|discriminate]. intros H; injection H as _ <- <- _. auto.
  - intros H; injection H as _ <- <- _.
    pose proof (findFirst_Some _ _ _ _ Hf) as (Hr & _ & _).
    split.
    + eapply findFirst_prefix; [exact Hf| |rewrite length_app; lia].
      intros k Hk. apply groupMatch_new_other. lia.
    + rewrite lookup_app_l by lia. assumption.
Qed.

Lemma first_match_steps st st' E g ic :
  invSteps lookupIdx addIdx st st' ->
  wfIdx lookupIdx st.2 (length st.1) ->
  findFirst (groupMatch lookupIdx st.1 st.2 E) 0 (length st.1) = Some g -> st.1 !! g = Some ic ->
  wfIdx lookupIdx st'.2 (length st'.1) /\
  findFirst (groupMatch lookupIdx st'.1 st'.2 E) 0 (length st'.1) = Some g /\ st'.1 !! g = Some ic.
Proof.
  induction 1 as [st|ics idx E' fresh c ics' idx' a st Hstep _ IH]; simpl; [auto|].
  intros Hwf Hf Hic. destruct (first_match_step _ _ _ _ _ _ _ _ _ _ _ Hwf Hf Hic Hstep) as [Hf' Hic'].
  apply IH; simpl; [|assumption|assumption]. eapply wfIdx_step; eassumption.
Qed.

Lemma reuse_first_match ics idx E E' g ic fresh :
  wfIdx lookupIdx idx (length ics) -> Permutation E' E ->
  findFirst (groupMatch lookupIdx ics idx E) 0 (length ics) = Some g -> ics !! g = Some ic ->
  getOrInsertInverseChild lookupIdx addIdx ics idx E' fresh = Some (MatchNode ic, ics, idx, false).
Proof.
  intros Hwf Hp Hf Hic. rewrite getOrInsertInverseChild_spec by assumption. unfold inverseChildSpec.
  rewrite (findFirst_ext _ (groupMatch lookupIdx ics idx E)), Hf, Hic; [reflexivity|].
  intros k. unfold groupMatch, refCount. rewrite (Permutation_length Hp).
  rewrite (sum_list_with_perm _ _ _ Hp). reflexivity.
Qed.

(** Two insertions of the same deduplicated exclusion list, up to order,
    with any inverse insertions between them, return the same child, and the
    second changes nothing. *)
Lemma inverse_sharing ics idx E E' fresh1 fresh2 c1 ics1 idx1 a1 ics2 idx2 c2 ics3 idx3 a2 :
  wfIdx lookupIdx idx (length ics) -> distinctBy eqb E -> Permutation E' E ->
  getOrInsertInverseChild lookupIdx addIdx ics idx E fresh1 = Some (c1, ics1, idx1, a1) ->
  invSteps lookupIdx addIdx (ics1, idx1) (ics2, idx2) ->
  getOrInsertInverseChild lookupIdx addIdx ics2 idx2 E' fresh2 = Some (c2, ics3, idx3, a2) ->
  c2 = c1 /\ a2 = false /\ ics3 = ics2 /\ idx3 = idx2.
Proof.
  intros Hwf Hd Hp H1 Hs H2.
  destruct (first_match_after_insert _ _ _ _ _ _ _ _ Hwf Hd H1) as (g & ic & Hf & Hic & <-).
  assert (Hwf1 : wfIdx lookupIdx idx1 (length ics1)) by (eapply wfIdx_step; eassumption).
  destruct (first_match_steps _ _ E g ic Hs Hwf1 Hf Hic) as (Hwf2 & Hf2 & Hic2).
  simpl in Hwf2, Hf2, Hic2.
  rewrite (reuse_first_match _ _ E E' g ic fresh2 Hwf2 Hp Hf2 Hic2) in H2.
  injection H2 as <- <- <- <-. auto.
Qed.
End InverseGroupSharing.

(** *** The reverse indexes of the node kinds *)

Lemma IntegerInterval_Equals_bounds i j :
  IntegerInterval.Equals i j = bool_decide (integerIntervalBounds i = integerIntervalBounds j).
Proof.
  destruct i as [[a|] ea [b|] eb], j as [[a'|] ea' [b'|] eb'];
    unfold IntegerInterval.Equals, integerIntervalBounds; simpl;
    repeat case_bool_decide; try congruence; simpl;
    repeat match goal with
           | |- context [Z.eqb ?x ?y] => destruct (Z.eqb_spec x y)
           | |- context [Bool.eqb ?x ?y] => destruct (Bool.eqb_spec x y)
           end; simpl; subst; try congruence; reflexivity.
Qed.

Lemma IntegerInterval_Equals_refl i : IntegerInterval.Equals i i = true.
Proof. rewrite IntegerInterval_Equals_bounds. apply bool_decide_eq_true_2. reflexivity. Qed.

Lemma IntegerInterval_Equals_sym i j : IntegerInterval.Equals i j = IntegerInterval.Equals j i.
Proof.
  rewrite !IntegerInterval_Equals_bounds. apply bool_decide_ext. split; congruence.
Qed.

Lemma IntegerInterval_Equals_trans i j k :
  IntegerInterval.Equals i j = true -> IntegerInterval.Equals j k = true ->
  IntegerInterval.Equals i k = true.
Proof.
  rewrite !IntegerInterval_Equals_bounds, !bool_decide_eq_true. congruence.
Qed.

Lemma MapNode_lookup_addIdx {K} `{Countable K} (m : gmap K (list nat)) v h v' :
  MapNode.lookupIdx (MapNode.addIdx m v h) v'
  = MapNode.lookupIdx m v' ++ (if bool_decide (v = v') then [h] else []).
Proof.
  unfold MapNode.addIdx, MapNode.lookupIdx. case_bool_decide as Hv.
  - subst. rewrite lookup_insert_eq. reflexivity.
  - rewrite lookup_insert_ne by assumption. rewrite app_nil_r. reflexivity.
Qed.

Lemma indexFunc_ext {A} (f g : A -> bool) l :
  (forall x, f x = g x) -> indexFunc f l = indexFunc g l.
Proof. intros H. induction l as [|x l IH]; simpl; [reflexivity|]. rewrite H, IH. reflexivity. Qed.

Lemma indexFunc_Some {A} (f : A -> bool) l i :
  indexFunc f l = Some i -> exists x, l !! i = Some x /\ f x = true.
Proof.
  revert i. induction l as [|x l IH]; intros i; simpl; [discriminate|].
  destruct (f x) eqn:Hf.
  - intros H; injection H as <-. exists x. split; [reflexivity|assumption].
  - destruct (indexFunc f l) as [j|] eqn:Hj; simpl; [|discriminate].
    intros H; injection H as <-. apply IH. reflexivity.
Qed.

Lemma indexFunc_lt {A} (f : A -> bool) l i : indexFunc f l = Some i -> i < length l.
Proof.
  intros H. apply indexFunc_Some in H as (x & Hx & _). apply lookup_lt_Some in Hx. assumption.
Qed.

Lemma indexFunc_alter {A} (f : A -> bool) (g : A -> A) i l :
  (forall x, f (g x) = f x) -> indexFunc f (alter g i l) = indexFunc f l.
Proof.
  intros Hg. revert i. induction l as [|x l IH]; intros [|i]; simpl; try reflexivity.
  - rewrite Hg. reflexivity.
  - destruct (f x); [reflexivity|]. specialize (IH i). simpl in IH. change (list_alter g i l) with (alter g i l). rewrite IH. reflexivity.
Qed.

Lemma indexFunc_snoc {A} (f : A -> bool) l x :
  indexFunc f (l ++ [x])
  = match indexFunc f l with
    | Some i => Some i
    | None => if f x then Some (length l) else None
    end.
Proof.
  induction l as [|y l IH]; simpl; [destruct (f x); reflexivity|].
  destruct (f y); [reflexivity|]. rewrite IH.
  destruct (indexFunc f l); simpl; [reflexivity|]. destruct (f x); reflexivity.
Qed.

Section ListNodeIndex.
Context {I : Type}.
Variable Equals : I -> I -> bool.

(** For any [Equals], adding [h] under [v] adds nothing but [h] to a lookup. *)
Lemma ListNode_lookup_addIdx_incl idx v h v' g :
  g ∈ ListNode.lookupIdx Equals (ListNode.addIdx Equals idx v h) v' ->
  g ∈ ListNode.lookupIdx Equals idx v' \/ g = h.
Proof.
  unfold ListNode.addIdx, ListNode.lookupIdx.
  destruct (indexFunc (fun x => Equals x.1 v) idx) as [i|] eqn:Hi.
  - rewrite indexFunc_alter by reflexivity.
    destruct (indexFunc (fun x => Equals x.1 v') idx) as [j|]; [|intros Hg; left; exact Hg].
    destruct (decide (i = j)) as [<-|Hne].
    + rewrite list_lookup_alter_eq. destruct (idx !! i) as [e|]; simpl; [|intros Hg; left; exact Hg].
      intros Hg. apply elem_of_app in Hg as [Hg|Hg]; [left; exact Hg|].
      right. apply list_elem_of_singleton in Hg. assumption.
    + rewrite list_lookup_alter_ne by assumption. intros Hg; left; exact Hg.
  - rewrite indexFunc_snoc.
    destruct (indexFunc (fun x => Equals x.1 v') idx) as [j|] eqn:Hj.
    + rewrite lookup_app_l by (eapply indexFunc_lt; eassumption). intros Hg; left; exact Hg.
    + destruct (Equals (v, [h]).1 v'); simpl; [|intros Hg; left; exact Hg].
      rewrite lookup_app_r, Nat.sub_diag by lia. simpl.
      intros Hg. right. apply list_elem_of_singleton in Hg. assumption.
Qed.

Hypothesis Equals_refl : forall v, Equals v v = true.
Hypothesis Equals_sym : forall u v, Equals u v = Equals v u.
Hypothesis Equals_trans : forall u v w, Equals u v = true -> Equals v w = true -> Equals u w = true.

Lemma Equals_congr v v' : Equals v v' = true -> forall x, Equals x v = Equals x v'.
Proof.
  intros Hv x. destruct (Equals x v) eqn:E1, (Equals x v') eqn:E2; try reflexivity.
  - rewrite (Equals_trans _ _ _ E1 Hv) in E2. discriminate.
  - rewrite Equals_sym in Hv. rewrite (Equals_trans _ _ _ E2 Hv) in E1. discriminate.
Qed.

(** For an equivalence [Equals], adding [h] under [v] lists it for exactly
    the values equal to [v]. *)
Lemma ListNode_lookup_addIdx idx v h v' :
  ListNode.lookupIdx Equals (ListNode.addIdx Equals idx v h) v'
  = ListNode.lookupIdx Equals idx v' ++ (if Equals v v' then [h] else []).
Proof.
  unfold ListNode.addIdx, ListNode.lookupIdx.
  destruct (Equals v v') eqn:Hvv'.
  - assert (Hf : forall l : list (I * list nat), indexFunc (fun x => Equals x.1 v') l
                   = indexFunc (fun x => Equals x.1 v) l)
      by (intros l; apply indexFunc_ext; intros x; symmetry; apply Equals_congr; assumption).
    rewrite !Hf.
    destruct (indexFunc (fun x => Equals x.1 v) idx) as [i|] eqn:Hi.
    + rewrite indexFunc_alter, Hi by reflexivity. rewrite list_lookup_alter_eq.
      destruct (idx !! i) eqn:He; [reflexivity|].
      apply indexFunc_lt in Hi. apply lookup_ge_None in He. lia.
    + rewrite indexFunc_snoc, Hi. simpl. rewrite Equals_refl.
      rewrite lookup_app_r, Nat.sub_diag by lia. reflexivity.
  - rewrite app_nil_r.
    destruct (indexFunc (fun x => Equals x.1 v) idx) as [i|] eqn:Hi.
    + rewrite indexFunc_alter by reflexivity.
      destruct (indexFunc (fun x => Equals x.1 v') idx) as [j|] eqn:Hj; [|reflexivity].
      rewrite list_lookup_alter_ne; [reflexivity|].
      intros <-. apply indexFunc_Some in Hi as (e & He & E1).
      apply indexFunc_Some in Hj as (e' & He' & E2). rewrite He in He'. injection He' as <-.
      rewrite Equals_sym in E1. rewrite (Equals_trans _ _ _ E1 E2) in Hvv'. discriminate.
    + rewrite indexFunc_snoc. simpl. rewrite Hvv'.
      destruct (indexFunc (fun x => Equals x.1 v') idx) as [j|] eqn:Hj; [|reflexivity].
      rewrite lookup_app_l by (eapply indexFunc_lt; eassumption). reflexivity.
Qed.
End ListNodeIndex.

Section IndexWellFormed.
Context {K Idx : Type}.
Variable lookupIdx : Idx -> K -> list nat.
Variable addIdx : Idx -> K -> nat -> Idx.
Hypothesis lookup_addIdx_incl : forall idx v h v' g,
  g ∈ lookupIdx (addIdx idx v h) v' -> g ∈ lookupIdx idx v' \/ g = h.

Lemma lookup_addAll_incl idx E h v g :
  g ∈ lookupIdx (addAll addIdx idx E h) v -> g ∈ lookupIdx idx v \/ g = h.
Proof.
  unfold addAll. revert idx. induction E as [|u E IH]; intros idx; simpl; [auto|].
  intros Hg. destruct (IH _ Hg) as [Hg'|]; [|auto].
  apply lookup_addIdx_incl in Hg'. assumption.
Qed.

(** Every insertion keeps the reverse index naming only existing groups. *)
Lemma wfIdx_preserved ics idx E fresh c ics' idx' a :
  wfIdx lookupIdx idx (length ics) ->
  getOrInsertInverseChild lookupIdx addIdx ics idx E fresh = Some (c, ics', idx', a) ->
  wfIdx lookupIdx idx' (length ics').
Proof.
  intros Hwf. rewrite getOrInsertInverseChild_spec by assumption. unfold inverseChildSpec.
  destruct (findFirst _ _ _) as [g|].
  - destruct (ics !! g); simpl; [|discriminate]. intros H; injection H as _ <- <- _. assumption.
  - intros H; injection H as _ <- <- _. intros v. apply Forall_forall. intros g Hg.
    rewrite length_app. simpl.
    destruct (lookup_addAll_incl _ _ _ _ _ Hg) as [Hg' | ->]; [|lia].
    specialize (Hwf v). rewrite Forall_forall in Hwf. specialize (Hwf g Hg'). lia.
Qed.

Lemma wfIdx_invSteps st st' :
  invSteps lookupIdx addIdx st st' -> wfIdx lookupIdx st.2 (length st.1) ->
  wfIdx lookupIdx st'.2 (length st'.1).
Proof.
  induction 1 as [|ics idx E fresh c ics' idx' a st Hs _ IH]; simpl; [auto|].
  intros Hwf. apply IH. simpl. eapply wfIdx_preserved; eassumption.
Qed.
End IndexWellFormed.

Lemma MapNode_lookupIdx_incl {K} `{Countable K} (m : gmap K (list nat)) v h v' g :
  g ∈ MapNode.lookupIdx (MapNode.addIdx m v h) v' -> g ∈ MapNode.lookupIdx m v' \/ g = h.
Proof.
  rewrite MapNode_lookup_addIdx. intros Hg. apply elem_of_app in Hg as [Hg|Hg]; [auto|].
  case_bool_decide; [right; apply list_elem_of_singleton; assumption|apply not_elem_of_nil in Hg; contradiction].
Qed.

Lemma distinctBy_snoc {A} (eqb : A -> A -> bool) l v :
  distinctBy eqb l -> Forall (fun u => eqb v u = false /\ eqb u v = false) l ->
  distinctBy eqb (l ++ [v]).
Proof.
  induction l as [|u l IH]; simpl; [intros _ _; split; [constructor|exact I]|].
  intros [Hu Hl] Hv. inversion Hv as [|? ? [H1 H2] Hv']; subst.
  split; [|apply IH; assumption].
  apply Forall_app. split; [assumption|constructor; [split; assumption|constructor]].
Qed.

(** What [cloneWith] returns has no two [eqb]-equal elements. *)
Lemma cloneWith_distinct {A} (eqb : A -> A -> bool) clone s :
  (forall u v, eqb u v = eqb v u) ->
  distinctBy eqb clone -> distinctBy eqb (cloneWith eqb clone s).
Proof.
  intros Hsym. revert clone. induction s as [|v s IH]; intros clone Hd; simpl; [assumption|].
  destruct (existsb (eqb v) clone) eqn:Hex; apply IH; [assumption|].
  apply distinctBy_snoc; [assumption|]. apply Forall_forall. intros u Hu.
  assert (eqb v u = false) as Hvu.
  { destruct (eqb v u) eqn:E; [|reflexivity]. rewrite <- Hex. symmetry.
    apply existsb_exists. exists u. split; [apply list_elem_of_In; assumption|assumption]. }
  split; [assumption|rewrite Hsym; assumption].
Qed.

Lemma distinctBy_ext {A} (f g : A -> A -> bool) l :
  (forall u v, f u v = g u v) -> distinctBy f l -> distinctBy g l.
Proof.
  intros Hfg. induction l as [|v l IH]; simpl; [auto|]. intros [Hv Hl].
  split; [|apply IH; assumption].
  eapply Forall_impl; [exact Hv|]. intros u [H1 H2]. rewrite <- !Hfg. split; assumption.
Qed.

(** *** Inverse groups of one node across insertions *)

Lemma MapNode_GetOrInsertChild_cases {K} `{Countable K} (n : MapNode.t K) isAny isInv vs cur
    fresh c n' a :
  MapNode.GetOrInsertChild n isAny isInv vs cur fresh = Some (c, n', a) ->
  (MapNode.inverseChildren n' = MapNode.inverseChildren n /\
   MapNode.inverseChildIndexes n' = MapNode.inverseChildIndexes n) \/
  (isAny = false /\ isInv = true /\
   getOrInsertInverseChild MapNode.lookupIdx MapNode.addIdx (MapNode.inverseChildren n)
     (MapNode.inverseChildIndexes n) vs fresh
   = Some (c, MapNode.inverseChildren n', MapNode.inverseChildIndexes n', a) /\
   n' = MapNode.mk (MapNode.children n) (MapNode.inverseChildren n')
          (MapNode.inverseChildIndexes n') (MapNode.anyChild n)).
Proof.
  unfold MapNode.GetOrInsertChild. destruct isAny.
  { destruct (MapNode.anyChild n); intros H1; injection H1 as <- <- <-; left; auto. }
  destruct isInv.
  - destruct (getOrInsertInverseChild _ _ _ _ _ _) as [[[[c0 ics] idx] al]|] eqn:E;
      simpl; [|discriminate].
    intros H1; injection H1 as <- <- <-. right. simpl. auto.
  - destruct (MapNode.children n !! cur); intros H1; injection H1 as <- <- <-; left; auto.
Qed.

Lemma ListNode_GetOrInsertChild_cases {I} (eqv : I -> I -> bool) (n : ListNode.t I) isAny isInv
    vs cur fresh c n' a :
  ListNode.GetOrInsertChild eqv n isAny isInv vs cur fresh = Some (c, n', a) ->
  (ListNode.inverseChildren n' = ListNode.inverseChildren n /\
   ListNode.inverseChildIndexes n' = ListNode.inverseChildIndexes n) \/
  (isAny = false /\ isInv = true /\
   getOrInsertInverseChild (ListNode.lookupIdx eqv) (ListNode.addIdx eqv)
     (ListNode.inverseChildren n) (ListNode.inverseChildIndexes n) vs fresh
   = Some (c, ListNode.inverseChildren n', ListNode.inverseChildIndexes n', a) /\
   n' = ListNode.mk (ListNode.children n) (ListNode.inverseChildren n')
          (ListNode.inverseChildIndexes n') (ListNode.anyChild n)).
Proof.
  unfold ListNode.GetOrInsertChild. destruct isAny.
  { destruct (ListNode.anyChild n); intros H1; injection H1 as <- <- <-; left; auto. }
  destruct isInv.
  - destruct (getOrInsertInverseChild _ _ _ _ _ _) as [[[[c0 ics] idx] al]|] eqn:E;
      simpl; [|discriminate].
    intros H1; injection H1 as <- <- <-. right. simpl. auto.
  - destruct (indexFunc _ _).
    + destruct (ListNode.children n !! _); simpl; [|discriminate].
      intros H1; injection H1 as <- <- <-; left; auto.
    + intros H1; injection H1 as <- <- <-; left; auto.
Qed.

Section KindSharing.
Context {N K Idx : Type}.
Variable inj : N -> matchNode.
Variable inv : N -> list matchNodeWithRefCount.
Variable ix : N -> Idx.
Variable lk : Idx -> K -> list nat.
Variable ad : Idx -> K -> nat -> Idx.
Variable eqb : K -> K -> bool.
Variable getE : MatchPattern -> list K.
Hypothesis lookup_ad : forall idx v h v',
  lk (ad idx v h) v' = lk idx v' ++ (if eqb v v' then [h] else []).
Hypothesis eqb_refl : forall v, eqb v v = true.
(** A node of the kind stays of the kind; its groups stay or take an
    inverse insertion. *)
Hypothesis node_step : forall n p fresh c nd' a,
  nodeGetOrInsertChild (inj n) p fresh = Some (c, nd', a) ->
  exists n', nd' = inj n' /\
    ((inv n' = inv n /\ ix n' = ix n) \/
     exists E fr c' a', getOrInsertInverseChild lk ad (inv n) (ix n) E fr
                        = Some (c', inv n', ix n', a')).
(** An inverse pattern is an inverse insertion of its value list, and
    changes nothing else. *)
Hypothesis node_inverse : forall n p fresh c nd' a,
  IsAny p = false -> IsInverse p = true ->
  nodeGetOrInsertChild (inj n) p fresh = Some (c, nd', a) ->
  exists n', nd' = inj n' /\
    getOrInsertInverseChild lk ad (inv n) (ix n) (getE p) fresh = Some (c, inv n', ix n', a) /\
    (inv n' = inv n -> ix n' = ix n -> n' = n).

Lemma kind_steps nd nd' :
  nodeSteps nd nd' -> forall n, nd = inj n ->
  exists n', nd' = inj n' /\ invSteps lk ad (inv n, ix n) (inv n', ix n').
Proof.
  induction 1 as [nd|nd p fresh c nd1 a nd'' Hs _ IH]; intros n ->.
  - exists n. split; [reflexivity|constructor].
  - destruct (node_step n p fresh c nd1 a Hs) as (n1 & -> & Hcase).
    destruct (IH n1 eq_refl) as (n' & -> & Hsteps). exists n'. split; [reflexivity|].
    destruct Hcase as [[Hi Hx]|(E & fr & c' & a' & Hg)].
    + rewrite <- Hi, <- Hx. assumption.
    + eapply invSteps_step; eassumption.
Qed.

Lemma kind_sharing n0 nd p p' fresh1 fresh2 c1 nd1 a1 nd2 c2 nd3 a2 :
  wfIdx lk (ix n0) (length (inv n0)) ->
  nodeSteps (inj n0) nd ->
  IsAny p = false -> IsInverse p = true -> IsAny p' = false -> IsInverse p' = true ->
  distinctBy eqb (getE p) -> Permutation (getE p') (getE p) ->
  nodeGetOrInsertChild nd p fresh1 = Some (c1, nd1, a1) ->
  nodeSteps nd1 nd2 ->
  nodeGetOrInsertChild nd2 p' fresh2 = Some (c2, nd3, a2) ->
  c2 = c1 /\ a2 = false /\ nd3 = nd2.
Proof.
  intros Hwf0 Hs0 Ha Hi Ha' Hi' Hd Hp H1 Hs H2.
  assert (Hincl : forall idx v h v' g, g ∈ lk (ad idx v h) v' -> g ∈ lk idx v' \/ g = h).
  { intros idx v h v' g. rewrite lookup_ad. intros Hg.
    apply elem_of_app in Hg as [Hg|Hg]; [auto|]. destruct (eqb v v');
      [right; apply list_elem_of_singleton; assumption|apply not_elem_of_nil in Hg; contradiction]. }
  destruct (kind_steps _ _ Hs0 n0 eq_refl) as (n & -> & Hsn).
  pose proof (wfIdx_invSteps lk ad Hincl _ _ Hsn Hwf0) as Hwf. simpl in Hwf.
  destruct (node_inverse n p fresh1 c1 nd1 a1 Ha Hi H1) as (n1 & -> & G1 & _).
  destruct (kind_steps _ _ Hs n1 eq_refl) as (n2 & -> & Hs12).
  destruct (node_inverse n2 p' fresh2 c2 nd3 a2 Ha' Hi' H2) as (n3 & -> & G2 & Heq).
  destruct (inverse_sharing lk ad eqb lookup_ad eqb_refl _ _ _ _ _ _ _ _ _ _ _ _ _ _ _ _
              Hwf Hd Hp G1 Hs12 G2) as (-> & -> & Hi3 & Hx3).
  rewrite (Heq Hi3 Hx3). auto.
Qed.
End KindSharing.

Ltac node_kind_step :=
  let n := fresh "n" in let p := fresh "p" in let fr := fresh "fr" in
  let c := fresh "c" in let nd' := fresh "nd'" in let a := fresh "a" in
  let H := fresh "H" in let E := fresh "E" in
  intros n p fr c nd' a H; simpl in H;
  match type of H with
  | context [?g] =>
      lazymatch g with
      | MapNode.GetOrInsertChild _ _ _ _ _ _ => idtac
      | ListNode.GetOrInsertChild _ _ _ _ _ _ _ => idtac
      end;
      destruct g as [[[?c0 ?n0] ?a0]|] eqn:E; simpl in H; [|discriminate];
      injection H as <- <- <-; eexists; split; [reflexivity|];
      first [ destruct (MapNode_GetOrInsertChild_cases _ _ _ _ _ _ _ _ _ E)
                as [[? ?]|(_ & _ & ?G & _)]
            | destruct (ListNode_GetOrInsertChild_cases _ _ _ _ _ _ _ _ _ _ E)
                as [[? ?]|(_ & _ & ?G & _)] ];
      [left; split; assumption | right; do 4 eexists; eassumption]
  end.

Ltac node_kind_inverse :=
  let n := fresh "n" in let p := fresh "p" in let fr := fresh "fr" in
  let c := fresh "c" in let nd' := fresh "nd'" in let a := fresh "a" in
  let H := fresh "H" in let G := fresh "G" in let Ha := fresh "Ha" in let Hi := fresh "Hi" in
  intros n p fr c nd' a Ha Hi H; simpl in H;
  unfold MapNode.GetOrInsertChild, ListNode.GetOrInsertChild in H;
  rewrite Ha, Hi in H;
  match type of H with
  | context [getOrInsertInverseChild ?l ?d ?ics ?idx ?E ?f] =>
      destruct (getOrInsertInverseChild l d ics idx E f) as [[[[?c0 ?ics0] ?idx0] ?al]|] eqn:G;
      simpl in H; [|discriminate]; injection H as <- <- <-
  end;
  eexists; split; [reflexivity|]; split; [first [exact G | reflexivity]|];
  simpl; intros -> ->; destruct n; reflexivity.

Lemma String_node_step : forall (n : MapNode.t string) p fresh c nd' a,
  nodeGetOrInsertChild (matchNodeOfString n) p fresh = Some (c, nd', a) ->
  exists n', nd' = matchNodeOfString n' /\
    ((MapNode.inverseChildren n' = MapNode.inverseChildren n /\
      MapNode.inverseChildIndexes n' = MapNode.inverseChildIndexes n) \/
     exists E fr c' a', getOrInsertInverseChild MapNode.lookupIdx MapNode.addIdx
       (MapNode.inverseChildren n) (MapNode.inverseChildIndexes n) E fr
       = Some (c', MapNode.inverseChildren n', MapNode.inverseChildIndexes n', a')).
Proof. node_kind_step. Qed.

Lemma String_node_inverse : forall (n : MapNode.t string) p fresh c nd' a,
  IsAny p = false -> IsInverse p = true ->
  nodeGetOrInsertChild (matchNodeOfString n) p fresh = Some (c, nd', a) ->
  exists n', nd' = matchNodeOfString n' /\
    getOrInsertInverseChild MapNode.lookupIdx MapNode.addIdx (MapNode.inverseChildren n)
      (MapNode.inverseChildIndexes n) (Strings p) fresh
    = Some (c, MapNode.inverseChildren n', MapNode.inverseChildIndexes n', a) /\
    (MapNode.inverseChildren n' = MapNode.inverseChildren n ->
     MapNode.inverseChildIndexes n' = MapNode.inverseChildIndexes n -> n' = n).
Proof. node_kind_inverse. Qed.

Lemma Integer_node_step : forall (n : MapNode.t Z) p fresh c nd' a,
  nodeGetOrInsertChild (matchNodeOfInteger n) p fresh = Some (c, nd', a) ->
  exists n', nd' = matchNodeOfInteger n' /\
    ((MapNode.inverseChildren n' = MapNode.inverseChildren n /\
      MapNode.inverseChildIndexes n' = MapNode.inverseChildIndexes n) \/
     exists E fr c' a', getOrInsertInverseChild MapNode.lookupIdx MapNode.addIdx
       (MapNode.inverseChildren n) (MapNode.inverseChildIndexes n) E fr
       = Some (c', MapNode.inverseChildren n', MapNode.inverseChildIndexes n', a')).
Proof. node_kind_step. Qed.

Lemma Integer_node_inverse : forall (n : MapNode.t Z) p fresh c nd' a,
  IsAny p = false -> IsInverse p = true ->
  nodeGetOrInsertChild (matchNodeOfInteger n) p fresh = Some (c, nd', a) ->
  exists n', nd' = matchNodeOfInteger n' /\
    getOrInsertInverseChild MapNode.lookupIdx MapNode.addIdx (MapNode.inverseChildren n)
      (MapNode.inverseChildIndexes n) (Integers p) fresh
    = Some (c, MapNode.inverseChildren n', MapNode.inverseChildIndexes n', a) /\
    (MapNode.inverseChildren n' = MapNode.inverseChildren n ->
     MapNode.inverseChildIndexes n' = MapNode.inverseChildIndexes n -> n' = n).
Proof. node_kind_inverse. Qed.

Lemma IntegerInterval_node_step : forall (n : ListNode.t IntegerInterval.t) p fresh c nd' a,
  nodeGetOrInsertChild (matchNodeOfIntegerInterval n) p fresh = Some (c, nd', a) ->
  exists n', nd' = matchNodeOfIntegerInterval n' /\
    ((ListNode.inverseChildren n' = ListNode.inverseChildren n /\
      ListNode.inverseChildIndexes n' = ListNode.inverseChildIndexes n) \/
     exists E fr c' a', getOrInsertInverseChild (ListNode.lookupIdx IntegerInterval.Equals)
       (ListNode.addIdx IntegerInterval.Equals)
       (ListNode.inverseChildren n) (ListNode.inverseChildIndexes n) E fr
       = Some (c', ListNode.inverseChildren n', ListNode.inverseChildIndexes n', a')).
Proof. node_kind_step. Qed.

Lemma IntegerInterval_node_inverse : forall (n : ListNode.t IntegerInterval.t) p fresh c nd' a,
  IsAny p = false -> IsInverse p = true ->
  nodeGetOrInsertChild (matchNodeOfIntegerInterval n) p fresh = Some (c, nd', a) ->
  exists n', nd' = matchNodeOfIntegerInterval n' /\
    getOrInsertInverseChild (ListNode.lookupIdx IntegerInterval.Equals)
      (ListNode.addIdx IntegerInterval.Equals) (ListNode.inverseChildren n)
      (ListNode.inverseChildIndexes n) (IntegerIntervals p) fresh
    = Some (c, ListNode.inverseChildren n', ListNode.inverseChildIndexes n', a) /\
    (ListNode.inverseChildren n' = ListNode.inverseChildren n ->
     ListNode.inverseChildIndexes n' = ListNode.inverseChildIndexes n -> n' = n).
Proof. node_kind_inverse. Qed.

Lemma NumberInterval_node_step : forall (n : ListNode.t NumberInterval.t) p fresh c nd' a,
  nodeGetOrInsertChild (matchNodeOfNumberInterval n) p fresh = Some (c, nd', a) ->
  exists n', nd' = matchNodeOfNumberInterval n' /\
    ((ListNode.inverseChildren n' = ListNode.inverseChildren n /\
      ListNode.inverseChildIndexes n' = ListNode.inverseChildIndexes n) \/
     exists E fr c' a', getOrInsertInverseChild (ListNode.lookupIdx NumberInterval.Equals)
       (ListNode.addIdx NumberInterval.Equals)
       (ListNode.inverseChildren n) (ListNode.inverseChildIndexes n) E fr
       = Some (c', ListNode.inverseChildren n', ListNode.inverseChildIndexes n', a')).
Proof. node_kind_step. Qed.

Lemma Zeqb_bool_decide (u v : Z) : Z.eqb u v = bool_decide (u = v).
Proof. destruct (Z.eqb_spec u v); case_bool_decide; congruence. Qed.

Lemma clonePattern_distinct_Strings p :
  clonePattern p = p -> distinctBy (fun a b => bool_decide (a = b)) (Strings p).
Proof.
  intros Hc. rewrite <- Hc. simpl. apply cloneWith_distinct; [|exact I].
  intros u v. apply bool_decide_ext. split; congruence.
Qed.

Lemma clonePattern_distinct_Integers p :
  clonePattern p = p -> distinctBy (fun a b => bool_decide (a = b)) (Integers p).
Proof.
  intros Hc. rewrite <- Hc. simpl. apply (distinctBy_ext Z.eqb); [apply Zeqb_bool_decide|].
  apply cloneWith_distinct; [|exact I].
  intros u v. rewrite !Zeqb_bool_decide. apply bool_decide_ext. split; congruence.
Qed.

Lemma clonePattern_distinct_IntegerIntervals p :
  clonePattern p = p -> distinctBy IntegerInterval.Equals (IntegerIntervals p).
Proof.
  intros Hc. rewrite <- Hc. simpl. apply cloneWith_distinct; [|exact I].
  apply IntegerInterval_Equals_sym.
Qed.

(** Every node grown from a new one keeps its reverse index well formed. *)
Lemma nodeSteps_idx_wf ty nd : nodeSteps (newMatchNode ty) nd -> nodeIdxWF nd.
Proof.
  intros Hs. destruct ty; simpl in Hs.
  - inversion Hs as [|? ? ? ? ? ? ? H]; subst; [exact I|discriminate].
  - destruct (kind_steps _ _ _ _ _ String_node_step _ _ Hs _ eq_refl) as (n' & -> & Hi).
    exact (wfIdx_invSteps _ _ MapNode_lookupIdx_incl _ _ Hi (fun v => Forall_nil_2 _)).
  - destruct (kind_steps _ _ _ _ _ Integer_node_step _ _ Hs _ eq_refl) as (n' & -> & Hi).
    exact (wfIdx_invSteps _ _ MapNode_lookupIdx_incl _ _ Hi (fun v => Forall_nil_2 _)).
  - destruct (kind_steps _ _ _ _ _ IntegerInterval_node_step _ _ Hs _ eq_refl) as (n' & -> & Hi).
    exact (wfIdx_invSteps _ _ (ListNode_lookup_addIdx_incl _) _ _ Hi (fun v => Forall_nil_2 _)).
  - destruct (kind_steps _ _ _ _ _ NumberInterval_node_step _ _ Hs _ eq_refl) as (n' & -> & Hi).
    exact (wfIdx_invSteps _ _ (ListNode_lookup_addIdx_incl _) _ _ Hi (fun v => Forall_nil_2 _)).
Qed.

(** C4. Inserting an inverse pattern with duplicate-free exclusion list [E]
    reuses an existing group's child exactly when some group is excluded by
    [|E|] reverse-index entries of [E] and records [|E|] as its size (the
    first such group is taken; otherwise a group with a new child is
    appended). The reverse index of every node names only existing groups.
    For string, integer and integer-interval nodes, a second inverse pattern
    whose exclusion list is a reordering of the first's, inserted later at the
    same node, gets the same child and allocates nothing. *)
Theorem inverse_group_reuse :
  (forall ty nd, nodeSteps (newMatchNode ty) nd -> nodeIdxWF nd) /\
  (forall (K Idx : Type) (lookupIdx : Idx -> K -> list nat) (addIdx : Idx -> K -> nat -> Idx)
          ics idx E fresh,
     wfIdx lookupIdx idx (length ics) ->
     getOrInsertInverseChild lookupIdx addIdx ics idx E fresh
     = inverseChildSpec lookupIdx addIdx ics idx E fresh) /\
  (forall ty nd p p' fresh1 fresh2 c1 nd1 a1 nd2 c2 nd3 a2,
     nodeSteps (newMatchNode ty) nd ->
     IsAny p = false -> IsInverse p = true -> IsAny p' = false -> IsInverse p' = true ->
     clonePattern p = p -> sameExclusions ty p p' ->
     nodeGetOrInsertChild nd p fresh1 = Some (c1, nd1, a1) ->
     nodeSteps nd1 nd2 ->
     nodeGetOrInsertChild nd2 p' fresh2 = Some (c2, nd3, a2) ->
     c2 = c1 /\ a2 = false /\ nd3 = nd2).
Proof.
  split; [exact nodeSteps_idx_wf|]. split.
  { intros K Idx lookupIdx addIdx. apply getOrInsertInverseChild_spec. }
  intros ty nd p p' fresh1 fresh2 c1 nd1 a1 nd2 c2 nd3 a2 Hs Ha Hi Ha' Hi' Hc Hp.
  destruct ty; simpl in Hp, Hs; try contradiction.
  - eapply (kind_sharing matchNodeOfString MapNode.inverseChildren MapNode.inverseChildIndexes
              MapNode.lookupIdx MapNode.addIdx (fun a b => bool_decide (a = b)) Strings
              MapNode_lookup_addIdx (fun v => bool_decide_eq_true_2 _ eq_refl)
              String_node_step String_node_inverse MapNode.empty);
      eauto using clonePattern_distinct_Strings.
    intros v. apply Forall_nil_2.
  - eapply (kind_sharing matchNodeOfInteger MapNode.inverseChildren MapNode.inverseChildIndexes
              MapNode.lookupIdx MapNode.addIdx (fun a b => bool_decide (a = b)) Integers
              MapNode_lookup_addIdx (fun v => bool_decide_eq_true_2 _ eq_refl)
              Integer_node_step Integer_node_inverse MapNode.empty);
      eauto using clonePattern_distinct_Integers.
    intros v. apply Forall_nil_2.
  - eapply (kind_sharing matchNodeOfIntegerInterval ListNode.inverseChildren
              ListNode.inverseChildIndexes (ListNode.lookupIdx IntegerInterval.Equals)
              (ListNode.addIdx IntegerInterval.Equals) IntegerInterval.Equals IntegerIntervals
              (ListNode_lookup_addIdx _ IntegerInterval_Equals_refl IntegerInterval_Equals_sym
                 IntegerInterval_Equals_trans)
              IntegerInterval_Equals_refl
              IntegerInterval_node_step IntegerInterval_node_inverse ListNode.empty);
      eauto using clonePattern_distinct_IntegerIntervals.
    intros v. apply Forall_nil_2.
Qed.

(** C4, number-interval nodes. The intervals [a] and [c] are each [Equals]
    to [b] but not to each other. After a rule excluding [{b}], two rules
    excluding the same duplicate-free [{a, c}] get two different new children
    at the root: the second insertion does not reuse the first one's group. *)
Lemma number_interval_groups_not_shared :
  NumberInterval.Equals intervalA intervalB = true /\
  NumberInterval.Equals intervalC intervalB = true /\
  NumberInterval.Equals intervalA intervalC = false /\
  clonePattern (inverseNumberPattern [intervalA; intervalC])
    = inverseNumberPattern [intervalA; intervalC] /\
  (exists nd0 nd1 nd2,
     nodeGetOrInsertChild (newMatchNode MatchNumberInterval)
       (inverseNumberPattern [intervalB]) 1 = Some (1, nd0, true) /\
     nodeGetOrInsertChild nd0 (inverseNumberPattern [intervalA; intervalC]) 2
       = Some (2, nd1, true) /\
     nodeGetOrInsertChild nd1 (inverseNumberPattern [intervalA; intervalC]) 3
       = Some (3, nd2, true)) /\
  option_map rootNumberInverseGroups
    (addRules (emptyTree [MatchNumberInterval]) sharedInverseRules)
  = Some [{| MatchNode := 1; MaxRefCount := 1 |};
          {| MatchNode := 2; MaxRefCount := 2 |};
          {| MatchNode := 3; MaxRefCount := 2 |}].
Proof.
  split; [vm_compute; reflexivity|]. split; [vm_compute; reflexivity|].
  split; [vm_compute; reflexivity|]. split; [vm_compute; reflexivity|].
  split; [|vm_compute; reflexivity].
  do 3 eexists. split; [reflexivity|]. split; reflexivity.
Qed.

Lemma inverse_group_reuse_witness :
  exists nd1 nd3,
    nodeGetOrInsertChild (newMatchNode MatchString) (inverseStringPattern ["admin"; "root"]) 1
      = Some (1, nd1, true) /\
    nodeGetOrInsertChild nd1 (inverseStringPattern ["root"; "admin"]) 2 = Some (1, nd3, false) /\
    nd3 = nd1.
Proof.
  do 2 eexists. split; [reflexivity|]. split; [reflexivity|].
  refine (proj2 (proj2 (proj2 (proj2 inverse_group_reuse) MatchString (newMatchNode MatchString)
    (inverseStringPattern ["admin"; "root"]) (inverseStringPattern ["root"; "admin"])
    1 2 1 _ true _ 1 _ false
    (nodeSteps_refl _) eq_refl eq_refl eq_refl eq_refl _ _ _ (nodeSteps_refl _) _)));
    [vm_compute; reflexivity | apply perm_swap | reflexivity | reflexivity].
Defined.

(** *** Every node of a reachable tree is grown from a new one *)

Lemma nodeSteps_snoc nd nd' p fresh c nd'' a :
  nodeSteps nd nd' -> nodeGetOrInsertChild nd' p fresh = Some (c, nd'', a) ->
  nodeSteps nd nd''.
Proof.
  induction 1 as [nd|nd q f c0 nd1 a0 nd2 Hs _ IH]; intros H.
  - eapply nodeSteps_step; [exact H|constructor].
  - eapply nodeSteps_step; [exact Hs|]. apply IH. exact H.
Qed.

Lemma newMatchNode_ok ty : nodeOK (newMatchNode ty).
Proof. right. exists ty. constructor. Qed.

Lemma GetOrInsertChild_ok s id p ty c s' :
  arenaOK s -> GetOrInsertChild s id p ty = Some (c, s') -> arenaOK s'.
Proof.
  unfold GetOrInsertChild, arenaOK. intros Hs.
  destruct (s !! id) as [nd|] eqn:Hid; simpl; [|discriminate].
  destruct (nodeGetOrInsertChild nd p (length s)) as [[[c0 nd'] al]|] eqn:Hn; simpl; [|discriminate].
  assert (Hok : nodeOK nd').
  { destruct (Forall_lookup_1 _ _ _ _ Hs Hid) as [[rs ->]|[ty0 H0]]; [discriminate|].
    right. exists ty0. eapply nodeSteps_snoc; eassumption. }
  destruct al; intros H1; injection H1 as <- <-.
  - apply Forall_app_2; [apply Forall_insert; assumption|constructor; [apply newMatchNode_ok|constructor]].
  - apply Forall_insert; assumption.
Qed.

Lemma walkPath_ok ps s node lp leaf s' :
  arenaOK s -> walkPath s node lp ps = Some (leaf, s') -> arenaOK s'.
Proof.
  revert s node lp. induction ps as [|q ps IH]; intros s node lp Hs; simpl.
  - apply GetOrInsertChild_ok. assumption.
  - destruct (GetOrInsertChild s node lp (pType q)) as [[c s1]|] eqn:E; simpl; [|discriminate].
    apply IH. eapply GetOrInsertChild_ok; eassumption.
Qed.

Lemma AddResult_ok s id r s' : arenaOK s -> AddResult s id r = Some s' -> arenaOK s'.
Proof.
  unfold AddResult, arenaOK. intros Hs.
  destruct (s !! id) as [nd|]; simpl; [|discriminate].
  destruct nd; try discriminate. intros H; injection H as <-.
  apply Forall_insert; [assumption|]. left. eexists. reflexivity.
Qed.

Lemma doAddRule_ok {T} (t t' : MatchTree T) ps vi prio :
  arenaOK (nodes t) -> doAddRule t ps vi prio = Some t' -> arenaOK (nodes t').
Proof.
  intros Hs. unfold doAddRule.
  assert (Hroot : forall ty, arenaOK (nodes (getOrInsertRoot t ty).2)).
  { intros ty. unfold getOrInsertRoot. destruct (root t); simpl; [assumption|].
    apply Forall_app_2; [assumption|constructor; [apply newMatchNode_ok|constructor]]. }
  specialize (Hroot (match ps with p :: _ => pType p | [] => MatchNone end)).
  destruct (getOrInsertRoot t _) as [r t1]. simpl in Hroot.
  destruct (match ps with [] => _ | _ => _ end) as [[leaf s]|] eqn:Hw; simpl; [|discriminate].
  assert (Hs1 : arenaOK s).
  { destruct ps as [|p ps]; [injection Hw as _ <-; assumption|]. eapply walkPath_ok; eassumption. }
  destruct (AddResult s leaf _) as [s'|] eqn:Hr; simpl; [|discriminate].
  intros H; injection H as <-. simpl. eapply AddResult_ok; eassumption.
Qed.

Lemma forEach_ok {T A} (f : A -> MatchTree T -> option (MatchTree T)) l t t' :
  (forall x t1 t2, arenaOK (nodes t1) -> f x t1 = Some t2 -> arenaOK (nodes t2)) ->
  arenaOK (nodes t) -> forEach f l t = Some t' -> arenaOK (nodes t').
Proof.
  intros Hf. revert t. induction l as [|x l IH]; intros t Ht; simpl.
  - intros H; injection H as <-. assumption.
  - destruct (f x t) as [t1|] eqn:E; simpl; [|discriminate]. apply IH. eapply Hf; eassumption.
Qed.

Lemma walkPatterns_ok {T} (rest pre : list MatchPattern) vi prio (t t' : MatchTree T) :
  arenaOK (nodes t) -> walkPatterns pre rest vi prio t = Some t' -> arenaOK (nodes t').
Proof.
  revert pre t t'. induction rest as [|q rest IH]; intros pre t t' Ht; simpl.
  - apply doAddRule_ok. assumption.
  - destruct (IsAny q); [apply IH; assumption|].
    destruct (IsInverse q); [apply IH; assumption|].
    destruct (pType q); try discriminate;
      apply forEach_ok; try assumption; intros x t1 t2 H1; apply IH; assumption.
Qed.

Lemma reachable_ok {T} (t : MatchTree T) : reachable t -> arenaOK (nodes t).
Proof.
  induction 1 as [tys t Hnew|t rule t' e Hr IH Hadd].
  - unfold NewMatchTree in Hnew. destruct (decide _); [discriminate|].
    injection Hnew as <-. constructor.
  - unfold AddRule in Hadd.
    destruct (negb _); [injection Hadd as <- _; assumption|].
    destruct (firstTypeMismatch _ _) as [[x y]|]; [injection Hadd as <- _; assumption|].
    destruct (walkPatterns _ _ _ _ _) as [t2|] eqn:Hw; simpl in Hadd; [|discriminate].
    injection Hadd as <- _. eapply walkPatterns_ok; [|exact Hw]. exact IH.
Qed.

(** *** The reverse index of interval nodes names existing groups *)

Lemma getOrInsertInverseChild_shape {K Idx} (lk : Idx -> K -> list nat) ad ics idx E fresh
    c ics' idx' a :
  getOrInsertInverseChild lk ad ics idx E fresh = Some (c, ics', idx', a) ->
  (ics' = ics /\ idx' = idx) \/
  (ics' = ics ++ [{| MatchNode := fresh; MaxRefCount := length E |}] /\
   idx' = addAll ad idx E (length ics)).
Proof.
  unfold getOrInsertInverseChild.
  destruct (countRefs _ _ _ _); simpl; [|discriminate].
  destruct (findReusable _ _ _ _) as [[g|]|]; simpl; try discriminate.
  - destruct (ics !! g); simpl; [|discriminate]. intros H; injection H as _ <- <- _. auto.
  - intros H; injection H as _ <- <- _. auto.
Qed.

Lemma entriesWF_mono {I} (idx : list (I * list nat)) n m :
  entriesWF idx n -> n <= m -> entriesWF idx m.
Proof.
  intros H Hle. eapply Forall_impl; [exact H|]. intros e He.
  eapply Forall_impl; [exact He|]. intros g Hg. simpl in Hg. lia.
Qed.

Lemma entriesWF_addIdx {I} (Equals : I -> I -> bool) idx v h m :
  entriesWF idx m -> h < m -> entriesWF (ListNode.addIdx Equals idx v h) m.
Proof.
  unfold ListNode.addIdx, entriesWF. intros H Hh.
  destruct (indexFunc _ _) as [i|].
  - apply Forall_lookup_2. intros j e Hj.
    destruct (decide (i = j)) as [->|Hne].
    + rewrite list_lookup_alter_eq in Hj.
      destruct (idx !! j) as [e0|] eqn:He0; simpl in Hj; [|discriminate].
      injection Hj as <-. simpl. apply Forall_app_2.
      * exact (Forall_lookup_1 _ _ _ _ H He0).
      * constructor; [assumption|constructor].
    + rewrite list_lookup_alter_ne in Hj by assumption. exact (Forall_lookup_1 _ _ _ _ H Hj).
  - apply Forall_app_2; [assumption|]. constructor; [|constructor]. simpl.
    constructor; [assumption|constructor].
Qed.

Lemma entriesWF_addAll {I} (Equals : I -> I -> bool) idx E h m :
  entriesWF idx m -> h < m -> entriesWF (addAll (ListNode.addIdx Equals) idx E h) m.
Proof.
  unfold addAll. revert idx. induction E as [|v E IH]; intros idx H Hh; simpl; [assumption|].
  apply IH; [apply entriesWF_addIdx|]; assumption.
Qed.

Lemma entriesWF_invSteps {I} (Equals : I -> I -> bool) st st' :
  invSteps (ListNode.lookupIdx Equals) (ListNode.addIdx Equals) st st' ->
  entriesWF st.2 (length st.1) -> entriesWF st'.2 (length st'.1).
Proof.
  induction 1 as [|ics idx E fresh c ics' idx' a st Hs _ IH]; simpl; [auto|].
  intros Hwf. apply IH. simpl.
  destruct (getOrInsertInverseChild_shape _ _ _ _ _ _ _ _ _ _ Hs) as [[-> ->]|[-> ->]];
    [assumption|].
  rewrite length_app. simpl. apply entriesWF_addAll; [|lia].
  eapply entriesWF_mono; [exact Hwf|lia].
Qed.

(** *** [FindChildren] *)

Lemma yieldUnexcluded_eq excluded ics ics0 i rcs :
  length rcs = length ics0 ->
  (forall k ic, ics0 !! k = Some ic -> ics !! (i + k) = Some ic) ->
  (forall k rc, rcs !! k = Some rc -> Nat.leb 1 rc = excluded (i + k)) ->
  yieldUnexcluded ics i rcs = Some (unexcludedGroups excluded ics0 i).
Proof.
  revert i rcs. induction ics0 as [|ic0 ics0 IH]; intros i [|rc rcs] Hlen Hics Hex;
    simpl in Hlen; try discriminate; cbn [yieldUnexcluded unexcludedGroups]; [reflexivity|].
  assert (Hnext : yieldUnexcluded ics (S i) rcs = Some (unexcludedGroups excluded ics0 (S i))).
  { apply IH; [lia| |].
    - intros k ic Hk. replace (S i + k) with (i + S k) by lia. apply Hics. exact Hk.
    - intros k rc' Hk. replace (S i + k) with (i + S k) by lia. apply Hex. exact Hk. }
  specialize (Hex 0 rc eq_refl). rewrite Nat.add_0_r in Hex. rewrite Hex.
  destruct (excluded i); [exact Hnext|].
  specialize (Hics 0 ic0 eq_refl). rewrite Nat.add_0_r in Hics. rewrite Hics. simpl.
  rewrite Hnext. reflexivity.
Qed.

(** The inverse part of [FindChildren] yields, in order, the child of every
    group the counted list [cis] does not name. *)
Lemma findInverseChildren_spec ics cis :
  Forall (fun g => g < length ics) cis ->
  findInverseChildren ics cis = Some (unexcludedGroups (fun g => bool_decide (g ∈ cis)) ics 0).
Proof.
  intros Hc. unfold findInverseChildren.
  destruct (Nat.leb 1 (length ics)) eqn:Hl.
  - destruct (incrAll_spec cis (replicate (length ics) 0)) as (rcs & H1 & H2 & H3);
      [rewrite length_replicate; assumption|].
    rewrite H1. simpl. apply yieldUnexcluded_eq.
    + rewrite H2, length_replicate. reflexivity.
    + intros k ic Hk. exact Hk.
    + intros k rc Hk. rewrite H3 in Hk. simpl.
      destruct (replicate (length ics) 0 !! k) as [z|] eqn:Hz; simpl in Hk; [|discriminate].
      apply lookup_replicate in Hz as [-> _]. injection Hk as <-. simpl.
      destruct (count_occ Nat.eq_dec cis k) eqn:Hcnt; simpl; symmetry.
      * apply bool_decide_eq_false_2. rewrite list_elem_of_In, (count_occ_In Nat.eq_dec). lia.
      * apply bool_decide_eq_true_2. rewrite list_elem_of_In, (count_occ_In Nat.eq_dec). lia.
  - apply Nat.leb_gt in Hl. destruct ics; [reflexivity|simpl in Hl; lia].
Qed.

Lemma unexcludedGroups_ext f f' ics i :
  (forall g, f g = f' g) -> unexcludedGroups f ics i = unexcludedGroups f' ics i.
Proof.
  intros H. revert i. induction ics as [|ic ics IH]; intros i; simpl; [reflexivity|].
  rewrite H, IH. reflexivity.
Qed.

Lemma excluded_by_entries {I X} (Contains : I -> X -> bool) (idx : list (I * list nat)) k g :
  bool_decide (g ∈ concat (map snd (filter (fun e => Contains e.1 k) idx)))
  = existsb (fun e => Contains e.1 k && bool_decide (g ∈ e.2)) idx.
Proof.
  induction idx as [|e idx IH]; simpl.
  - reflexivity.
  - rewrite filter_cons. destruct (Contains e.1 k); simpl; [|exact IH].
    rewrite <- IH. rewrite (bool_decide_ext _ _ (elem_of_app _ _ _)), bool_decide_or.
    reflexivity.
Qed.

Lemma MapNode_FindChildren_spec {K} `{Countable K} (n : MapNode.t K) k :
  wfIdx MapNode.lookupIdx (MapNode.inverseChildIndexes n) (length (MapNode.inverseChildren n)) ->
  MapNode.FindChildren n k = Some (specMapFindChildren n k).
Proof.
  intros Hwf. unfold MapNode.FindChildren, specMapFindChildren.
  rewrite findInverseChildren_spec by apply Hwf. reflexivity.
Qed.

Lemma ListNode_FindChildren_spec {I X} (Contains : I -> X -> bool) (n : ListNode.t I) k :
  entriesWF (ListNode.inverseChildIndexes n) (length (ListNode.inverseChildren n)) ->
  ListNode.FindChildren Contains n k = Some (specListFindChildren Contains n k).
Proof.
  intros Hwf. unfold ListNode.FindChildren, specListFindChildren.
  rewrite findInverseChildren_spec.
  - simpl. do 3 f_equal. apply unexcludedGroups_ext. intros g. apply excluded_by_entries.
  - apply Forall_forall. intros g Hg.
    apply list_elem_of_In, in_concat in Hg as (l & Hl & Hg).
    apply in_map_iff in Hl as (e & <- & He). apply list_elem_of_In in He.
    apply list_elem_of_filter in He as [_ He].
    unfold entriesWF in Hwf. rewrite Forall_forall in Hwf.
    specialize (Hwf e He). rewrite Forall_forall in Hwf.
    apply Hwf. apply list_elem_of_In. exact Hg.
Qed.

(** A node grown from a new one answers [FindChildren] as the spec says. *)
Lemma FindChildren_grown ty nd s id key :
  nodeSteps (newMatchNode ty) nd -> s !! id = Some nd ->
  FindChildren s id key = specFindChildren nd key.
Proof.
  intros Hs Hid. unfold FindChildren. rewrite Hid. simpl.
  pose proof (nodeSteps_idx_wf ty nd Hs) as Hwf.
  destruct ty; simpl in Hs.
  - inversion Hs as [|? ? ? ? ? ? ? Hn]; subst; [reflexivity|discriminate].
  - destruct (kind_steps _ _ _ _ _ String_node_step _ _ Hs _ eq_refl) as (n & -> & _).
    apply MapNode_FindChildren_spec. exact Hwf.
  - destruct (kind_steps _ _ _ _ _ Integer_node_step _ _ Hs _ eq_refl) as (n & -> & _).
    apply MapNode_FindChildren_spec. exact Hwf.
  - destruct (kind_steps _ _ _ _ _ IntegerInterval_node_step _ _ Hs _ eq_refl) as (n & -> & Hi).
    apply ListNode_FindChildren_spec.
    exact (entriesWF_invSteps _ _ _ Hi (Forall_nil_2 _)).
  - destruct (kind_steps _ _ _ _ _ NumberInterval_node_step _ _ Hs _ eq_refl) as (n & -> & Hi).
    apply ListNode_FindChildren_spec.
    exact (entriesWF_invSteps _ _ _ Hi (Forall_nil_2 _)).
Qed.

(** *** [Search] on a tree with no rule *)

Lemma searchNodes_nil (s : arena) keys : searchNodes s keys [] = Some [].
Proof. induction keys as [|k keys IH]; simpl; [reflexivity|exact IH]. Qed.

Lemma reachable_no_values_no_root {T} (t : MatchTree T) :
  reachable t -> values t = [] -> root t = None.
Proof.
  intros Hr. pose proof (reachable_wf t Hr) as [Hnone _]. revert Hnone.
  induction Hr as [tys t Hnew|t rule t' e Hr IH Hadd]; intros Hnone Hv.
  - unfold NewMatchTree in Hnew. destruct (decide _); [discriminate|].
    injection Hnew as <-. reflexivity.
  - pose proof (reachable_wf t Hr) as [Hnone0 _].
    destruct (AddRule_grows t t' rule e Hnone0 Hadd) as [[_ ->]|(_ & _ & Hv' & _)].
    + apply IH; assumption.
    + rewrite Hv' in Hv. destruct (values t); discriminate.
Qed.

(** [Search] with a key list of the tree's shape, on a reachable tree to
    which no rule was added (every [AddRule] call failed, or none was made),
    returns an empty result and no error. *)
Lemma Search_no_rules {T} (t : MatchTree T) keys :
  reachable t -> values t = [] ->
  length keys = length (types t) -> firstTypeMismatch (types t) (map kType keys) = None ->
  Search t keys = Some ([], None).
Proof.
  intros Hr Hv Hlen Hty. unfold Search.
  rewrite Hlen, Nat.eqb_refl, Hty. simpl.
  rewrite (reachable_no_values_no_root t Hr Hv), searchNodes_nil. reflexivity.
Qed.

(** C6. On a tree whose first dimension is a number interval, [Search] can
    return a value for keys no rule matches. The intervals [b] and [c] are
    [Equals], so rule "B" reuses the inverse group of rule "A" at the root.
    Neither rule matches the keys [(10 + 1.3e-10, "s2")]: the key
    10 + 1.3e-10 lies in [c], which rule "B" excludes. Yet [Search] returns
    ["B"] and no error. *)
Lemma Search_unmatched_nonempty :
  NumberInterval.Equals intervalB intervalC = true /\
  forallb (fun r => negb (specRuleMatches r unsoundKeys)) unsoundRules = true /\
  (t ← addRules (emptyTree [MatchNumberInterval; MatchString]) unsoundRules;
   Search t unsoundKeys) = Some (["B"], None).
Proof. split; [vm_compute; reflexivity|]. split; vm_compute; reflexivity. Qed.

(** *** Soundness of [Search]: every path of the tree admits only keys its
    results' rules match *)

Lemma sum_list_with_le_length {A} (f : A -> nat) l :
  (forall x, f x <= 1) -> sum_list_with f l <= length l.
Proof. intros Hf. induction l as [|x l IH]; simpl; [lia|]. specialize (Hf x). lia. Qed.

Lemma sum_list_with_full {A} (f : A -> nat) l :
  (forall x, f x <= 1) -> sum_list_with f l = length l -> forall x, In x l -> f x = 1.
Proof.
  intros Hf. induction l as [|y l IH]; simpl; [intros _ x []|].
  intros Hs x [<-|Hx].
  - pose proof (sum_list_with_le_length f l Hf). specialize (Hf y). lia.
  - pose proof (sum_list_with_le_length f l Hf). specialize (Hf y).
    apply IH; [lia|assumption].
Qed.

Section GroupSemantics.
Context {K Idx : Type}.
Variable lookupIdx : Idx -> K -> list nat.
Variable addIdx : Idx -> K -> nat -> Idx.
Variable eqb : K -> K -> bool.
Variable sem : K -> MatchKey -> bool.
Variable excl : Idx -> nat -> MatchKey -> bool.
Hypothesis lookup_addIdx : forall idx v h v',
  lookupIdx (addIdx idx v h) v' = lookupIdx idx v' ++ (if eqb v v' then [h] else []).
Hypothesis eqb_sym : forall u v, eqb u v = eqb v u.
Hypothesis eqb_trans : forall u v w, eqb u v = true -> eqb v w = true -> eqb u w = true.
(** Adding [h] under [v] skips [h] for the keys [v] admits. *)
Hypothesis excl_addIdx : forall idx v h g k,
  excl (addIdx idx v h) g k = excl idx g k || (Nat.eqb g h && sem v k).
(** A group listed under a value admitting the key is skipped. *)
Hypothesis lookup_excl : forall idx v g k,
  g ∈ lookupIdx idx v -> sem v k = true -> excl idx g k = true.

Lemma excl_addAll idx E h g k :
  excl (addAll addIdx idx E h) g k = excl idx g k || (Nat.eqb g h && existsb (fun v => sem v k) E).
Proof.
  unfold addAll. revert idx. induction E as [|v E IH]; intros idx; simpl.
  - rewrite andb_false_r, orb_false_r. reflexivity.
  - rewrite IH, excl_addIdx.
    destruct (excl idx g k), (Nat.eqb g h), (sem v k); reflexivity.
Qed.

Lemma count_added_none E v h :
  (forall w, In w E -> eqb w v = false) ->
  count_occ Nat.eq_dec (flat_map (fun u => if eqb u v then [h] else []) E) h = 0.
Proof.
  induction E as [|u E IH]; simpl; intros Hw; [reflexivity|].
  rewrite count_occ_app, Hw by auto. simpl. apply IH. auto.
Qed.

Lemma count_added_le1 E v h :
  distinctBy eqb E ->
  count_occ Nat.eq_dec (flat_map (fun u => if eqb u v then [h] else []) E) h <= 1.
Proof.
  induction E as [|u E IH]; simpl; [lia|]. intros [Hu Hd].
  rewrite count_occ_app. destruct (eqb u v) eqn:Huv; simpl.
  - destruct (Nat.eq_dec h h); [|contradiction].
    rewrite count_added_none; [lia|].
    intros w Hw. destruct (eqb w v) eqn:Hwv; [|reflexivity].
    rewrite Forall_forall in Hu. destruct (Hu w (proj2 (list_elem_of_In _ _) Hw)) as [Huw _].
    rewrite eqb_sym in Hwv. rewrite (eqb_trans _ _ _ Huv Hwv) in Huw. discriminate.
  - apply IH. exact Hd.
Qed.

(** One inverse insertion: either an existing group is reused, whose set
    is admitted whenever the new exclusion list is, or a group standing for
    the new list is appended. *)
Lemma groupsSem_step ics idx grp E fresh c ics' idx' a :
  groupsSem lookupIdx sem excl ics idx grp -> distinctBy eqb E ->
  getOrInsertInverseChild lookupIdx addIdx ics idx E fresh = Some (c, ics', idx', a) ->
  (a = false /\ ics' = ics /\ idx' = idx /\
   exists g ic, ics !! g = Some ic /\ c = MatchNode ic /\
     forall k, existsb (fun v => sem v k) E = true -> existsb (fun v => sem v k) (grp g) = true) \/
  (a = true /\ c = fresh /\
   ics' = ics ++ [{| MatchNode := fresh; MaxRefCount := length E |}] /\
   groupsSem lookupIdx sem excl ics' idx'
     (fun g => if Nat.eqb g (length ics) then E else grp g)).
Proof.
  intros (Hwf & Hlt & Hsem & Hcnt) Hd Hgo.
  pose proof (wfIdx_step lookupIdx addIdx eqb lookup_addIdx _ _ _ _ _ _ _ _ Hwf Hgo) as Hwf'.
  rewrite getOrInsertInverseChild_spec in Hgo by exact Hwf. unfold inverseChildSpec in Hgo.
  destruct (findFirst (groupMatch lookupIdx ics idx E) 0 (length ics)) as [g|] eqn:Hf.
  - destruct (ics !! g) as [ic|] eqn:Hic; simpl in Hgo; [|discriminate].
    injection Hgo as <- <- <- <-. left. split; [reflexivity|split; [reflexivity|split; [reflexivity|]]].
    exists g, ic. split; [assumption|split; [reflexivity|]].
    intros k Hk. apply findFirst_Some in Hf as (_ & Hgm & _).
    unfold groupMatch in Hgm. apply andb_true_iff in Hgm as [Hrc _].
    apply Nat.eqb_eq in Hrc. unfold refCount in Hrc.
    pose proof (sum_list_with_full _ E (fun v => Hcnt g v) Hrc) as Hall.
    apply existsb_exists in Hk as (v & Hv & Hsv).
    specialize (Hall v Hv). simpl in Hall.
    assert (Hin : g ∈ lookupIdx idx v).
    { apply list_elem_of_In, (count_occ_In Nat.eq_dec). lia. }
    rewrite <- Hsem by (eapply lookup_lt_Some; eassumption).
    eapply lookup_excl; eassumption.
  - injection Hgo as <- <- <- <-. right.
    split; [reflexivity|split; [reflexivity|split; [reflexivity|]]].
    split; [exact Hwf'|]. rewrite length_app. simpl.
    split; [|split].
    + intros g k. rewrite excl_addAll. intros Hx. apply orb_true_iff in Hx as [Hx|Hx].
      * apply Hlt in Hx. lia.
      * apply andb_true_iff in Hx as [Hx _]. apply Nat.eqb_eq in Hx. lia.
    + intros g k Hg. rewrite excl_addAll.
      destruct (Nat.eqb_spec g (length ics)) as [->|Hne]; simpl.
      * destruct (excl idx (length ics) k) eqn:E0; [apply Hlt in E0; lia|]. reflexivity.
      * rewrite orb_false_r. apply Hsem. lia.
    + intros g v. rewrite (lookup_addAll lookupIdx addIdx eqb lookup_addIdx), count_occ_app.
      destruct (Nat.eq_dec g (length ics)) as [->|Hne].
      * assert (count_occ Nat.eq_dec (lookupIdx idx v) (length ics) = 0) as ->.
        { apply count_occ_not_In. intros Hin. specialize (Hwf v).
          rewrite Forall_forall in Hwf. specialize (Hwf _ (proj2 (list_elem_of_In _ _) Hin)). lia. }
        simpl. apply count_added_le1. exact Hd.
      * rewrite (count_added_other eqb) by assumption. rewrite Nat.add_0_r. apply Hcnt.
Qed.

End GroupSemantics.

Lemma existsb_fun_ext {A} (f g : A -> bool) l :
  (forall x, f x = g x) -> existsb f l = existsb g l.
Proof. intros H. induction l as [|x l IH]; simpl; [reflexivity|]. rewrite H, IH. reflexivity. Qed.

Lemma existsb_alter {A} (f : A -> bool) (g : A -> A) i l e X :
  l !! i = Some e -> f (g e) = f e || X ->
  existsb f (alter g i l) = existsb f l || X.
Proof.
  revert i. induction l as [|x l IH]; intros [|i] He Hg; simpl in He; try discriminate.
  - injection He as ->. simpl. rewrite Hg. destruct (f e), X, (existsb f l); reflexivity.
  - simpl. change (list_alter g i l) with (alter g i l). rewrite (IH i He Hg).
    destruct (f x), X, (existsb f l); reflexivity.
Qed.

Lemma bool_decide_elem_of_singleton (g h : nat) : bool_decide (g ∈ [h]) = Nat.eqb g h.
Proof.
  rewrite (bool_decide_ext _ (g = h)) by apply list_elem_of_singleton.
  destruct (Nat.eqb_spec g h); case_bool_decide; congruence.
Qed.

Lemma String_eqb_bool_decide (u v : string) : String.eqb u v = bool_decide (u = v).
Proof. destruct (String.eqb_spec u v); case_bool_decide; congruence. Qed.

Lemma IntegerInterval_Equals_Contains i j x :
  IntegerInterval.Equals i j = true -> IntegerInterval.Contains i x = IntegerInterval.Contains j x.
Proof.
  rewrite IntegerInterval_Equals_bounds, bool_decide_eq_true. unfold integerIntervalBounds.
  destruct i as [[a|] ea [b|] eb], j as [[a'|] ea' [b'|] eb']; simpl; intros Hb;
    inversion Hb; subst; reflexivity.
Qed.

Lemma prefix_app_r_snoc {A} (l : list A) x : l `prefix_of` l ++ [x].
Proof. exists [x]. reflexivity. Qed.

Lemma unexcludedGroups_elem (f : nat -> bool) ics c :
  c ∈ unexcludedGroups f ics 0 ->
  exists g ic, ics !! g = Some ic /\ c = MatchNode ic /\ f g = false.
Proof.
  assert (Hun : forall ics0 i, (forall j ic, ics0 !! j = Some ic -> ics !! (i + j) = Some ic) ->
            c ∈ unexcludedGroups f ics0 i ->
            exists g ic, ics !! g = Some ic /\ c = MatchNode ic /\ f g = false).
  { induction ics0 as [|ic0 ics0 IH]; intros i Hics Hu; simpl in Hu;
      [apply elem_of_nil in Hu; contradiction|].
    apply elem_of_app in Hu as [Hu|Hu].
    - destruct (f i) eqn:Hb; simpl in Hu; [apply elem_of_nil in Hu; contradiction|].
      apply list_elem_of_singleton in Hu as ->. exists i, ic0.
      split; [rewrite <- (Nat.add_0_r i); apply Hics; reflexivity|].
      split; [reflexivity|exact Hb].
    - apply (IH (S i)); [|exact Hu]. intros j ic Hj.
      replace (S i + j) with (i + S j) by lia. apply Hics. exact Hj. }
  apply (Hun ics 0). intros j ic H. exact H.
Qed.

(** *** Labels of string and integer nodes *)

Section MapNodeLabels.
Context {K : Type} `{Countable K}.
Variable exact : K -> edgeLabel.
Variable notIn : list K -> edgeLabel.
Variable keyOf : MatchKey -> K.
Hypothesis exact_admits : forall v k, labelAdmits (exact v) k = bool_decide (v = keyOf k).
Hypothesis notIn_admits : forall E k,
  labelAdmits (notIn E) k = negb (existsb (fun v => bool_decide (v = keyOf k)) E).

Lemma mapExcl_addIdx idx v h g k :
  mapExcl keyOf (MapNode.addIdx idx v h) g k
  = mapExcl keyOf idx g k || (Nat.eqb g h && bool_decide (v = keyOf k)).
Proof.
  unfold mapExcl. rewrite MapNode_lookup_addIdx. destruct (bool_decide (v = keyOf k)) eqn:Hv; simpl.
  - rewrite (bool_decide_ext _ _ (elem_of_app _ _ _)), bool_decide_or,
      bool_decide_elem_of_singleton, andb_true_r. reflexivity.
  - rewrite app_nil_r, andb_false_r, orb_false_r. reflexivity.
Qed.

Lemma mapExcl_lookup idx v g k :
  g ∈ MapNode.lookupIdx idx v -> bool_decide (v = keyOf k) = true -> mapExcl keyOf idx g k = true.
Proof.
  intros Hg Hv. apply bool_decide_eq_true in Hv. subst. unfold mapExcl.
  apply bool_decide_eq_true_2. exact Hg.
Qed.

Lemma map_groupsSem_step ics idx grp E fresh c ics' idx' a :
  groupsSem MapNode.lookupIdx (fun v k => bool_decide (v = keyOf k)) (mapExcl keyOf) ics idx grp ->
  distinctBy (fun a b => bool_decide (a = b)) E ->
  getOrInsertInverseChild MapNode.lookupIdx MapNode.addIdx ics idx E fresh = Some (c, ics', idx', a) ->
  (a = false /\ ics' = ics /\ idx' = idx /\
   exists g ic, ics !! g = Some ic /\ c = MatchNode ic /\
     forall k, existsb (fun v => bool_decide (v = keyOf k)) E = true ->
               existsb (fun v => bool_decide (v = keyOf k)) (grp g) = true) \/
  (a = true /\ c = fresh /\
   ics' = ics ++ [{| MatchNode := fresh; MaxRefCount := length E |}] /\
   groupsSem MapNode.lookupIdx (fun v k => bool_decide (v = keyOf k)) (mapExcl keyOf) ics' idx'
     (fun g => if Nat.eqb g (length ics) then E else grp g)).
Proof.
  apply (groupsSem_step MapNode.lookupIdx MapNode.addIdx (fun a b => bool_decide (a = b))).
  - apply MapNode_lookup_addIdx.
  - intros u v. apply bool_decide_ext. split; congruence.
  - intros u v w. rewrite !bool_decide_eq_true. congruence.
  - apply mapExcl_addIdx.
  - apply mapExcl_lookup.
Qed.

Lemma mapNodeLabels_mono n lab lab' pl :
  mapNodeLabels exact notIn keyOf n lab pl -> lab `prefix_of` lab' ->
  mapNodeLabels exact notIn keyOf n lab' pl.
Proof.
  intros (Hc & Ha & grp & Hg & Hl) Hp. split; [|split].
  - intros v c Hv. eapply prefix_lookup_Some; [apply Hc; exact Hv|exact Hp].
  - intros c Hv. eapply prefix_lookup_Some; [apply Ha; exact Hv|exact Hp].
  - exists grp. split; [exact Hg|]. intros g ic Hic.
    eapply prefix_lookup_Some; [apply Hl; exact Hic|exact Hp].
Qed.

Lemma mapNodeLabels_empty lab pl : mapNodeLabels exact notIn keyOf MapNode.empty lab pl.
Proof.
  split; [|split].
  - intros v c Hv. simpl in Hv. rewrite lookup_empty in Hv. discriminate.
  - intros c Hc. discriminate.
  - exists (fun _ => []). split.
    + split; [intros v; constructor|]. split; [|split].
      * intros g k Hx. unfold mapExcl in Hx. apply bool_decide_eq_true in Hx.
        unfold MapNode.lookupIdx in Hx. simpl in Hx. rewrite lookup_empty in Hx.
        apply elem_of_nil in Hx. contradiction.
      * intros g k Hg. simpl in Hg. lia.
      * intros g v. unfold MapNode.lookupIdx. simpl. rewrite lookup_empty. simpl. lia.
    + intros g ic Hic. simpl in Hic. rewrite lookup_nil in Hic. discriminate.
Qed.

(** Inserting a pattern into a labelled node: the child's edge gets a label
    that admits only what the pattern's kind of match admits, and the
    node's children stay labelled. *)
Lemma map_insert_labels n isAny isInv vs cur lab pl c n' a :
  mapNodeLabels exact notIn keyOf n lab pl ->
  (isAny = false -> isInv = true -> distinctBy (fun a b => bool_decide (a = b)) vs) ->
  MapNode.GetOrInsertChild n isAny isInv vs cur (length lab) = Some (c, n', a) ->
  exists l,
    (forall k, labelAdmits l k = true ->
       if isAny then True
       else if isInv then existsb (fun v => bool_decide (v = keyOf k)) vs = false
       else bool_decide (cur = keyOf k) = true) /\
    (if a then lab ++ [pl ++ [l]] else lab) !! c = Some (pl ++ [l]) /\
    mapNodeLabels exact notIn keyOf n' (if a then lab ++ [pl ++ [l]] else lab) pl.
Proof.
  intros HL Hd. pose proof HL as (Hc & Ha & grp & Hg & Hl).
  assert (Hfresh : forall x, (lab ++ [x]) !! length lab = Some x).
  { intros x. rewrite lookup_app_r, Nat.sub_diag by lia. reflexivity. }
  unfold MapNode.GetOrInsertChild. destruct isAny.
  - destruct (MapNode.anyChild n) as [c0|] eqn:Hany; intros Hins; injection Hins as <- <- <-.
    + exists LAny. split; [intros; exact I|]. split; [apply Ha; reflexivity|exact HL].
    + exists LAny. split; [intros; exact I|]. split; [apply Hfresh|].
      pose proof (mapNodeLabels_mono _ _ (lab ++ [pl ++ [LAny]]) _ HL (prefix_app_r_snoc _ _))
        as (Hc' & _ & grp' & Hg' & Hl').
      split; [exact Hc'|split; [|exists grp'; split; [exact Hg'|exact Hl']]].
      intros c Hc0. injection Hc0 as <-. apply Hfresh.
  - destruct isInv.
    + destruct (getOrInsertInverseChild _ _ _ _ _ _) as [[[[c0 ics] idx] al]|] eqn:Hgo;
        simpl; [|discriminate].
      intros Hins; injection Hins as <- <- <-.
      destruct (map_groupsSem_step _ _ _ _ _ _ _ _ _ Hg (Hd eq_refl eq_refl) Hgo)
        as [(-> & -> & -> & g & ic & Hic & -> & Hsub)|(-> & -> & -> & Hg')].
      * exists (notIn (grp g)). split; [|split; [apply Hl; exact Hic|]].
        -- intros k Hk. rewrite notIn_admits in Hk. apply negb_true_iff in Hk.
           destruct (existsb _ vs) eqn:Hv; [|reflexivity]. rewrite (Hsub k Hv) in Hk. discriminate.
        -- split; [exact Hc|split; [exact Ha|]]. exists grp. split; [exact Hg|exact Hl].
      * exists (notIn vs). split; [|split; [apply Hfresh|]].
        -- intros k Hk. rewrite notIn_admits in Hk. apply negb_true_iff in Hk. exact Hk.
        -- pose proof (mapNodeLabels_mono _ _ (lab ++ [pl ++ [notIn vs]]) _ HL
                         (prefix_app_r_snoc _ _)) as (Hc' & Ha' & grp0 & _ & Hl').
           split; [exact Hc'|split; [exact Ha'|]].
           eexists. split; [exact Hg'|]. simpl. intros g ic Hic.
           destruct (Nat.eqb_spec g (length (MapNode.inverseChildren n))) as [->|Hne].
           ++ rewrite lookup_app_r, Nat.sub_diag in Hic by lia. injection Hic as <-.
              apply Hfresh.
           ++ apply lookup_app_l_Some, Hl. rewrite lookup_app in Hic.
              destruct (MapNode.inverseChildren n !! g) eqn:E0; [exact Hic|].
              apply lookup_ge_None in E0. apply lookup_lt_Some in Hic. simpl in Hic. lia.
    + destruct (MapNode.children n !! cur) as [c0|] eqn:Hch; intros Hins; injection Hins as <- <- <-.
      * exists (exact cur). split; [|split; [apply Hc; exact Hch|exact HL]].
        intros k Hk. rewrite exact_admits in Hk. exact Hk.
      * exists (exact cur). split; [|split; [apply Hfresh|]].
        -- intros k Hk. rewrite exact_admits in Hk. exact Hk.
        -- pose proof (mapNodeLabels_mono _ _ (lab ++ [pl ++ [exact cur]]) _ HL
                         (prefix_app_r_snoc _ _)) as (Hc' & Ha' & grp' & Hg' & Hl').
           split; [|split; [exact Ha'|exists grp'; split; [exact Hg'|exact Hl']]].
           simpl. intros v c Hv. destruct (decide (v = cur)) as [->|Hne].
           ++ rewrite lookup_insert_eq in Hv. injection Hv as <-. apply Hfresh.
           ++ rewrite lookup_insert_ne in Hv by congruence. apply Hc'. exact Hv.
Qed.

(** What [FindChildren] yields from a labelled node for key [k] carries a
    label admitting [k]. *)
Lemma map_find_labels n lab pl k c :
  mapNodeLabels exact notIn keyOf n lab pl ->
  c ∈ specMapFindChildren n (keyOf k) ->
  exists l, lab !! c = Some (pl ++ [l]) /\ labelAdmits l k = true.
Proof.
  intros (Hc & Ha & grp & (Hwf & Hlt & Hsem & _) & Hl) Hin.
  unfold specMapFindChildren in Hin. apply elem_of_app in Hin as [Hin|Hin].
  - destruct (MapNode.children n !! keyOf k) as [c0|] eqn:Hch; simpl in Hin;
      [|apply elem_of_nil in Hin; contradiction].
    apply list_elem_of_singleton in Hin as ->. exists (exact (keyOf k)).
    split; [apply Hc; exact Hch|]. rewrite exact_admits. apply bool_decide_eq_true_2. reflexivity.
  - apply elem_of_app in Hin as [Hin|Hin].
    + destruct (unexcludedGroups_elem _ _ _ Hin) as (g & ic & Hic & -> & Hx).
      exists (notIn (grp g)). split; [apply Hl; exact Hic|].
      rewrite notIn_admits, <- Hsem by (eapply lookup_lt_Some; eassumption).
      unfold mapExcl. rewrite Hx. reflexivity.
    + destruct (MapNode.anyChild n) as [c0|] eqn:Hany; simpl in Hin;
        [|apply elem_of_nil in Hin; contradiction].
      apply list_elem_of_singleton in Hin as ->. exists LAny.
      split; [apply Ha; reflexivity|reflexivity].
Qed.

End MapNodeLabels.

(** *** Labels of interval nodes *)

Section ListNodeLabels.
Context {I : Type}.
Variable Equals : I -> I -> bool.
Variable sem : I -> MatchKey -> bool.
Variable exact : I -> edgeLabel.
Variable notIn : list I -> edgeLabel.
Hypothesis Equals_refl : forall v, Equals v v = true.
Hypothesis Equals_sym : forall u v, Equals u v = Equals v u.
Hypothesis Equals_trans : forall u v w, Equals u v = true -> Equals v w = true -> Equals u w = true.
Hypothesis sem_Equals : forall u v k, Equals u v = true -> sem u k = sem v k.
Hypothesis exact_admits : forall v k, labelAdmits (exact v) k = sem v k.
Hypothesis notIn_admits : forall E k,
  labelAdmits (notIn E) k = negb (existsb (fun v => sem v k) E).

Lemma listExcl_addIdx idx v h g k :
  listExcl sem (ListNode.addIdx Equals idx v h) g k
  = listExcl sem idx g k || (Nat.eqb g h && sem v k).
Proof.
  unfold listExcl, ListNode.addIdx.
  destruct (indexFunc (fun x => Equals x.1 v) idx) as [i|] eqn:Hi.
  - apply indexFunc_Some in Hi as (e & He & Hev).
    apply (existsb_alter _ _ _ _ e); [exact He|]. simpl.
    rewrite (bool_decide_ext _ _ (elem_of_app _ _ _)), bool_decide_or,
      bool_decide_elem_of_singleton, (sem_Equals _ _ _ Hev).
    destruct (sem v k), (bool_decide (g ∈ e.2)), (Nat.eqb g h); reflexivity.
  - rewrite existsb_app. simpl. rewrite bool_decide_elem_of_singleton, orb_false_r.
    destruct (sem v k), (Nat.eqb g h); reflexivity.
Qed.

Lemma listExcl_lookup idx v g k :
  g ∈ ListNode.lookupIdx Equals idx v -> sem v k = true -> listExcl sem idx g k = true.
Proof.
  unfold ListNode.lookupIdx, listExcl.
  destruct (indexFunc (fun x => Equals x.1 v) idx) as [i|] eqn:Hi;
    [|intros Hg; apply elem_of_nil in Hg; contradiction].
  apply indexFunc_Some in Hi as (e & He & Hev). rewrite He. simpl. intros Hg Hv.
  apply existsb_exists. exists e. split; [apply list_elem_of_In, list_elem_of_lookup_2 with i; exact He|].
  rewrite (sem_Equals _ _ _ Hev), Hv. simpl. apply bool_decide_eq_true_2. exact Hg.
Qed.

Lemma list_groupsSem_step ics idx grp E fresh c ics' idx' a :
  groupsSem (ListNode.lookupIdx Equals) sem (listExcl sem) ics idx grp ->
  distinctBy Equals E ->
  getOrInsertInverseChild (ListNode.lookupIdx Equals) (ListNode.addIdx Equals) ics idx E fresh
  = Some (c, ics', idx', a) ->
  (a = false /\ ics' = ics /\ idx' = idx /\
   exists g ic, ics !! g = Some ic /\ c = MatchNode ic /\
     forall k, existsb (fun v => sem v k) E = true -> existsb (fun v => sem v k) (grp g) = true) \/
  (a = true /\ c = fresh /\
   ics' = ics ++ [{| MatchNode := fresh; MaxRefCount := length E |}] /\
   groupsSem (ListNode.lookupIdx Equals) sem (listExcl sem) ics' idx'
     (fun g => if Nat.eqb g (length ics) then E else grp g)).
Proof.
  apply (groupsSem_step _ _ Equals).
  - apply ListNode_lookup_addIdx; assumption.
  - exact Equals_sym.
  - exact Equals_trans.
  - apply listExcl_addIdx.
  - apply listExcl_lookup.
Qed.

Lemma listNodeLabels_mono n lab lab' pl :
  listNodeLabels Equals sem exact notIn n lab pl -> lab `prefix_of` lab' ->
  listNodeLabels Equals sem exact notIn n lab' pl.
Proof.
  intros (Hc & Ha & grp & Hg & Hl) Hp. split; [|split].
  - intros i x Hx. eapply prefix_lookup_Some; [apply Hc with i; exact Hx|exact Hp].
  - intros c Hv. eapply prefix_lookup_Some; [apply Ha; exact Hv|exact Hp].
  - exists grp. split; [exact Hg|]. intros g ic Hic.
    eapply prefix_lookup_Some; [apply Hl; exact Hic|exact Hp].
Qed.

Lemma listNodeLabels_empty lab pl : listNodeLabels Equals sem exact notIn ListNode.empty lab pl.
Proof.
  split; [|split].
  - intros i x Hx. simpl in Hx. rewrite lookup_nil in Hx. discriminate.
  - intros c Hc. discriminate.
  - exists (fun _ => []). split.
    + split; [intros v; unfold ListNode.lookupIdx; simpl; constructor|]. split; [|split].
      * intros g k Hx. discriminate.
      * intros g k Hg. simpl in Hg. lia.
      * intros g v. unfold ListNode.lookupIdx. simpl. lia.
    + intros g ic Hic. simpl in Hic. rewrite lookup_nil in Hic. discriminate.
Qed.

Lemma list_insert_labels n isAny isInv vs cur lab pl c n' a :
  listNodeLabels Equals sem exact notIn n lab pl ->
  (isAny = false -> isInv = true -> distinctBy Equals vs) ->
  ListNode.GetOrInsertChild Equals n isAny isInv vs cur (length lab) = Some (c, n', a) ->
  exists l,
    (forall k, labelAdmits l k = true ->
       if isAny then True
       else if isInv then existsb (fun v => sem v k) vs = false
       else sem cur k = true) /\
    (if a then lab ++ [pl ++ [l]] else lab) !! c = Some (pl ++ [l]) /\
    listNodeLabels Equals sem exact notIn n' (if a then lab ++ [pl ++ [l]] else lab) pl.
Proof.
  intros HL Hd. pose proof HL as (Hc & Ha & grp & Hg & Hl).
  assert (Hfresh : forall x, (lab ++ [x]) !! length lab = Some x).
  { intros x. rewrite lookup_app_r, Nat.sub_diag by lia. reflexivity. }
  unfold ListNode.GetOrInsertChild. destruct isAny.
  - destruct (ListNode.anyChild n) as [c0|] eqn:Hany; intros Hins; injection Hins as <- <- <-.
    + exists LAny. split; [intros; exact Logic.I|]. split; [apply Ha; reflexivity|exact HL].
    + exists LAny. split; [intros; exact Logic.I|]. split; [apply Hfresh|].
      pose proof (listNodeLabels_mono _ _ (lab ++ [pl ++ [LAny]]) _ HL (prefix_app_r_snoc _ _))
        as (Hc' & _ & grp' & Hg' & Hl').
      split; [exact Hc'|split; [|exists grp'; split; [exact Hg'|exact Hl']]].
      intros c Hc0. injection Hc0 as <-. apply Hfresh.
  - destruct isInv.
    + destruct (getOrInsertInverseChild _ _ _ _ _ _) as [[[[c0 ics] idx] al]|] eqn:Hgo;
        simpl; [|discriminate].
      intros Hins; injection Hins as <- <- <-.
      destruct (list_groupsSem_step _ _ _ _ _ _ _ _ _ Hg (Hd eq_refl eq_refl) Hgo)
        as [(-> & -> & -> & g & ic & Hic & -> & Hsub)|(-> & -> & -> & Hg')].
      * exists (notIn (grp g)). split; [|split; [apply Hl; exact Hic|]].
        -- intros k Hk. rewrite notIn_admits in Hk. apply negb_true_iff in Hk.
           destruct (existsb _ vs) eqn:Hv; [|reflexivity]. rewrite (Hsub k Hv) in Hk. discriminate.
        -- split; [exact Hc|split; [exact Ha|]]. exists grp. split; [exact Hg|exact Hl].
      * exists (notIn vs). split; [|split; [apply Hfresh|]].
        -- intros k Hk. rewrite notIn_admits in Hk. apply negb_true_iff in Hk. exact Hk.
        -- pose proof (listNodeLabels_mono _ _ (lab ++ [pl ++ [notIn vs]]) _ HL
                         (prefix_app_r_snoc _ _)) as (Hc' & Ha' & grp0 & _ & Hl').
           split; [exact Hc'|split; [exact Ha'|]].
           eexists. split; [exact Hg'|]. simpl. intros g ic Hic.
           destruct (Nat.eqb_spec g (length (ListNode.inverseChildren n))) as [->|Hne].
           ++ rewrite lookup_app_r, Nat.sub_diag in Hic by lia. injection Hic as <-.
              apply Hfresh.
           ++ apply lookup_app_l_Some, Hl. rewrite lookup_app in Hic.
              destruct (ListNode.inverseChildren n !! g) eqn:E0; [exact Hic|].
              apply lookup_ge_None in E0. apply lookup_lt_Some in Hic. simpl in Hic. lia.
    + destruct (indexFunc (fun x => Equals x.1 cur) (ListNode.children n)) as [i|] eqn:Hi.
      * destruct (ListNode.children n !! i) as [x|] eqn:Hx; simpl; [|discriminate].
        intros Hins; injection Hins as <- <- <-.
        exists (exact x.1). split; [|split; [apply Hc with i; exact Hx|exact HL]].
        intros k Hk. rewrite exact_admits in Hk.
        apply indexFunc_Some in Hi as (x' & Hx' & Hxc). rewrite Hx in Hx'. injection Hx' as <-.
        rewrite <- (sem_Equals _ _ _ Hxc). exact Hk.
      * intros Hins; injection Hins as <- <- <-.
        exists (exact cur). split; [|split; [apply Hfresh|]].
        -- intros k Hk. rewrite exact_admits in Hk. exact Hk.
        -- pose proof (listNodeLabels_mono _ _ (lab ++ [pl ++ [exact cur]]) _ HL
                         (prefix_app_r_snoc _ _)) as (Hc' & Ha' & grp' & Hg' & Hl').
           split; [|split; [exact Ha'|exists grp'; split; [exact Hg'|exact Hl']]].
           simpl. intros j x Hx. rewrite lookup_app in Hx.
           destruct (ListNode.children n !! j) as [x0|] eqn:Hj.
           ++ injection Hx as <-. apply Hc' with j. exact Hj.
           ++ apply lookup_ge_None in Hj.
              destruct (decide (j - length (ListNode.children n) = 0)) as [Hz|Hz];
                [|rewrite lookup_ge_None_2 in Hx by (simpl; lia); discriminate].
              rewrite Hz in Hx. simpl in Hx. injection Hx as <-. simpl. apply Hfresh.
Qed.

Lemma list_find_labels n lab pl k c :
  listNodeLabels Equals sem exact notIn n lab pl ->
  c ∈ specListFindChildren sem n k ->
  exists l, lab !! c = Some (pl ++ [l]) /\ labelAdmits l k = true.
Proof.
  intros (Hc & Ha & grp & (Hwf & Hlt & Hsem & _) & Hl) Hin.
  unfold specListFindChildren in Hin. apply elem_of_app in Hin as [Hin|Hin].
  - apply list_elem_of_In, in_map_iff in Hin as (x & <- & Hx).
    apply list_elem_of_In, list_elem_of_filter in Hx as [Hxk Hx].
    apply list_elem_of_lookup in Hx as (i & Hi).
    exists (exact x.1). split; [apply Hc with i; exact Hi|]. rewrite exact_admits. destruct (sem x.1 k); [reflexivity|contradiction].
  - apply elem_of_app in Hin as [Hin|Hin].
    + destruct (unexcludedGroups_elem _ _ _ Hin) as (g & ic & Hic & -> & Hx).
      exists (notIn (grp g)). split; [apply Hl; exact Hic|].
      rewrite notIn_admits, <- Hsem by (eapply lookup_lt_Some; eassumption).
      unfold listExcl. rewrite Hx. reflexivity.
    + destruct (ListNode.anyChild n) as [c0|] eqn:Hany; simpl in Hin;
        [|apply elem_of_nil in Hin; contradiction].
      apply list_elem_of_singleton in Hin as ->. exists LAny.
      split; [apply Ha; reflexivity|reflexivity].
Qed.

End ListNodeLabels.

(** *** Labels of the nodes of an arena *)

Lemma existsb_elem {A} (f : A -> bool) l x : x ∈ l -> f x = true -> existsb f l = true.
Proof.
  intros Hx Hf. apply existsb_exists. exists x. split; [apply list_elem_of_In; exact Hx|exact Hf].
Qed.

Lemma String_exact_admits v k : labelAdmits (LString v) k = bool_decide (v = kString k).
Proof. apply String_eqb_bool_decide. Qed.

Lemma String_notIn_admits E k :
  labelAdmits (LNotStrings E) k = negb (existsb (fun v => bool_decide (v = kString k)) E).
Proof. simpl. f_equal. apply existsb_fun_ext. intros v. apply String_eqb_bool_decide. Qed.

Lemma Integer_exact_admits v k : labelAdmits (LInteger v) k = bool_decide (v = kInteger k).
Proof. apply Zeqb_bool_decide. Qed.

Lemma Integer_notIn_admits E k :
  labelAdmits (LNotIntegers E) k = negb (existsb (fun v => bool_decide (v = kInteger k)) E).
Proof. simpl. f_equal. apply existsb_fun_ext. intros v. apply Zeqb_bool_decide. Qed.

Lemma integerIntervalSem_Equals u v k :
  IntegerInterval.Equals u v = true -> integerIntervalSem u k = integerIntervalSem v k.
Proof. intros H. apply IntegerInterval_Equals_Contains. exact H. Qed.

Lemma nodeLabels_mono nd lab lab' pl :
  nodeLabels nd lab pl -> lab `prefix_of` lab' -> nodeLabels nd lab' pl.
Proof.
  destruct nd; simpl; intros H Hp; try exact H.
  - eapply mapNodeLabels_mono; eassumption.
  - eapply mapNodeLabels_mono; eassumption.
  - eapply listNodeLabels_mono; eassumption.
Qed.

Lemma nodeSound_mono {T} (R : list (MatchRule T)) tys lab lab' pl nd :
  nodeSound R tys lab pl nd -> lab `prefix_of` lab' -> nodeSound R tys lab' pl nd.
Proof.
  intros H Hp. destruct nd; try exact H;
    (destruct H as [H1 H2]; split; [exact H1|eapply nodeLabels_mono; eassumption]).
Qed.

Lemma nodeSound_rules_mono {T} (R : list (MatchRule T)) rule tys lab pl nd :
  nodeSound R tys lab pl nd -> nodeSound (R ++ [rule]) tys lab pl nd.
Proof.
  destruct nd; try exact id. intros [H1 H2]. split; [exact H1|].
  eapply Forall_impl; [exact H2|]. intros r (rl & Hr & Hm).
  exists rl. split; [apply lookup_app_l_Some; exact Hr|exact Hm].
Qed.

(** A new node of a dimension type, or a new terminal node at full depth. *)
Lemma nodeSound_new {T} (R : list (MatchRule T)) tys lab pl ty :
  (tys !! length pl = Some ty /\ ty <> MatchNone /\ ty <> MatchNumberInterval) \/
  (length pl = length tys /\ ty = MatchNone) ->
  nodeSound R tys lab pl (newMatchNode ty).
Proof.
  intros [(Hty & Hn & Hni)|[Hl ->]].
  - destruct ty; simpl; try congruence; (split; [exact Hty|]).
    + apply mapNodeLabels_empty.
    + apply mapNodeLabels_empty.
    + apply listNodeLabels_empty.
  - simpl. split; [exact Hl|constructor].
Qed.

Lemma soundArena_snoc {T} (R : list (MatchRule T)) tys s lab pl nd :
  soundArena R tys s lab -> nodeSound R tys (lab ++ [pl]) pl nd ->
  soundArena R tys (s ++ [nd]) (lab ++ [pl]).
Proof.
  intros [Hlen Hs] Hnd. split; [rewrite !length_app; simpl; lia|].
  intros i nd0 Hi. rewrite lookup_app in Hi.
  destruct (s !! i) as [nd1|] eqn:Hsi.
  - injection Hi as <-. destruct (Hs i nd1 Hsi) as (pl0 & Hpl & Hsd).
    exists pl0. split; [apply lookup_app_l_Some; exact Hpl|].
    eapply nodeSound_mono; [exact Hsd|apply prefix_app_r_snoc].
  - apply lookup_ge_None in Hsi.
    destruct (decide (i - length s = 0)) as [Hz|Hz];
      [|rewrite lookup_ge_None_2 in Hi by (simpl; lia); discriminate].
    rewrite Hz in Hi. simpl in Hi. injection Hi as <-. exists pl.
    split; [|exact Hnd]. rewrite lookup_app_r by lia.
    replace (i - length lab) with 0 by lia. reflexivity.
Qed.

Lemma soundArena_insert {T} (R : list (MatchRule T)) tys s lab i pl nd :
  soundArena R tys s lab -> i < length s -> lab !! i = Some pl -> nodeSound R tys lab pl nd ->
  soundArena R tys (<[i := nd]> s) lab.
Proof.
  intros [Hlen Hs] Hi Hpl Hnd. split; [rewrite length_insert; exact Hlen|].
  intros j nd0 Hj. destruct (decide (i = j)) as [<-|Hne].
  - rewrite list_lookup_insert_eq in Hj by exact Hi. injection Hj as <-.
    exists pl. split; assumption.
  - rewrite list_lookup_insert_ne in Hj by exact Hne. apply Hs. exact Hj.
Qed.

Lemma soundArena_rules_mono {T} (R : list (MatchRule T)) rule tys s lab :
  soundArena R tys s lab -> soundArena (R ++ [rule]) tys s lab.
Proof.
  intros [Hlen Hs]. split; [exact Hlen|]. intros i nd Hi.
  destruct (Hs i nd Hi) as (pl & Hpl & Hnd). exists pl.
  split; [exact Hpl|apply nodeSound_rules_mono; exact Hnd].
Qed.

(** Inserting pattern [p] into a labelled node of its type. *)
Lemma node_insert_labels nd p lab pl c nd' a :
  nodeLabels nd lab pl -> nodeType nd = pType p -> patOK p ->
  nodeGetOrInsertChild nd p (length lab) = Some (c, nd', a) ->
  exists l, labelImplies l p /\
    (if a then lab ++ [pl ++ [l]] else lab) !! c = Some (pl ++ [l]) /\
    nodeLabels nd' (if a then lab ++ [pl ++ [l]] else lab) pl /\ nodeType nd' = nodeType nd.
Proof.
  intros HL Hty [(Hds & Hdi & Hdn) Hcur] Hins. unfold labelImplies, specPatternAdmits.
  destruct nd as [rs|n|n|n|n]; simpl in HL, Hty, Hins; try discriminate; try contradiction.
  - destruct (MapNode.GetOrInsertChild n _ _ _ _ _) as [[[c0 n'] a0]|] eqn:Hg;
      simpl in Hins; [|discriminate]. injection Hins as <- <- <-.
    destruct (map_insert_labels LString LNotStrings kString String_exact_admits
                String_notIn_admits _ _ _ _ _ _ _ _ _ _ HL (fun _ _ => Hds) Hg)
      as (l & Hadm & Hlk & HL').
    exists l. split; [|split; [exact Hlk|split; [exact HL'|reflexivity]]].
    intros k Hk. specialize (Hadm k Hk). rewrite <- Hty.
    destruct (IsAny p); [reflexivity|]. unfold patCurrentIn in Hcur. rewrite <- Hty in Hcur.
    destruct (IsInverse p).
    + rewrite (existsb_fun_ext _ (fun v => bool_decide (v = kString k))), Hadm;
        [reflexivity|intros v; destruct (String.eqb_spec v (kString k)); case_bool_decide; congruence].
    + apply bool_decide_eq_true in Hadm. apply (existsb_elem _ _ (currentString p)).
      * apply Hcur; reflexivity.
      * rewrite Hadm. apply String.eqb_refl.
  - destruct (MapNode.GetOrInsertChild n _ _ _ _ _) as [[[c0 n'] a0]|] eqn:Hg;
      simpl in Hins; [|discriminate]. injection Hins as <- <- <-.
    destruct (map_insert_labels LInteger LNotIntegers kInteger Integer_exact_admits
                Integer_notIn_admits _ _ _ _ _ _ _ _ _ _ HL (fun _ _ => Hdi) Hg)
      as (l & Hadm & Hlk & HL').
    exists l. split; [|split; [exact Hlk|split; [exact HL'|reflexivity]]].
    intros k Hk. specialize (Hadm k Hk). rewrite <- Hty.
    destruct (IsAny p); [reflexivity|]. unfold patCurrentIn in Hcur. rewrite <- Hty in Hcur.
    destruct (IsInverse p).
    + rewrite (existsb_fun_ext _ (fun v => bool_decide (v = kInteger k))), Hadm;
        [reflexivity|intros v; destruct (Z.eqb_spec v (kInteger k)); case_bool_decide; congruence].
    + apply bool_decide_eq_true in Hadm. apply (existsb_elem _ _ (currentInteger p)).
      * apply Hcur; reflexivity.
      * rewrite Hadm. apply Z.eqb_refl.
  - destruct (ListNode.GetOrInsertChild _ n _ _ _ _ _) as [[[c0 n'] a0]|] eqn:Hg;
      simpl in Hins; [|discriminate]. injection Hins as <- <- <-.
    destruct (list_insert_labels IntegerInterval.Equals integerIntervalSem LInterval LNotIntervals
                IntegerInterval_Equals_refl IntegerInterval_Equals_sym IntegerInterval_Equals_trans
                integerIntervalSem_Equals (fun _ _ => eq_refl) (fun _ _ => eq_refl)
                _ _ _ _ _ _ _ _ _ _ HL (fun _ _ => Hdn) Hg)
      as (l & Hadm & Hlk & HL').
    exists l. split; [|split; [exact Hlk|split; [exact HL'|reflexivity]]].
    intros k Hk. specialize (Hadm k Hk). rewrite <- Hty.
    destruct (IsAny p); [reflexivity|]. unfold patCurrentIn in Hcur. rewrite <- Hty in Hcur.
    destruct (IsInverse p).
    + unfold integerIntervalSem in Hadm. rewrite Hadm. reflexivity.
    + apply (existsb_elem _ _ (currentIntegerInterval p)); [apply Hcur; reflexivity|exact Hadm].
Qed.

Lemma node_find_labels nd lab pl k c cs :
  nodeLabels nd lab pl -> specFindChildren nd k = Some cs -> c ∈ cs ->
  exists l, lab !! c = Some (pl ++ [l]) /\ labelAdmits l k = true.
Proof.
  intros HL Hf Hc. destruct nd as [rs|n|n|n|n]; simpl in HL, Hf; try discriminate; try contradiction;
    injection Hf as <-.
  - exact (map_find_labels LString LNotStrings kString String_exact_admits String_notIn_admits
             _ _ _ _ _ HL Hc).
  - exact (map_find_labels LInteger LNotIntegers kInteger Integer_exact_admits Integer_notIn_admits
             _ _ _ _ _ HL Hc).
  - exact (list_find_labels IntegerInterval.Equals integerIntervalSem LInterval LNotIntervals
             (fun _ _ => eq_refl) (fun _ _ => eq_refl) _ _ _ _ _ HL Hc).
Qed.

Lemma nodeSound_inner {T} (R : list (MatchRule T)) tys lab pl nd :
  nodeType nd <> MatchNone ->
  nodeSound R tys lab pl nd <-> tys !! length pl = Some (nodeType nd) /\ nodeLabels nd lab pl.
Proof. destruct nd; simpl; tauto. Qed.

(** [GetOrInsertChild] on a labelled arena: the child's path is the
    node's path extended by a label implying the pattern. *)
Lemma GetOrInsertChild_sound {T} (R : list (MatchRule T)) tys s lab id pl p ty c s' :
  soundArena R tys s lab -> lab !! id = Some pl -> tys !! length pl = Some (pType p) ->
  patOK p ->
  (tys !! S (length pl) = Some ty /\ ty <> MatchNone /\ ty <> MatchNumberInterval) \/
  (S (length pl) = length tys /\ ty = MatchNone) ->
  GetOrInsertChild s id p ty = Some (c, s') ->
  exists lab' l, soundArena R tys s' lab' /\ lab `prefix_of` lab' /\
    lab' !! c = Some (pl ++ [l]) /\ labelImplies l p.
Proof.
  intros HS Hpl Htyp Hp Hty. pose proof HS as [Hlen Hs]. unfold GetOrInsertChild.
  destruct (s !! id) as [nd|] eqn:Hid; simpl; [|discriminate].
  destruct (Hs id nd Hid) as (pl0 & Hpl0 & Hnd). rewrite Hpl in Hpl0. injection Hpl0 as <-.
  destruct (nodeGetOrInsertChild nd p (length s)) as [[[c0 nd'] a]|] eqn:Hn; [|discriminate].
  assert (Hnn : nodeType nd <> MatchNone) by (destruct nd; simpl in Hn |- *; congruence).
  apply (nodeSound_inner _ _ _ _ _ Hnn) in Hnd as [Hty0 HL].
  rewrite Htyp in Hty0. injection Hty0 as Hty0. rewrite <- Hlen in Hn.
  destruct (node_insert_labels _ _ _ _ _ _ _ HL (eq_sym Hty0) Hp Hn)
    as (l & Himp & Hlk & HL' & Hty').
  assert (Hnd' : nodeSound R tys (if a then lab ++ [pl ++ [l]] else lab) pl nd').
  { apply nodeSound_inner; [congruence|]. split; [rewrite Hty', <- Hty0; exact Htyp|exact HL']. }
  destruct a; intros H; injection H as <- <-.
  - exists (lab ++ [pl ++ [l]]), l.
    split; [|split; [apply prefix_app_r_snoc|split; [exact Hlk|exact Himp]]].
    assert (Hidl : id < length s) by (eapply lookup_lt_Some; exact Hid).
    rewrite <- insert_app_l by exact Hidl.
    eapply soundArena_insert; [| rewrite length_app; simpl; lia
                               | apply lookup_app_l_Some; exact Hpl | exact Hnd'].
    apply soundArena_snoc; [exact HS|].
    apply nodeSound_new. rewrite length_app. simpl. rewrite Nat.add_1_r.
    destruct Hty as [(H1 & H2 & H3)|[H1 H2]]; [left; auto|right; auto].
  - exists lab, l. split; [|split; [reflexivity|split; [exact Hlk|exact Himp]]].
    eapply soundArena_insert; [exact HS|eapply lookup_lt_Some; exact Hid|exact Hpl|exact Hnd'].
Qed.

Lemma drop_cons_inv {A} (l rest : list A) n x :
  drop n l = x :: rest -> l !! n = Some x /\ drop (S n) l = rest.
Proof.
  intros H. split.
  - rewrite <- (Nat.add_0_r n), <- lookup_drop, H. reflexivity.
  - replace (S n) with (n + 1) by lia. rewrite <- drop_drop, H. reflexivity.
Qed.

Lemma tysOK_lookup tys i ty :
  tysOK tys -> tys !! i = Some ty -> ty <> MatchNone /\ ty <> MatchNumberInterval.
Proof. intros Hok Hi. exact (Forall_lookup_1 _ _ _ _ Hok Hi). Qed.

(** The path [walkPath] follows: the leaf's path extends the start node's
    path by one label per pattern, each implying its pattern. *)
Lemma walkPath_sound {T} (R : list (MatchRule T)) tys ps : forall s lab node pl lp leaf s',
  tysOK tys -> soundArena R tys s lab -> lab !! node = Some pl ->
  drop (length pl) tys = map pType (lp :: ps) -> Forall patOK (lp :: ps) ->
  walkPath s node lp ps = Some (leaf, s') ->
  exists lab' L, soundArena R tys s' lab' /\ lab `prefix_of` lab' /\
    lab' !! leaf = Some (pl ++ L) /\ Forall2 labelImplies L (lp :: ps).
Proof.
  induction ps as [|q ps IH]; intros s lab node pl lp leaf s' Hok HS Hpl Hdrop Hp Hw;
    simpl in Hw; apply drop_cons_inv in Hdrop as [Hty Hdrop];
    apply Forall_cons in Hp as [Hlp Hp].
  - destruct (GetOrInsertChild_sound R tys s lab node pl lp MatchNone leaf s' HS Hpl Hty Hlp)
      as (lab' & l & HS' & Hpre & Hlk & Himp); [|exact Hw|].
    + right. split; [|reflexivity].
      pose proof (f_equal length Hdrop) as Hlen. rewrite length_drop in Hlen. simpl in Hlen.
      apply lookup_lt_Some in Hty. lia.
    + exists lab', [l]. split; [exact HS'|split; [exact Hpre|split; [exact Hlk|]]].
      constructor; [exact Himp|constructor].
  - destruct (GetOrInsertChild s node lp (pType q)) as [[c s1]|] eqn:Hg; simpl in Hw;
      [|discriminate].
    apply drop_cons_inv in Hdrop as Hq. destruct Hq as [Hq _].
    destruct (GetOrInsertChild_sound R tys s lab node pl lp (pType q) c s1 HS Hpl Hty Hlp)
      as (lab1 & l & HS1 & Hpre1 & Hlk1 & Himp1); [|exact Hg|].
    + left. split; [exact Hq|]. exact (tysOK_lookup _ _ _ Hok Hq).
    + destruct (IH s1 lab1 c (pl ++ [l]) q leaf s' Hok HS1 Hlk1) as (lab' & L & HS' & Hpre & Hlk & HL).
      * rewrite length_app. simpl. rewrite Nat.add_1_r. exact Hdrop.
      * exact Hp.
      * exact Hw.
      * exists lab', (l :: L). split; [exact HS'|split; [etrans; eassumption|split]].
        -- rewrite Hlk, <- app_assoc. reflexivity.
        -- constructor; assumption.
Qed.

Lemma labelsAdmit_implies L ps keys :
  Forall2 labelImplies L ps -> labelsAdmit L keys = true -> specPatternsAdmit ps keys = true.
Proof.
  intros HL. revert keys. induction HL as [|l p L ps Hl HL IH]; intros [|k keys]; simpl;
    try discriminate; [reflexivity|].
  intros H. apply andb_true_iff in H as [H1 H2]. rewrite (Hl k H1). simpl. apply IH. exact H2.
Qed.

Lemma labelsAdmit_length pl keys : labelsAdmit pl keys = true -> length pl = length keys.
Proof.
  revert keys. induction pl as [|l pl IH]; intros [|k keys]; simpl; try discriminate; [reflexivity|].
  intros H. apply andb_true_iff in H as [_ H]. f_equal. apply IH. exact H.
Qed.

Lemma labelsAdmit_snoc pl keys l k :
  length pl = length keys ->
  labelsAdmit (pl ++ [l]) (keys ++ [k]) = labelsAdmit pl keys && labelAdmits l k.
Proof.
  revert keys. induction pl as [|l0 pl IH]; intros [|k0 keys]; simpl; try discriminate.
  - intros _. rewrite andb_true_r. reflexivity.
  - intros H. injection H as H. rewrite IH by exact H. rewrite andb_assoc. reflexivity.
Qed.

(** [AddResult] on a terminal node whose path admits only keys the rule
    matches. *)
Lemma AddResult_sound {T} (R : list (MatchRule T)) tys s lab leaf pl r rule s' :
  soundArena R tys s lab -> lab !! leaf = Some pl -> R !! ValueIndex r = Some rule ->
  (forall keys, labelsAdmit pl keys = true -> specRuleMatches rule keys = true) ->
  AddResult s leaf r = Some s' -> soundArena R tys s' lab.
Proof.
  intros HS Hpl Hr Hm. pose proof HS as [Hlen Hs]. unfold AddResult.
  destruct (s !! leaf) as [nd|] eqn:Hid; simpl; [|discriminate].
  destruct nd as [rs| | | |]; try discriminate. intros H; injection H as <-.
  destruct (Hs leaf _ Hid) as (pl0 & Hpl0 & [Hl HF]). rewrite Hpl in Hpl0. injection Hpl0 as <-.
  eapply soundArena_insert; [exact HS|eapply lookup_lt_Some; exact Hid|exact Hpl|].
  split; [exact Hl|]. apply Forall_app_2; [exact HF|].
  constructor; [|constructor]. exists rule. split; assumption.
Qed.

Lemma soundArena_nil {T} (R : list (MatchRule T)) tys : soundArena R tys [] [].
Proof. split; [reflexivity|]. intros i nd Hi. rewrite lookup_nil in Hi. discriminate. Qed.

(** [doAddRule] with patterns of the tree's types, each admitting only
    what the rule's pattern at its position admits. *)
Lemma doAddRule_sound {T} (R : list (MatchRule T)) (t t' : MatchTree T) lab ps vi prio rule :
  tysOK (types t) -> soundTree t R lab -> map pType ps = types t -> Forall patOK ps ->
  R !! vi = Some rule ->
  (forall keys, specPatternsAdmit ps keys = true -> specRuleMatches rule keys = true) ->
  doAddRule t ps vi prio = Some t' ->
  types t' = types t /\ values t' = values t /\ exists lab', soundTree t' R lab'.
Proof.
  intros Hok [HS Hroot] Hty Hp Hr Hm. unfold doAddRule.
  assert (Hr1 : exists r t1 lab1, getOrInsertRoot t
              (match ps with p :: _ => pType p | [] => MatchNone end) = (r, t1) /\
            types t1 = types t /\ values t1 = values t /\ root t1 = Some r /\
            soundArena R (types t) (nodes t1) lab1 /\ lab1 !! r = Some []).
  { unfold getOrInsertRoot. destruct (root t) as [r|] eqn:Hrt.
    - exists r, t, lab. split; [reflexivity|split; [reflexivity|split; [reflexivity|]]].
      split; [first [exact Hrt|reflexivity]|split; [exact HS|apply Hroot; first [exact Hrt|reflexivity]]].
    - eexists _, _, (lab ++ [[]]). split; [reflexivity|]. simpl.
      split; [reflexivity|split; [reflexivity|split; [reflexivity|split]]].
      + apply soundArena_snoc; [exact HS|]. apply nodeSound_new.
        destruct ps as [|p ps]; simpl in Hty.
        * right. rewrite <- Hty. split; reflexivity.
        * left. assert (H0 : types t !! 0 = Some (pType p)) by (rewrite <- Hty; reflexivity).
          split; [exact H0|]. exact (tysOK_lookup _ _ _ Hok H0).
      + destruct HS as [Hlen _]. rewrite lookup_app_r by lia. rewrite Hlen, Nat.sub_diag.
        reflexivity. }
  destruct Hr1 as (r & t1 & lab1 & -> & Hty1 & Hv1 & Hrt1 & HS1 & Hl1).
  destruct (match ps with | [] => Some (r, nodes t1) | p :: ps => walkPath (nodes t1) r p ps end)
    as [[leaf s]|] eqn:Hw; simpl; [|discriminate].
  assert (Hleaf : exists lab2 L, soundArena R (types t) s lab2 /\ lab1 `prefix_of` lab2 /\
             lab2 !! leaf = Some L /\ forall keys, labelsAdmit L keys = true ->
             specRuleMatches rule keys = true).
  { destruct ps as [|p ps].
    - injection Hw as <- <-. exists lab1, []. split; [exact HS1|split; [reflexivity|]].
      split; [exact Hl1|]. intros [|k keys] H; [|discriminate]. apply Hm. reflexivity.
    - destruct (walkPath_sound R (types t) ps (nodes t1) lab1 r [] p leaf s Hok HS1 Hl1)
        as (lab2 & L & HS2 & Hpre & Hlk & HL); [simpl; symmetry; exact Hty|exact Hp|exact Hw|].
      exists lab2, L. split; [exact HS2|split; [exact Hpre|split; [exact Hlk|]]].
      intros keys HLk. apply Hm. eapply labelsAdmit_implies; eassumption. }
  destruct Hleaf as (lab2 & L & HS2 & Hpre & Hlk & HL).
  destruct (AddResult s leaf _) as [s'|] eqn:Ha; simpl; [|discriminate].
  intros H; injection H as <-. simpl.
  split; [exact Hty1|split; [exact Hv1|]]. exists lab2. split.
  - unfold soundTree; simpl. rewrite Hty1. eapply AddResult_sound; [exact HS2|exact Hlk| |exact HL|exact Ha]. exact Hr.
  - simpl. rewrite Hrt1. intros r' H; injection H as <-.
    eapply prefix_lookup_Some; eassumption.
Qed.

Lemma specPatternsAdmit_swap pre p q rest keys :
  (forall k, specPatternAdmits q k = specPatternAdmits p k) ->
  specPatternsAdmit (pre ++ q :: rest) keys = specPatternsAdmit (pre ++ p :: rest) keys.
Proof.
  intros H. revert keys. induction pre as [|x pre IH]; intros [|k keys]; simpl; try reflexivity.
  - rewrite H. reflexivity.
  - rewrite IH. reflexivity.
Qed.

Lemma forEach_inv {T A} (Q : MatchTree T -> Prop) (f : A -> MatchTree T -> option (MatchTree T)) vs :
  (forall v t t', In v vs -> Q t -> f v t = Some t' -> Q t') ->
  forall t t', Q t -> forEach f vs t = Some t' -> Q t'.
Proof.
  induction vs as [|v vs IH]; intros Hf t t' Ht; simpl.
  - intros H; injection H as <-. exact Ht.
  - destruct (f v t) as [t1|] eqn:H1; simpl; [|discriminate].
    apply IH; [intros; eapply Hf; eauto using in_cons|].
    eapply Hf; [left; reflexivity|exact Ht|exact H1].
Qed.

(** [walkPatterns] keeps the types and values and the labelling, when
    every expanded pattern list admits only keys the rule matches. *)
Lemma walkPatterns_sound {T} (R : list (MatchRule T)) rule vi prio rest :
  forall pre (t t' : MatchTree T) tys vals,
  types t = tys -> values t = vals -> tysOK tys -> R !! vi = Some rule ->
  map pType (pre ++ rest) = tys -> Forall patOK pre -> Forall patDistinct rest ->
  (forall keys, specPatternsAdmit (pre ++ rest) keys = true -> specRuleMatches rule keys = true) ->
  (exists lab, soundTree t R lab) ->
  walkPatterns pre rest vi prio t = Some t' ->
  types t' = tys /\ values t' = vals /\ exists lab, soundTree t' R lab.
Proof.
  induction rest as [|p rest IH];
    intros pre t t' tys vals Hty Hv Hok Hr Hmap Hpre Hrest Hm [lab Hs]; simpl.
  - rewrite app_nil_r in Hmap, Hm. intros Hd. subst.
    exact (doAddRule_sound R t t' lab pre vi prio rule Hok Hs Hmap Hpre Hr Hm Hd).
  - apply Forall_cons in Hrest as [Hdp Hrest].
    assert (Hcase : forall q, pType q = pType p -> patOK q ->
              (forall k, specPatternAdmits q k = specPatternAdmits p k) ->
              forall t0 t0', types t0 = tys -> values t0 = vals -> (exists lab, soundTree t0 R lab) ->
              walkPatterns (pre ++ [q]) rest vi prio t0 = Some t0' ->
              types t0' = tys /\ values t0' = vals /\ exists lab, soundTree t0' R lab).
    { intros q Hq Hqok Hqa t0 t0' Ht0 Hv0 Hs0.
      apply (IH (pre ++ [q]) t0 t0' tys vals Ht0 Hv0 Hok Hr).
      - rewrite <- app_assoc. simpl. rewrite <- Hmap, !map_app. simpl. rewrite Hq. reflexivity.
      - apply Forall_app_2; [exact Hpre|constructor; [exact Hqok|constructor]].
      - exact Hrest.
      - intros keys. rewrite <- app_assoc. simpl.
        rewrite (specPatternsAdmit_swap pre p q rest keys Hqa). apply Hm.
      - exact Hs0. }
    assert (Hpin : pType p ∈ tys).
    { rewrite <- Hmap, map_app. apply elem_of_app. right. left. }
    assert (Hinv : forall (Q : MatchTree T -> Prop) A (vs : list A) f,
              Q = (fun t0 => types t0 = tys /\ values t0 = vals /\ exists lab, soundTree t0 R lab) ->
              (forall v t0 t0', In v vs -> Q t0 -> f v t0 = Some t0' -> Q t0') ->
              forEach f vs t = Some t' -> Q t').
    { intros Q A vs f -> Hf Hfe. refine (forEach_inv _ f vs Hf t t' _ Hfe).
      split; [exact Hty|split; [exact Hv|exists lab; exact Hs]]. }
    destruct (IsAny p) eqn:Ha.
    { apply Hcase; auto; [|exists lab; exact Hs]. split; [exact Hdp|congruence]. }
    destruct (IsInverse p) eqn:Hi.
    { apply Hcase; auto; [|exists lab; exact Hs]. split; [exact Hdp|congruence]. }
    destruct (pType p) eqn:Htp.
    + discriminate.
    + apply (Hinv _ _ _ _ eq_refl). intros v t0 t0' Hin (Ht0 & Hv0 & Hs0).
      apply (Hcase (setCurrentString p v)); auto.
      split; [exact Hdp|]. intros _ _. unfold patCurrentIn. simpl. rewrite Htp.
      apply list_elem_of_In. exact Hin.
    + apply (Hinv _ _ _ _ eq_refl). intros v t0 t0' Hin (Ht0 & Hv0 & Hs0).
      apply (Hcase (setCurrentInteger p v)); auto.
      split; [exact Hdp|]. intros _ _. unfold patCurrentIn. simpl. rewrite Htp.
      apply list_elem_of_In. exact Hin.
    + apply (Hinv _ _ _ _ eq_refl). intros v t0 t0' Hin (Ht0 & Hv0 & Hs0).
      apply (Hcase (setCurrentIntegerInterval p v)); auto.
      split; [exact Hdp|]. intros _ _. unfold patCurrentIn. simpl. rewrite Htp.
      apply list_elem_of_In. exact Hin.
    + exfalso. unfold tysOK in Hok. rewrite Forall_forall in Hok.
      destruct (Hok _ Hpin) as [_ Hni]. apply Hni. reflexivity.
Qed.

Lemma existsb_cloneWith {A} (eqb : A -> A -> bool) (f : A -> bool) clone s :
  (forall u v, eqb u v = true -> f u = f v) ->
  existsb f (cloneWith eqb clone s) = existsb f clone || existsb f s.
Proof.
  intros Hc. revert clone. induction s as [|v s IH]; intros clone; simpl.
  - rewrite orb_false_r. reflexivity.
  - destruct (existsb (eqb v) clone) eqn:Hex; rewrite IH.
    + apply existsb_exists in Hex as (u & Hu & Hvu).
      destruct (f v) eqn:Hfv; simpl; [|reflexivity].
      assert (Hfc : existsb f clone = true).
      { apply existsb_exists. exists u. split; [exact Hu|]. rewrite <- (Hc v u Hvu). exact Hfv. }
      rewrite Hfc. reflexivity.
    + rewrite existsb_app. simpl. rewrite orb_false_r, orb_assoc. reflexivity.
Qed.

Lemma specPatternAdmits_clone p k :
  pType p <> MatchNumberInterval -> specPatternAdmits (clonePattern p) k = specPatternAdmits p k.
Proof.
  intros Hn. unfold specPatternAdmits. simpl. destruct (IsAny p); [reflexivity|].
  destruct (pType p); try reflexivity.
  - unfold cloneStrings. rewrite existsb_cloneWith; [reflexivity|].
    intros u v H. apply bool_decide_eq_true in H. subst. reflexivity.
  - unfold cloneIntegers. rewrite existsb_cloneWith; [reflexivity|].
    intros u v H. apply Z.eqb_eq in H. subst. reflexivity.
  - unfold cloneIntegerIntervals. rewrite existsb_cloneWith; [reflexivity|].
    intros u v H. apply IntegerInterval_Equals_Contains. exact H.
  - contradiction.
Qed.

Lemma specPatternsAdmit_clone ps keys :
  Forall (fun p => pType p <> MatchNumberInterval) ps ->
  specPatternsAdmit (map clonePattern ps) keys = specPatternsAdmit ps keys.
Proof.
  intros Hps. revert keys. induction Hps as [|p ps Hp Hps IH]; intros [|k keys]; simpl;
    try reflexivity.
  rewrite specPatternAdmits_clone by exact Hp. rewrite IH. reflexivity.
Qed.

Lemma patDistinct_clone p : patDistinct (clonePattern p).
Proof.
  split; [|split]; simpl.
  - apply cloneWith_distinct; [|exact I]. intros u v. apply bool_decide_ext. split; congruence.
  - unfold cloneIntegers. apply (distinctBy_ext Z.eqb); [apply Zeqb_bool_decide|].
    apply cloneWith_distinct; [|exact I].
    intros u v. rewrite !Zeqb_bool_decide. apply bool_decide_ext. split; congruence.
  - apply cloneWith_distinct; [apply IntegerInterval_Equals_sym|exact I].
Qed.

Lemma AddRule_types_match {T} (t : MatchTree T) (rule : MatchRule T) :
  negb (Nat.eqb (length (Patterns rule)) (length (types t))) = false ->
  firstTypeMismatch (types t) (map pType (Patterns rule)) = None ->
  map pType (Patterns rule) = types t.
Proof.
  intros Hlen Hm. apply negb_false_iff, Nat.eqb_eq in Hlen.
  apply (list_eq_same_length _ _ (length (types t))); [reflexivity|rewrite length_map; lia|].
  intros i a b _ Ha Hb. symmetry. eapply firstTypeMismatch_None; eassumption.
Qed.

(** A successful [AddRule] keeps the labelling, for the rule list extended
    by the rule. *)
Lemma AddRule_sound {T} (R : list (MatchRule T)) (t t' : MatchTree T) lab rule :
  tysOK (types t) -> values t = map Value R -> soundTree t R lab ->
  AddRule t rule = Some (t', None) ->
  types t' = types t /\ values t' = map Value (R ++ [rule]) /\
  exists lab', soundTree t' (R ++ [rule]) lab'.
Proof.
  intros Hok Hv [HS Hroot]. unfold AddRule.
  destruct (negb _) eqn:Hlen; [intros H; injection H as _ H; discriminate|].
  destruct (firstTypeMismatch _ _) as [[x y]|] eqn:Hmis; [intros H; injection H as _ H; discriminate|].
  destruct (walkPatterns _ _ _ _ _) as [t2|] eqn:Hw; simpl; [|discriminate].
  intros H; injection H as <-.
  pose proof (AddRule_types_match t rule Hlen Hmis) as Hty.
  destruct (walkPatterns_sound (R ++ [rule]) rule (length (values t)) (RulePriority rule)
              (map clonePattern (Patterns rule)) []
              (mkMatchTree (types t) (values t ++ [Value rule]) (root t) (nodes t)) t2 (types t) (values t ++ [Value rule])
              eq_refl eq_refl Hok) as (H1 & H2 & H3).
  - rewrite Hv, length_map. apply list_lookup_middle. reflexivity.
  - simpl. rewrite map_map. exact Hty.
  - constructor.
  - apply Forall_map, Forall_forall. intros q _. apply patDistinct_clone.
  - intros keys Hk. unfold specRuleMatches. simpl in Hk. rewrite specPatternsAdmit_clone in Hk.
    + exact Hk.
    + apply Forall_forall. intros q Hq. unfold tysOK in Hok. rewrite Forall_forall in Hok.
      apply Hok. rewrite <- Hty. apply list_elem_of_In, in_map, list_elem_of_In. exact Hq.
  - exists lab. split; simpl; [apply soundArena_rules_mono; exact HS|exact Hroot].
  - exact Hw.
  - split; [exact H1|split; [rewrite H2, Hv, map_app; reflexivity|exact H3]].
Qed.

Lemma AddRule_error {T} (t t' : MatchTree T) rule e :
  AddRule t rule = Some (t', Some e) -> t' = t.
Proof.
  unfold AddRule.
  destruct (negb _); [intros H; injection H as <- _; reflexivity|].
  destruct (firstTypeMismatch _ _) as [[x y]|]; [intros H; injection H as <- _; reflexivity|].
  destruct (walkPatterns _ _ _ _ _); simpl; [|discriminate]. intros H; injection H as _ H; discriminate.
Qed.

Lemma builtFrom_reachable {T} (t : MatchTree T) R : builtFrom t R -> reachable t.
Proof.
  induction 1 as [tys t Hnew|t R rule t' Hb IH Hadd|t R rule t' e Hb IH Hadd].
  - eapply reachable_new; exact Hnew.
  - eapply reachable_add; [exact IH|exact Hadd].
  - eapply reachable_add; [exact IH|exact Hadd].
Qed.

(** A built tree holds the values of the rules added, and is labelled
    soundly for them. *)
Lemma builtFrom_sound {T} (t : MatchTree T) R :
  builtFrom t R -> tysOK (types t) -> values t = map Value R /\ exists lab, soundTree t R lab.
Proof.
  induction 1 as [tys t Hnew|t R rule t' Hb IH Hadd|t R rule t' e Hb IH Hadd]; intros Hok.
  - unfold NewMatchTree in Hnew. destruct (decide _); [discriminate|]. injection Hnew as <-.
    split; [reflexivity|]. exists []. split; [apply soundArena_nil|]. simpl. discriminate.
  - destruct (reachable_wf t (builtFrom_reachable t R Hb)) as [Hnone _].
    destruct (AddRule_grows t t' rule None Hnone Hadd) as [[Hc _]|(_ & Hty & _)];
      [contradiction|].
    rewrite Hty in Hok. destruct (IH Hok) as [Hv [lab Hs]].
    destruct (AddRule_sound R t t' lab rule Hok Hv Hs Hadd) as (_ & Hv' & Hs').
    split; assumption.
  - apply AddRule_error in Hadd. subst t'. apply IH. exact Hok.
Qed.

(** The children [FindChildren] returns for a key carry the parent's path
    extended by a label admitting the key. *)
Lemma FindChildren_labels {T} (R : list (MatchRule T)) tys s lab n pl key done :
  soundArena R tys s lab -> arenaOK s -> lab !! n = Some pl -> labelsAdmit pl done = true ->
  length done < length tys ->
  exists cs, FindChildren s n key = Some cs /\
    forall c, c ∈ cs -> exists pl', lab !! c = Some pl' /\ labelsAdmit pl' (done ++ [key]) = true.
Proof.
  intros [Hlen Hs] Hok Hpl Hadm Hlt.
  destruct (s !! n) as [nd|] eqn:Hn.
  2: { apply lookup_ge_None in Hn. apply lookup_lt_Some in Hpl. lia. }
  destruct (Hs n nd Hn) as (pl0 & Hpl0 & Hnd). rewrite Hpl in Hpl0. injection Hpl0 as <-.
  pose proof (labelsAdmit_length _ _ Hadm) as Hl.
  destruct (Forall_lookup_1 _ _ _ _ Hok Hn) as [[rs ->]|[ty Hst]].
  { destruct Hnd as [Hl' _]. lia. }
  rewrite (FindChildren_grown ty nd s n key Hst Hn).
  assert (Hnn : nodeType nd <> MatchNone).
  { destruct nd as [rs|n0|n0|n0|n0]; simpl; try discriminate. destruct Hnd as [Hl' _]. lia. }
  apply (nodeSound_inner _ _ _ _ _ Hnn) in Hnd as [_ HL].
  destruct (specFindChildren nd key) as [cs|] eqn:Hf.
  2: { destruct nd; simpl in Hf; try discriminate. contradiction. }
  exists cs. split; [reflexivity|]. intros c Hc.
  destruct (node_find_labels nd lab pl key c cs HL Hf Hc) as (l & Hlc & Hla).
  exists (pl ++ [l]). split; [exact Hlc|]. rewrite labelsAdmit_snoc by exact Hl.
  rewrite Hadm, Hla. reflexivity.
Qed.

Lemma searchLayer_sound {T} (R : list (MatchRule T)) tys s lab key done ns :
  soundArena R tys s lab -> arenaOK s -> length done < length tys ->
  (forall n, n ∈ ns -> exists pl, lab !! n = Some pl /\ labelsAdmit pl done = true) ->
  exists ns', searchLayer s key ns = Some ns' /\
    forall c, c ∈ ns' -> exists pl, lab !! c = Some pl /\ labelsAdmit pl (done ++ [key]) = true.
Proof.
  intros HS Hok Hlt Hns. unfold searchLayer.
  assert (H : exists css, mapM (fun n => FindChildren s n key) ns = Some css /\
            forall c, c ∈ concat css ->
              exists pl, lab !! c = Some pl /\ labelsAdmit pl (done ++ [key]) = true).
  { induction ns as [|n ns IH]; simpl.
    - exists []. split; [reflexivity|]. intros c Hc. apply elem_of_nil in Hc. contradiction.
    - destruct (Hns n) as (pl & Hpl & Hadm); [constructor|].
      destruct (FindChildren_labels R tys s lab n pl key done HS Hok Hpl Hadm Hlt)
        as (cs & Hf & Hcs).
      destruct IH as (css & Hm & Hcss).
      { intros m Hm. apply Hns. constructor. exact Hm. }
      rewrite Hf, Hm. simpl. exists (cs :: css). split; [reflexivity|].
      intros c Hc. simpl in Hc. apply elem_of_app in Hc as [Hc|Hc]; [apply Hcs|apply Hcss]; exact Hc. }
  destruct H as (css & Hm & Hc). rewrite Hm. simpl. exists (concat css). split; [reflexivity|exact Hc].
Qed.

(** The nodes [searchNodes] reaches carry paths admitting the keys
    consumed. *)
Lemma searchNodes_sound {T} (R : list (MatchRule T)) tys s lab keys : forall done ns,
  soundArena R tys s lab -> arenaOK s -> length done + length keys = length tys ->
  (forall n, n ∈ ns -> exists pl, lab !! n = Some pl /\ labelsAdmit pl done = true) ->
  exists ns', searchNodes s keys ns = Some ns' /\
    forall n, n ∈ ns' -> exists pl, lab !! n = Some pl /\ labelsAdmit pl (done ++ keys) = true.
Proof.
  induction keys as [|k keys IH]; intros done ns HS Hok Hlen Hns; simpl.
  - exists ns. split; [reflexivity|]. rewrite app_nil_r. exact Hns.
  - simpl in Hlen. destruct (searchLayer_sound R tys s lab k done ns HS Hok) as (ns1 & Hl & H1);
      [lia|exact Hns|].
    rewrite Hl. simpl.
    destruct (IH (done ++ [k]) ns1 HS Hok) as (ns' & Hs' & H'); [rewrite length_app; simpl; lia|exact H1|].
    exists ns'. split; [exact Hs'|]. rewrite <- app_assoc in H'. exact H'.
Qed.

Lemma Search_sound {T} (t : MatchTree T) R keys :
  builtFrom t R -> Forall (fun ty => ty <> MatchNumberInterval) (types t) ->
  length keys = length (types t) -> firstTypeMismatch (types t) (map kType keys) = None ->
  forallb (fun r => negb (specRuleMatches r keys)) R = true ->
  Search t keys = Some ([], None).
Proof.
  intros Hb Hni Hlen Hty Hno.
  pose proof (builtFrom_reachable t R Hb) as Hr.
  destruct (reachable_wf t Hr) as [Hnone Hwf].
  assert (Hok : tysOK (types t)).
  { unfold tysOK. rewrite Forall_forall in Hni |- *. intros ty Hin.
    split; [intros ->; contradiction|exact (Hni ty Hin)]. }
  destruct (builtFrom_sound t R Hb Hok) as [Hv [lab [HS Hroot]]].
  unfold Search. rewrite Hlen, Nat.eqb_refl, Hty. simpl.
  destruct (searchNodes_sound R (types t) (nodes t) lab keys []
              (match root t with Some r => [r] | None => [] end) HS (reachable_ok t Hr))
    as (ns & Hs & Hns).
  - simpl. exact Hlen.
  - intros n Hn. destruct (root t) as [r|] eqn:Hrt; [|apply elem_of_nil in Hn; contradiction].
    apply list_elem_of_singleton in Hn. subst n. exists []. split; [apply Hroot; reflexivity|].
    reflexivity.
  - rewrite Hs. destruct ns as [|n ns]; [reflexivity|]. exfalso.
    destruct (Hns n) as (pl & Hpl & Hadm); [constructor|]. simpl in Hadm.
    pose proof HS as [Hl Hs']. destruct (nodes t !! n) as [nd|] eqn:Hn.
    2: { apply lookup_ge_None in Hn. apply lookup_lt_Some in Hpl. lia. }
    destruct (Hs' n nd Hn) as (pl0 & Hpl0 & Hnd). rewrite Hpl in Hpl0. injection Hpl0 as <-.
    pose proof (labelsAdmit_length _ _ Hadm) as Hpk.
    destruct nd as [rs| | | |];
      try (destruct Hnd as [Htp _]; apply lookup_lt_Some in Htp; lia).
    destruct Hnd as [_ HF]. destruct (Hwf n rs Hn) as [Hne _].
    destruct rs as [|r rs]; [contradiction|].
    apply Forall_cons in HF as [(rule & Hrule & Hm) _].
    specialize (Hm keys Hadm).
    rewrite forallb_forall in Hno.
    specialize (Hno rule (proj1 (list_elem_of_In _ _) (list_elem_of_lookup_2 _ _ _ Hrule))).
    rewrite Hm in Hno. discriminate.
Qed.

(** X11. For every key list of the tree's shape, [Search] returns an empty
    result and no error on a reachable tree to which no rule was added, and
    on a tree built by [NewMatchTree] and [AddRule] calls with no
    number-interval dimension when no rule added (by a call that returned no
    error) matches the keys.  A rule matches when each pattern admits its
    key: a wildcard any key, an exact pattern a key equal to one of its
    values (contained in one, for intervals), an inverse pattern a key none
    of its values admits. *)
Theorem Search_empty_result {T} :
  (forall (t : MatchTree T) keys,
     reachable t -> values t = [] ->
     length keys = length (types t) -> firstTypeMismatch (types t) (map kType keys) = None ->
     Search t keys = Some ([], None)) /\
  (forall (t : MatchTree T) R keys,
     builtFrom t R -> Forall (fun ty => ty <> MatchNumberInterval) (types t) ->
     length keys = length (types t) -> firstTypeMismatch (types t) (map kType keys) = None ->
     forallb (fun r => negb (specRuleMatches r keys)) R = true ->
     Search t keys = Some ([], None)).
Proof. split; [exact (@Search_no_rules T)|exact (@Search_sound T)]. Qed.

Lemma Search_empty_result_witness :
  Search (emptyTree [MatchString; MatchInteger] : MatchTree string)
    [stringKey "admin"; integerKey 7] = Some ([], None) /\
  Search cartesianTree [stringKey "c"; integerKey 1] = Some ([], None).
Proof.
  split.
  - apply (proj1 (@Search_empty_result string)).
    + apply (reachable_new [MatchString; MatchInteger]). reflexivity.
    + reflexivity.
    + reflexivity.
    + reflexivity.
  - apply (proj2 (@Search_empty_result string) cartesianTree cartesianRules).
    + change cartesianRules with ([] ++ [hd (mkMatchRule [] "V" 0) cartesianRules]).
      apply (builtFrom_added (emptyTree [MatchString; MatchInteger])).
      * apply (builtFrom_new [MatchString; MatchInteger]). reflexivity.
      * vm_compute. reflexivity.
    + vm_compute. repeat constructor; intros H; discriminate H.
    + vm_compute. reflexivity.
    + vm_compute. reflexivity.
    + vm_compute. reflexivity.
Defined.

(** ** Further properties of the code *)

Lemma binary_round_abs prec emax m e :
  SFabs (binary_round prec emax true m e) = SFabs (binary_round prec emax false m e).
Proof.
  unfold binary_round, binary_round_aux.
  destruct (shl_align _ _ _) as [mz ez].
  destruct (shr_fexp _ _ _ _ _) as [mrs' e'].
  destruct (shr_fexp _ _ _ _ _) as [mrs'' e''].
  destruct (shr_m mrs'') as [|p|p]; [reflexivity| |reflexivity].
  destruct (Z.leb _ _); reflexivity.
Qed.

Lemma binary_normalize_opp_abs prec emax z e :
  SFabs (binary_normalize prec emax (Z.opp z) e false) = SFabs (binary_normalize prec emax z e false).
Proof.
  destruct z as [|p|p]; simpl; [reflexivity|apply binary_round_abs|symmetry; apply binary_round_abs].
Qed.

Lemma SFsub_abs_comm prec emax x y :
  SFabs (SFsub prec emax x y) = SFabs (SFsub prec emax y x).
Proof.
  destruct x as [sx|sx|  |sx mx ex], y as [sy|sy| |sy my ey]; simpl;
    try reflexivity; try (destruct sx; reflexivity); try (destruct sy; reflexivity);
    try (destruct sx, sy; reflexivity).
  rewrite Z.min_comm. rewrite <- binary_normalize_opp_abs. f_equal. f_equal. lia.
Qed.

Lemma SFsub_self_abs prec emax x :
  SFabs (SFsub prec emax x x) = S754_nan \/ SFabs (SFsub prec emax x x) = S754_zero false.
Proof.
  destruct x as [sx|sx| |sx mx ex]; simpl; try (destruct sx; simpl; auto).
  all: try (match goal with |- context [binary_normalize _ _ ?z _ _] => replace z with 0%Z by lia end);
    simpl; auto.
Qed.

Lemma float_abs_sub_comm (a b : float) : abs (a - b)%float = abs (b - a)%float.
Proof. apply Prim2SF_inj. rewrite !abs_spec, !sub_spec. apply SFsub_abs_comm. Qed.

Lemma epsilon_not_le_abs_sub_self (a : float) : (epsilon <=? abs (a - a))%float = false.
Proof.
  rewrite leb_spec, abs_spec, sub_spec.
  unfold SF64sub. destruct (SFsub_self_abs FloatOps.prec FloatOps.emax (FloatOps.Prim2SF a)) as [-> | ->]; vm_compute; reflexivity.
Qed.

Lemma NumberInterval_Equals_refl i : NumberInterval.Equals i i = true.
Proof.
  destruct i as [[a|] ea [b|] eb]; unfold NumberInterval.Equals; simpl;
    rewrite ?epsilon_not_le_abs_sub_self, ?eqb_reflx; reflexivity.
Qed.

Lemma NumberInterval_Equals_sym i j : NumberInterval.Equals i j = NumberInterval.Equals j i.
Proof.
  destruct i as [[a|] ea [b|] eb], j as [[a'|] ea' [b'|] eb']; unfold NumberInterval.Equals; simpl;
    try reflexivity;
    rewrite ?(float_abs_sub_comm a a'), ?(float_abs_sub_comm b b');
    destruct ea, ea', eb, eb'; reflexivity.
Qed.

Section CloneWith.
Context {A : Type}.
Variable eqb : A -> A -> bool.

Lemma cloneWith_sublist clone s :
  exists l, cloneWith eqb clone s = clone ++ l /\ l `sublist_of` s.
Proof.
  revert clone. induction s as [|v s IH]; intros clone; simpl.
  - exists []. rewrite app_nil_r. split; [reflexivity|constructor].
  - destruct (existsb (eqb v) clone).
    + destruct (IH clone) as (l & -> & Hl). exists l. split; [reflexivity|].
      apply sublist_cons. exact Hl.
    + destruct (IH (clone ++ [v])) as (l & -> & Hl). exists (v :: l).
      split; [rewrite <- app_assoc; reflexivity|]. apply sublist_skip. exact Hl.
Qed.

Lemma cloneWith_cover clone s v :
  v ∈ s -> exists u, u ∈ cloneWith eqb clone s /\ (u = v \/ eqb v u = true).
Proof.
  revert clone. induction s as [|w s IH]; intros clone Hv; simpl;
    [apply elem_of_nil in Hv; contradiction|].
  assert (Hkeep : forall c, c ∈ clone -> c ∈ cloneWith eqb clone s).
  { intros c Hc. destruct (cloneWith_sublist clone s) as (l & -> & _).
    apply elem_of_app. left. exact Hc. }
  apply elem_of_cons in Hv as [<-|Hv].
  - destruct (existsb (eqb v) clone) eqn:Hex.
    + apply existsb_exists in Hex as (u & Hu & Hvu). exists u.
      split; [apply Hkeep, list_elem_of_In, Hu|right; exact Hvu].
    + exists v. split; [|left; reflexivity].
      destruct (cloneWith_sublist (clone ++ [v]) s) as (l & -> & _).
      apply elem_of_app. left. apply elem_of_app. right. apply list_elem_of_singleton. reflexivity.
  - destruct (existsb (eqb w) clone); apply IH; exact Hv.
Qed.

Hypothesis eqb_spec : forall a b, eqb a b = true <-> a = b.

Lemma cloneWith_elem clone s x : x ∈ cloneWith eqb clone s <-> x ∈ clone \/ x ∈ s.
Proof.
  revert clone. induction s as [|v s IH]; intros clone; simpl.
  - split; [auto|]. intros [H|H]; [exact H|apply elem_of_nil in H; contradiction].
  - destruct (existsb (eqb v) clone) eqn:Hex; rewrite IH.
    + rewrite elem_of_cons. split; [tauto|]. intros [H|[->|H]]; auto.
      left. apply existsb_exists in Hex as (u & Hu & Hvu). apply eqb_spec in Hvu. subst.
      apply list_elem_of_In. exact Hu.
    + rewrite elem_of_app, list_elem_of_singleton, elem_of_cons. tauto.
Qed.

Lemma cloneWith_NoDup clone s : NoDup clone -> NoDup (cloneWith eqb clone s).
Proof.
  revert clone. induction s as [|v s IH]; intros clone Hc; simpl; [exact Hc|].
  destruct (existsb (eqb v) clone) eqn:Hex; apply IH; [exact Hc|].
  apply NoDup_app. split; [exact Hc|split; [|apply NoDup_singleton]].
  intros x Hx Hx'. apply list_elem_of_singleton in Hx'. subst x.
  assert (existsb (eqb v) clone = true) as Hc'; [|congruence].
  apply existsb_exists. exists v. split; [apply list_elem_of_In; exact Hx|apply eqb_spec; reflexivity].
Qed.

Lemma cloneWith_NoDup_id clone s : NoDup (clone ++ s) -> cloneWith eqb clone s = clone ++ s.
Proof.
  revert clone. induction s as [|v s IH]; intros clone Hc; simpl; [rewrite app_nil_r; reflexivity|].
  destruct (existsb (eqb v) clone) eqn:Hex.
  - exfalso. apply existsb_exists in Hex as (u & Hu & Hvu). apply eqb_spec in Hvu. subst u.
    apply NoDup_app in Hc as (_ & Hd & _). apply (Hd v); [apply list_elem_of_In; exact Hu|].
    apply elem_of_cons. left. reflexivity.
  - rewrite IH; [rewrite <- app_assoc; reflexivity|]. rewrite <- app_assoc. exact Hc.
Qed.
End CloneWith.

(** X1: [ParseMatchType] inverts [MatchType.String]: the name of a defined
    match type (0 to 4) parses back to that type with no error, and the
    [UNKNOWN(i)] text of any other value is refused with the
    unknown-match-type error. *)
Theorem ParseMatchType_String (i : Z) :
  ParseMatchType (MatchType_String i)
  = if (0 <=? i)%Z && (i <? NumberOfMatchTypes)%Z then (i, None)
    else (0%Z, Some (ErrUnknownMatchType (MatchType_String i))).
Proof.
  unfold MatchType_String, NumberOfMatchTypes.
  destruct ((0 <=? i)%Z && (i <? 5)%Z) eqn:Hr.
  - apply andb_true_iff in Hr as [H1 H2]. apply Z.leb_le in H1. apply Z.ltb_lt in H2.
    assert (i = 0 \/ i = 1 \/ i = 2 \/ i = 3 \/ i = 4)%Z as Hi by lia.
    destruct Hi as [->|[->|[->|[->| ->]]]]; reflexivity.
  - reflexivity.
Qed.

(** X2: a string [ParseMatchType] accepts is the [String()] name of the
    match type it returns. *)
Theorem String_ParseMatchType (s : string) (i : Z) :
  ParseMatchType s = (i, None) -> MatchType_String i = s.
Proof.
  unfold ParseMatchType, matchType2String. cbn [parseFrom].
  repeat match goal with
         | |- context [String.eqb ?a s] => destruct (String.eqb_spec a s) as [<-|_]
         end; intros H; inversion H; subst; reflexivity.
Qed.

(** X3: [NumberInterval.Equals] is reflexive and symmetric, but it is not
    transitive: bounds within [epsilon] of each other compare equal, so
    chained near-equal intervals can relate two intervals that do not. *)
Theorem NumberInterval_Equals_props :
  (forall i, NumberInterval.Equals i i = true) /\
  (forall i j, NumberInterval.Equals i j = NumberInterval.Equals j i) /\
  exists a b c, NumberInterval.Equals a b = true /\ NumberInterval.Equals b c = true /\
                NumberInterval.Equals a c = false.
Proof.
  split; [exact NumberInterval_Equals_refl|split; [exact NumberInterval_Equals_sym|]].
  exists intervalA, intervalB, intervalC. vm_compute. auto.
Qed.

(** X4: [cloneStrings] and [cloneIntegers] return a subsequence of their
    input without duplicates that holds every input value; an input without
    duplicates is returned unchanged. *)
Theorem cloneStrings_cloneIntegers_dedup :
  (forall s, NoDup (cloneStrings s) /\ (forall x, x ∈ cloneStrings s <-> x ∈ s) /\
             cloneStrings s `sublist_of` s /\ (NoDup s -> cloneStrings s = s)) /\
  (forall s, NoDup (cloneIntegers s) /\ (forall x, x ∈ cloneIntegers s <-> x ∈ s) /\
             cloneIntegers s `sublist_of` s /\ (NoDup s -> cloneIntegers s = s)).
Proof.
  assert (Hs : forall a b : string, bool_decide (a = b) = true <-> a = b)
    by (intros; apply bool_decide_eq_true).
  assert (Hz : forall a b : Z, Z.eqb a b = true <-> a = b) by (intros; apply Z.eqb_eq).
  split; intros s; unfold cloneStrings, cloneIntegers.
  - split; [apply cloneWith_NoDup; [exact Hs|constructor]|].
    split; [intros x; rewrite cloneWith_elem by exact Hs; rewrite elem_of_nil; tauto|].
    split; [destruct (cloneWith_sublist (fun a b => bool_decide (a = b)) [] s) as (l & -> & Hl); exact Hl|].
    intros Hd. apply cloneWith_NoDup_id; [exact Hs|exact Hd].
  - split; [apply cloneWith_NoDup; [exact Hz|constructor]|].
    split; [intros x; rewrite cloneWith_elem by exact Hz; rewrite elem_of_nil; tauto|].
    split; [destruct (cloneWith_sublist Z.eqb [] s) as (l & -> & Hl); exact Hl|].
    intros Hd. apply cloneWith_NoDup_id; [exact Hz|exact Hd].
Qed.

(** X5: [cloneIntegerIntervals] returns a subsequence of its input in which
    no two intervals are [Equals]; every input interval [Equals] a kept one,
    and the kept intervals together contain exactly the integers the input
    intervals contain. *)
Theorem cloneIntegerIntervals_dedup s :
  distinctBy IntegerInterval.Equals (cloneIntegerIntervals s) /\
  cloneIntegerIntervals s `sublist_of` s /\
  (forall v, v ∈ s -> exists u, u ∈ cloneIntegerIntervals s /\ IntegerInterval.Equals v u = true) /\
  (forall x, existsb (fun u => IntegerInterval.Contains u x) (cloneIntegerIntervals s)
             = existsb (fun u => IntegerInterval.Contains u x) s).
Proof.
  unfold cloneIntegerIntervals.
  split; [apply cloneWith_distinct; [apply IntegerInterval_Equals_sym|exact I]|].
  split; [destruct (cloneWith_sublist IntegerInterval.Equals [] s) as (l & -> & Hl); exact Hl|].
  split.
  - intros v Hv. destruct (cloneWith_cover IntegerInterval.Equals [] s v Hv) as (u & Hu & [->|H]).
    + exists v. split; [exact Hu|apply IntegerInterval_Equals_refl].
    + exists u. split; assumption.
  - intros x. rewrite existsb_cloneWith; [reflexivity|].
    intros u v H. apply IntegerInterval_Equals_Contains. exact H.
Qed.

(** X6: [cloneNumberIntervals] returns a subsequence of its input in which
    no two intervals are [Equals], and every input interval [Equals] a kept
    one; since [Equals] tolerates [epsilon], the kept intervals can contain
    fewer numbers than the input intervals. *)
Theorem cloneNumberIntervals_dedup :
  (forall s,
    distinctBy NumberInterval.Equals (cloneNumberIntervals s) /\
    cloneNumberIntervals s `sublist_of` s /\
    (forall v, v ∈ s -> exists u, u ∈ cloneNumberIntervals s /\ NumberInterval.Equals v u = true)) /\
  exists s x, existsb (fun u => NumberInterval.Contains u x) (cloneNumberIntervals s)
              <> existsb (fun u => NumberInterval.Contains u x) s.
Proof.
  split.
  - intros s. unfold cloneNumberIntervals.
    split; [apply cloneWith_distinct; [apply NumberInterval_Equals_sym|exact I]|].
    split; [destruct (cloneWith_sublist NumberInterval.Equals [] s) as (l & -> & Hl); exact Hl|].
    intros v Hv. destruct (cloneWith_cover NumberInterval.Equals [] s v Hv) as (u & Hu & [->|H]).
    + exists v. split; [exact Hu|apply NumberInterval_Equals_refl].
    + exists u. split; assumption.
  - exists [intervalA; intervalB], (10 + 0.7e-10)%float. vm_compute. discriminate.
Qed.

Lemma MapNode_GetOrInsertChild_again {K} `{Countable K} (n : MapNode.t K) isAny isInv vs cur
    fresh fresh' c n' a :
  (isAny = true \/ isInv = false) ->
  MapNode.GetOrInsertChild n isAny isInv vs cur fresh = Some (c, n', a) ->
  MapNode.GetOrInsertChild n' isAny isInv vs cur fresh' = Some (c, n', false).
Proof.
  intros Hp. unfold MapNode.GetOrInsertChild. destruct isAny.
  - destruct (MapNode.anyChild n) as [c0|] eqn:Hany; intros Hg; injection Hg as <- <- _.
    + rewrite Hany. reflexivity.
    + reflexivity.
  - destruct Hp as [Hp | ->]; [discriminate|].
    destruct (MapNode.children n !! cur) as [c0|] eqn:Hch; intros Hg; injection Hg as <- <- _.
    + rewrite Hch. reflexivity.
    + simpl. rewrite lookup_insert_eq. reflexivity.
Qed.

Lemma ListNode_GetOrInsertChild_again {I} (Equals : I -> I -> bool) (n : ListNode.t I) isAny isInv
    vs cur fresh fresh' c n' a :
  Equals cur cur = true -> (isAny = true \/ isInv = false) ->
  ListNode.GetOrInsertChild Equals n isAny isInv vs cur fresh = Some (c, n', a) ->
  ListNode.GetOrInsertChild Equals n' isAny isInv vs cur fresh' = Some (c, n', false).
Proof.
  intros Hrefl Hp. unfold ListNode.GetOrInsertChild. destruct isAny.
  - destruct (ListNode.anyChild n) as [c0|] eqn:Hany; intros Hg; injection Hg as <- <- _.
    + rewrite Hany. reflexivity.
    + reflexivity.
  - destruct Hp as [Hp | ->]; [discriminate|].
    destruct (indexFunc _ (ListNode.children n)) as [i|] eqn:Hi.
    + destruct (ListNode.children n !! i) as [x|] eqn:Hx; simpl; [|discriminate].
      intros Hg; injection Hg as <- <- _. rewrite Hi, Hx. reflexivity.
    + intros Hg; injection Hg as <- <- _. simpl.
      rewrite indexFunc_snoc, Hi. simpl. rewrite Hrefl.
      rewrite lookup_app_r, Nat.sub_diag by lia. reflexivity.
Qed.

Lemma nodeGetOrInsertChild_again nd p fresh fresh' c nd' a :
  (IsAny p = true \/ IsInverse p = false) ->
  nodeGetOrInsertChild nd p fresh = Some (c, nd', a) ->
  nodeGetOrInsertChild nd' p fresh' = Some (c, nd', false).
Proof.
  intros Hp. destruct nd as [rs|n|n|n|n]; simpl; [discriminate| | | |].
  - destruct (MapNode.GetOrInsertChild _ _ _ _ _ _) as [[[c0 n0] a0]|] eqn:Hg; simpl; [|discriminate].
    intros H; injection H as <- <- _. simpl.
    rewrite (MapNode_GetOrInsertChild_again _ _ _ _ _ _ fresh' _ _ _ Hp Hg). reflexivity.
  - destruct (MapNode.GetOrInsertChild _ _ _ _ _ _) as [[[c0 n0] a0]|] eqn:Hg; simpl; [|discriminate].
    intros H; injection H as <- <- _. simpl.
    rewrite (MapNode_GetOrInsertChild_again _ _ _ _ _ _ fresh' _ _ _ Hp Hg). reflexivity.
  - destruct (ListNode.GetOrInsertChild _ _ _ _ _ _ _) as [[[c0 n0] a0]|] eqn:Hg; simpl; [|discriminate].
    intros H; injection H as <- <- _. simpl.
    rewrite (ListNode_GetOrInsertChild_again _ _ _ _ _ _ _ fresh' _ _ _
               (IntegerInterval_Equals_refl _) Hp Hg). reflexivity.
  - destruct (ListNode.GetOrInsertChild _ _ _ _ _ _ _) as [[[c0 n0] a0]|] eqn:Hg; simpl; [|discriminate].
    intros H; injection H as <- <- _. simpl.
    rewrite (ListNode_GetOrInsertChild_again _ _ _ _ _ _ _ fresh' _ _ _
               (NumberInterval_Equals_refl _) Hp Hg). reflexivity.
Qed.

(** X7: for a wildcard pattern or an exact (non-inverse) pattern, a second
    [GetOrInsertChild] with the same pattern on the same node returns the
    same child and leaves the arena unchanged. *)
Theorem GetOrInsertChild_idempotent s id p ty ty' c s' :
  (IsAny p = true \/ IsInverse p = false) ->
  GetOrInsertChild s id p ty = Some (c, s') ->
  GetOrInsertChild s' id p ty' = Some (c, s').
Proof.
  intros Hp. unfold GetOrInsertChild.
  destruct (s !! id) as [nd|] eqn:Hid; simpl; [|discriminate].
  destruct (nodeGetOrInsertChild nd p (length s)) as [[[c0 nd'] a]|] eqn:Hg; simpl; [|discriminate].
  pose proof (lookup_lt_Some _ _ _ Hid) as Hlt.
  assert (Hs' : forall s1, s' = <[id := nd']> s ++ s1 -> s' !! id = Some nd').
  { intros s1 ->. rewrite lookup_app_l by (rewrite length_insert; lia).
    apply list_lookup_insert_eq. exact Hlt. }
  destruct a; intros H; injection H as <- <-;
    [rewrite (Hs' [newMatchNode ty]) by reflexivity|rewrite (Hs' []) by (rewrite app_nil_r; reflexivity)];
    simpl; rewrite (nodeGetOrInsertChild_again _ _ _ _ _ _ _ Hp Hg); simpl;
    rewrite list_insert_id; try reflexivity.
  - rewrite lookup_app_l by (rewrite length_insert; lia). apply list_lookup_insert_eq. exact Hlt.
  - apply list_lookup_insert_eq. exact Hlt.
Qed.

Lemma String_ParseMatchType_witness :
  ParseMatchType "INTEGER_INTERVAL" = (3%Z, None) /\ MatchType_String 3 = "INTEGER_INTERVAL".
Proof.
  split; [reflexivity|]. apply (String_ParseMatchType "INTEGER_INTERVAL" 3). reflexivity.
Defined.

Lemma GetOrInsertChild_idempotent_witness :
  GetOrInsertChild [newMatchNode MatchString] 0 exactAPattern MatchNone = Some (1, exactAArena) /\
  GetOrInsertChild exactAArena 0 exactAPattern MatchString = Some (1, exactAArena).
Proof.
  split; [vm_compute; reflexivity|].
  apply (GetOrInsertChild_idempotent [newMatchNode MatchString] 0 exactAPattern MatchNone).
  - right. reflexivity.
  - vm_compute. reflexivity.
Defined.

(** X8: [IntegerInterval.Equals] holds exactly when the two intervals have
    the same lower bound and the same upper bound, each either absent or a
    value with its exclusion flag (the flag of an absent bound is ignored);
    intervals that are [Equals] contain the same integers. *)
Theorem IntegerInterval_Equals_spec :
  (forall i j, IntegerInterval.Equals i j = true <->
               integerIntervalBounds i = integerIntervalBounds j) /\
  (forall i j x, IntegerInterval.Equals i j = true ->
               IntegerInterval.Contains i x = IntegerInterval.Contains j x).
Proof.
  split.
  - intros i j. rewrite IntegerInterval_Equals_bounds. apply bool_decide_eq_true.
  - exact IntegerInterval_Equals_Contains.
Qed.

(** ** [Search] returns every matching rule *)

Section GroupCount.
Context {K Idx : Type}.
Variable lookupIdx : Idx -> K -> list nat.
Variable addIdx : Idx -> K -> nat -> Idx.
Variable eqb : K -> K -> bool.
Hypothesis lookup_addIdx : forall idx v h v',
  lookupIdx (addIdx idx v h) v' = lookupIdx idx v' ++ (if eqb v v' then [h] else []).
Hypothesis eqb_refl : forall v, eqb v v = true.
Hypothesis eqb_sym : forall u v, eqb u v = eqb v u.
Hypothesis eqb_trans : forall u v w, eqb u v = true -> eqb v w = true -> eqb u w = true.

(** A list no longer than a duplicate-free [E] that covers [E] is covered by [E]. *)
Lemma cover_back (E : list K) : forall G,
  distinctBy eqb E -> length G <= length E ->
  (forall v, v ∈ E -> exists u, u ∈ G /\ eqb v u = true) ->
  forall u, u ∈ G -> exists v, v ∈ E /\ eqb u v = true.
Proof.
  induction E as [|v E IH]; intros G Hd Hlen Hc u Hu.
  - destruct G; [apply elem_of_nil in Hu; contradiction|simpl in Hlen; lia].
  - destruct Hd as [Hv Hd].
    destruct (Hc v (proj2 (elem_of_cons _ _ _) (or_introl eq_refl))) as (u0 & Hu0 & Hvu0).
    apply list_elem_of_split in Hu0 as (G1 & G2 & ->).
    assert (HIH : forall w, w ∈ G1 ++ G2 -> exists v', v' ∈ E /\ eqb w v' = true).
    { apply IH; [exact Hd|rewrite length_app in *; simpl in Hlen; lia|].
      intros v' Hv'.
      destruct (Hc v' (proj2 (elem_of_cons _ _ _) (or_intror Hv'))) as (u' & Hu' & Hvu').
      apply elem_of_app in Hu' as [Hu'|Hu'].
      - exists u'. split; [apply elem_of_app; left; exact Hu'|exact Hvu'].
      - apply elem_of_cons in Hu' as [->|Hu'].
        + exfalso. rewrite Forall_forall in Hv. destruct (Hv v' Hv') as [Hf _].
          rewrite (eqb_trans v u0 v' Hvu0) in Hf; [discriminate|]. rewrite eqb_sym. exact Hvu'.
        + exists u'. split; [apply elem_of_app; right; exact Hu'|exact Hvu']. }
    apply elem_of_app in Hu as [Hu|Hu].
    + destruct (HIH u (proj2 (elem_of_app _ _ _) (or_introl Hu))) as (v' & Hv' & Huv').
      exists v'. split; [apply elem_of_cons; right; exact Hv'|exact Huv'].
    + apply elem_of_cons in Hu as [->|Hu].
      * exists v. split; [apply elem_of_cons; left; reflexivity|rewrite eqb_sym; exact Hvu0].
      * destruct (HIH u (proj2 (elem_of_app _ _ _) (or_intror Hu))) as (v' & Hv' & Huv').
        exists v'. split; [apply elem_of_cons; right; exact Hv'|exact Huv'].
Qed.

Lemma groupsCount_wf ics idx grp :
  groupsCount lookupIdx eqb ics idx grp -> wfIdx lookupIdx idx (length ics).
Proof.
  intros (Hlk & _ & _) v. apply Forall_forall. intros g Hg. apply (Hlk g v Hg).
Qed.

(** An inverse insertion either reuses a group standing for a set covered
    by the inserted exclusion list, or appends a group standing for the
    list. *)
Lemma groupsCount_step ics idx grp E fresh c ics' idx' a :
  groupsCount lookupIdx eqb ics idx grp -> distinctBy eqb E ->
  getOrInsertInverseChild lookupIdx addIdx ics idx E fresh = Some (c, ics', idx', a) ->
  (ics' = ics /\ idx' = idx /\
   exists g ic, ics !! g = Some ic /\ c = MatchNode ic /\
     forall u, u ∈ grp g -> exists v, v ∈ E /\ eqb u v = true) \/
  (ics' = ics ++ [{| MatchNode := fresh; MaxRefCount := length E |}] /\
   idx' = addAll addIdx idx E (length ics) /\ c = fresh /\
   groupsCount lookupIdx eqb ics' idx' (fun g => if Nat.eqb g (length ics) then E else grp g)).
Proof.
  intros HG Hd Hgo. pose proof (groupsCount_wf _ _ _ HG) as Hwf.
  destruct HG as (Hlk & Hcnt & Hlen).
  rewrite getOrInsertInverseChild_spec in Hgo by exact Hwf. unfold inverseChildSpec in Hgo.
  destruct (findFirst (groupMatch lookupIdx ics idx E) 0 (length ics)) as [g|] eqn:Hf.
  - destruct (ics !! g) as [ic|] eqn:Hic; simpl in Hgo; [|discriminate].
    injection Hgo as <- <- <- <-. left. split; [reflexivity|split; [reflexivity|]].
    exists g, ic. split; [exact Hic|split; [reflexivity|]].
    apply findFirst_Some in Hf as (Hr & Hgm & _).
    unfold groupMatch in Hgm. apply andb_true_iff in Hgm as [Hrc Hmax].
    apply Nat.eqb_eq in Hrc, Hmax. unfold refCount in Hrc.
    pose proof (sum_list_with_full _ E (fun v => Hcnt g v) Hrc) as Hall.
    apply cover_back; [exact Hd|specialize (Hlen g ltac:(lia)); lia|].
    intros v Hv. specialize (Hall v (proj1 (list_elem_of_In _ _) Hv)). simpl in Hall.
    assert (Hin : g ∈ lookupIdx idx v).
    { apply list_elem_of_In, (count_occ_In Nat.eq_dec). lia. }
    destruct (Hlk g v Hin) as [_ Hex]. apply existsb_exists in Hex as (u & Hu & Hvu).
    exists u. split; [apply list_elem_of_In; exact Hu|exact Hvu].
  - injection Hgo as <- <- <- <-. right.
    split; [reflexivity|split; [reflexivity|split; [reflexivity|]]].
    unfold groupsCount. rewrite length_app. simpl. split; [|split].
    + intros g v Hg. rewrite (lookup_addAll lookupIdx addIdx eqb lookup_addIdx) in Hg.
      apply elem_of_app in Hg as [Hg|Hg].
      * destruct (Hlk g v Hg) as [Hlt Hex]. split; [lia|].
        destruct (Nat.eqb_spec g (length ics)); [lia|exact Hex].
      * apply list_elem_of_In, in_flat_map in Hg as (u & Hu & Hg).
        destruct (eqb u v) eqn:Huv; [|destruct Hg].
        destruct Hg as [<-|[]]. rewrite Nat.eqb_refl. split; [lia|].
        apply existsb_exists. exists u. split; [exact Hu|rewrite eqb_sym; exact Huv].
    + intros g v. rewrite (lookup_addAll lookupIdx addIdx eqb lookup_addIdx), count_occ_app.
      destruct (Nat.eq_dec g (length ics)) as [->|Hne].
      * assert (count_occ Nat.eq_dec (lookupIdx idx v) (length ics) = 0) as ->.
        { apply count_occ_not_In. intros Hin.
          destruct (Hlk _ v (proj2 (list_elem_of_In _ _) Hin)) as [Hlt _]. lia. }
        simpl. apply (count_added_le1 eqb eqb_sym eqb_trans). exact Hd.
      * rewrite (count_added_other eqb) by assumption. rewrite Nat.add_0_r. apply Hcnt.
    + intros g Hg. unfold maxAt.
      destruct (Nat.eqb_spec g (length ics)) as [->|Hne].
      * rewrite list_lookup_middle by reflexivity. simpl. lia.
      * rewrite lookup_app_l by lia. apply Hlen. lia.
Qed.

(** The same, uniformly: the child returned is that of a group standing for
    a set covered by the exclusion list. *)
Lemma groupsCount_step_child ics idx grp E fresh c ics' idx' a :
  groupsCount lookupIdx eqb ics idx grp -> distinctBy eqb E ->
  getOrInsertInverseChild lookupIdx addIdx ics idx E fresh = Some (c, ics', idx', a) ->
  exists g ic grp', ics' !! g = Some ic /\ c = MatchNode ic /\
    groupsCount lookupIdx eqb ics' idx' grp' /\
    forall u, u ∈ grp' g -> exists v, v ∈ E /\ eqb u v = true.
Proof.
  intros HG Hd Hgo.
  destruct (groupsCount_step _ _ _ _ _ _ _ _ _ HG Hd Hgo)
    as [(-> & -> & g & ic & Hic & -> & Hc)|(-> & -> & -> & HG')].
  - exists g, ic, grp. auto.
  - exists (length ics), {| MatchNode := fresh; MaxRefCount := length E |},
      (fun g => if Nat.eqb g (length ics) then E else grp g).
    split; [apply list_lookup_middle; reflexivity|split; [reflexivity|split; [exact HG'|]]].
    rewrite Nat.eqb_refl. intros u Hu. exists u. split; [exact Hu|apply eqb_refl].
Qed.
Variable sem : K -> MatchKey -> bool.
Variable excl : Idx -> nat -> MatchKey -> bool.
Hypothesis excl_addIdx : forall idx v h g k,
  excl (addIdx idx v h) g k = excl idx g k || (Nat.eqb g h && sem v k).
Hypothesis sem_eqb : forall u v k, eqb u v = true -> sem u k = sem v k.

Lemma excl_addAll_cover idx E h g k :
  excl (addAll addIdx idx E h) g k = excl idx g k || (Nat.eqb g h && existsb (fun v => sem v k) E).
Proof.
  unfold addAll. revert idx. induction E as [|v E IH]; intros idx; simpl.
  - rewrite andb_false_r, orb_false_r. reflexivity.
  - rewrite IH, excl_addIdx.
    destruct (excl idx g k), (Nat.eqb g h), (sem v k); reflexivity.
Qed.

(** An inverse insertion keeps both invariants, and the child it returns is
    skipped for no key that the exclusion list leaves admitted. *)
Lemma groupsCover_step ics idx grp E fresh c ics' idx' a :
  groupsCount lookupIdx eqb ics idx grp -> exclCover sem excl ics idx grp -> distinctBy eqb E ->
  getOrInsertInverseChild lookupIdx addIdx ics idx E fresh = Some (c, ics', idx', a) ->
  (exists grp', groupsCount lookupIdx eqb ics' idx' grp' /\ exclCover sem excl ics' idx' grp') /\
  exists g ic, ics' !! g = Some ic /\ c = MatchNode ic /\
    forall k, existsb (fun v => sem v k) E = false -> excl idx' g k = false.
Proof.
  intros HG HC Hd Hgo.
  destruct (groupsCount_step _ _ _ _ _ _ _ _ _ HG Hd Hgo)
    as [(-> & -> & g & ic & Hic & -> & Hc)|(-> & -> & -> & HG')].
  - split; [exists grp; split; assumption|]. exists g, ic.
    split; [exact Hic|split; [reflexivity|]]. intros k Hk.
    destruct (excl idx g k) eqn:Hx; [|reflexivity]. exfalso.
    destruct (HC g k Hx) as [_ Hex]. apply existsb_exists in Hex as (u & Hu & Hsu).
    destruct (Hc u (proj2 (list_elem_of_In _ _) Hu)) as (v & Hv & Huv).
    assert (Hin : existsb (fun v => sem v k) E = true).
    { apply existsb_exists. exists v. split; [apply list_elem_of_In; exact Hv|].
      rewrite <- (sem_eqb _ _ _ Huv). exact Hsu. }
    congruence.
  - split.
    + eexists. split; [exact HG'|]. intros g k. rewrite excl_addAll_cover, length_app. simpl.
      intros Hx. apply orb_true_iff in Hx as [Hx|Hx].
      * destruct (HC g k Hx) as [Hlt Hex]. split; [lia|].
        destruct (Nat.eqb_spec g (length ics)); [lia|exact Hex].
      * apply andb_true_iff in Hx as [Hg Hex]. rewrite Hg. apply Nat.eqb_eq in Hg.
        split; [lia|exact Hex].
    + exists (length ics), {| MatchNode := fresh; MaxRefCount := length E |}.
      split; [apply list_lookup_middle; reflexivity|split; [reflexivity|]].
      intros k Hk. rewrite excl_addAll_cover, Hk, andb_false_r, orb_false_r.
      destruct (excl idx (length ics) k) eqn:Hx; [|reflexivity].
      destruct (HC _ _ Hx) as [Hlt _]. lia.
Qed.

End GroupCount.

Lemma unexcludedGroups_intro (f : nat -> bool) ics g ic :
  ics !! g = Some ic -> f g = false -> MatchNode ic ∈ unexcludedGroups f ics 0.
Proof.
  assert (Hgen : forall ics0 i g0, ics0 !! g0 = Some ic -> f (i + g0) = false ->
            MatchNode ic ∈ unexcludedGroups f ics0 i).
  { induction ics0 as [|ic0 ics0 IH]; intros i [|g0] Hg Hf; simpl in Hg; try discriminate.
    - injection Hg as ->. rewrite Nat.add_0_r in Hf. simpl. rewrite Hf. left.
    - simpl. apply elem_of_app. right. apply (IH (S i) g0 Hg).
      replace (S i + g0) with (i + S g0) by lia. exact Hf. }
  intros Hg Hf. apply (Hgen ics 0 g Hg). exact Hf.
Qed.

Section MapComplete.
Context {K : Type} `{Countable K}.
Variable keyOf : MatchKey -> K.

Lemma map_insert_complete (n : MapNode.t K) isAny isInv vs cur fresh c n' a :
  mapGroupsOK keyOf n ->
  (isAny = false -> isInv = true -> distinctBy (fun a b => bool_decide (a = b)) vs) ->
  MapNode.GetOrInsertChild n isAny isInv vs cur fresh = Some (c, n', a) ->
  mapGroupsOK keyOf n' /\
  forall k, (if isAny then true
             else if isInv then negb (existsb (fun v => bool_decide (v = keyOf k)) vs)
             else bool_decide (cur = keyOf k)) = true ->
    c ∈ specMapFindChildren n' (keyOf k).
Proof.
  intros Hg Hd. unfold MapNode.GetOrInsertChild, specMapFindChildren.
  destruct isAny.
  { destruct (MapNode.anyChild n) as [c0|] eqn:Ha; intros Hr; injection Hr as <- <- _;
      (split; [exact Hg|]); intros k _; apply elem_of_app; right; apply elem_of_app; right;
      simpl; [rewrite Ha|]; left. }
  destruct isInv.
  - destruct (getOrInsertInverseChild _ _ _ _ _ _) as [[[[c0 ics] idx] al]|] eqn:Hgo;
      simpl; [|discriminate].
    intros Hr; injection Hr as <- <- _. simpl.
    destruct Hg as (grp & HG & HC).
    destruct (groupsCover_step (MapNode.lookupIdx (K:=K)) MapNode.addIdx
                (fun a b => bool_decide (a = b)) MapNode_lookup_addIdx
                ltac:(intros u v; apply bool_decide_ext; split; congruence)
                ltac:(intros u v w H1 H2; apply bool_decide_eq_true in H1, H2;
                      apply bool_decide_eq_true_2; congruence)
                (fun v k => bool_decide (v = keyOf k)) (mapExcl keyOf)
                (mapExcl_addIdx keyOf)
                ltac:(intros u v k Huv; apply bool_decide_eq_true in Huv; subst; reflexivity)
                _ _ _ _ _ _ _ _ _ HG HC (Hd eq_refl eq_refl) Hgo)
      as [Hg' (g & ic & Hic & -> & Hx)].
    split; [exact Hg'|]. intros k Hk. apply negb_true_iff in Hk.
    apply elem_of_app. right. apply elem_of_app. left.
    apply (unexcludedGroups_intro _ _ g ic Hic). exact (Hx k Hk).
  - destruct (MapNode.children n !! cur) as [c0|] eqn:Hc; intros Hr; injection Hr as <- <- _;
      (split; [exact Hg|]); intros k Hk; apply bool_decide_eq_true in Hk; subst cur;
      apply elem_of_app; left; simpl.
    + rewrite Hc. left.
    + rewrite lookup_insert_eq. left.
Qed.

End MapComplete.

Section ListComplete.
Context {I X : Type}.
Variable Equals : I -> I -> bool.
Variable Contains : I -> X -> bool.
Variable keyOf : MatchKey -> X.
Hypothesis Equals_refl : forall v, Equals v v = true.
Hypothesis Equals_sym : forall u v, Equals u v = Equals v u.
Hypothesis Equals_trans : forall u v w, Equals u v = true -> Equals v w = true -> Equals u w = true.
Hypothesis Contains_Equals : forall u v x, Equals u v = true -> Contains u x = Contains v x.

Lemma list_insert_complete (n : ListNode.t I) isAny isInv vs cur fresh c n' a :
  listGroupsOK Equals Contains keyOf n ->
  (isAny = false -> isInv = true -> distinctBy Equals vs) ->
  ListNode.GetOrInsertChild Equals n isAny isInv vs cur fresh = Some (c, n', a) ->
  listGroupsOK Equals Contains keyOf n' /\
  forall k, (if isAny then true
             else if isInv then negb (existsb (fun v => Contains v (keyOf k)) vs)
             else Contains cur (keyOf k)) = true ->
    c ∈ specListFindChildren Contains n' (keyOf k).
Proof.
  intros Hg Hd. unfold ListNode.GetOrInsertChild, specListFindChildren.
  destruct isAny.
  { destruct (ListNode.anyChild n) as [c0|] eqn:Ha; intros Hr; injection Hr as <- <- _;
      (split; [exact Hg|]); intros k _; apply elem_of_app; right; apply elem_of_app; right;
      simpl; [rewrite Ha|]; left. }
  destruct isInv.
  - destruct (getOrInsertInverseChild _ _ _ _ _ _) as [[[[c0 ics] idx] al]|] eqn:Hgo;
      simpl; [|discriminate].
    intros Hr; injection Hr as <- <- _. simpl.
    destruct Hg as (grp & HG & HC).
    destruct (groupsCover_step (ListNode.lookupIdx Equals) (ListNode.addIdx Equals) Equals
                (ListNode_lookup_addIdx Equals Equals_refl Equals_sym Equals_trans)
                Equals_sym Equals_trans
                (fun v k => Contains v (keyOf k)) (listExcl (fun v k => Contains v (keyOf k)))
                (listExcl_addIdx Equals _ (fun u v k H => Contains_Equals u v (keyOf k) H))
                (fun u v k H => Contains_Equals u v (keyOf k) H)
                _ _ _ _ _ _ _ _ _ HG HC (Hd eq_refl eq_refl) Hgo)
      as [Hg' (g & ic & Hic & -> & Hx)].
    split; [exact Hg'|]. intros k Hk. apply negb_true_iff in Hk.
    apply elem_of_app. right. apply elem_of_app. left.
    apply (unexcludedGroups_intro _ _ g ic Hic). exact (Hx k Hk).
  - destruct (indexFunc (fun x => Equals x.1 cur) (ListNode.children n)) as [i|] eqn:Hi.
    + destruct (ListNode.children n !! i) as [x|] eqn:Hx; simpl; [|discriminate].
      intros Hr; injection Hr as <- <- _. split; [exact Hg|]. intros k Hk.
      apply elem_of_app; left. apply indexFunc_Some in Hi as (e & He & Hee).
      rewrite Hx in He. injection He as <-.
      apply list_elem_of_In, in_map_iff. exists x. split; [reflexivity|].
      apply list_elem_of_In, list_elem_of_filter. split; [|eapply list_elem_of_lookup_2; exact Hx].
      rewrite (Contains_Equals _ _ _ Hee), Hk. constructor.
    + intros Hr; injection Hr as <- <- _. split; [exact Hg|]. intros k Hk.
      apply elem_of_app; left. simpl. rewrite filter_app, map_app. apply elem_of_app. right.
      simpl. rewrite filter_cons. simpl. rewrite Hk. left.
Qed.

End ListComplete.

Lemma unexcludedGroups_mono (f f' : nat -> bool) ics ics' d :
  ics `prefix_of` ics' -> (forall g, g < length ics -> f' g = f g) ->
  d ∈ unexcludedGroups f ics 0 -> d ∈ unexcludedGroups f' ics' 0.
Proof.
  intros Hp Hf Hd. apply unexcludedGroups_elem in Hd as (g & ic & Hic & -> & Hg).
  apply (unexcludedGroups_intro _ _ g ic); [eapply prefix_lookup_Some; eassumption|].
  rewrite Hf; [exact Hg|]. eapply lookup_lt_Some; exact Hic.
Qed.

Lemma mapExcl_addAll_other {K} `{Countable K} (idx : gmap K (list nat)) E h g v :
  g <> h ->
  bool_decide (g ∈ MapNode.lookupIdx (addAll MapNode.addIdx idx E h) v)
  = bool_decide (g ∈ MapNode.lookupIdx idx v).
Proof.
  intros Hne. rewrite (lookup_addAll _ _ _ MapNode_lookup_addIdx).
  apply bool_decide_ext. rewrite elem_of_app. split; [|tauto]. intros [H1|H1]; [exact H1|].
  exfalso. apply list_elem_of_In, in_flat_map in H1 as (u & _ & Hu).
  destruct (bool_decide (u = v)); [destruct Hu as [->|[]]; congruence|destruct Hu].
Qed.

Lemma listExcl_addIdx_other {I X} (Equals : I -> I -> bool) (Contains : I -> X -> bool) idx v h g x :
  g <> h ->
  existsb (fun e => Contains e.1 x && bool_decide (g ∈ e.2)) (ListNode.addIdx Equals idx v h)
  = existsb (fun e => Contains e.1 x && bool_decide (g ∈ e.2)) idx.
Proof.
  intros Hne. unfold ListNode.addIdx.
  destruct (indexFunc (fun x => Equals x.1 v) idx) as [i|] eqn:Hi.
  - apply indexFunc_Some in Hi as (e & He & _).
    rewrite (existsb_alter _ _ _ _ e false He), orb_false_r; [reflexivity|]. simpl.
    rewrite (bool_decide_ext _ _ (elem_of_app _ _ _)), bool_decide_or,
      bool_decide_elem_of_singleton. destruct (Nat.eqb_spec g h); [congruence|].
    rewrite !orb_false_r. reflexivity.
  - rewrite existsb_app. simpl. rewrite bool_decide_elem_of_singleton.
    destruct (Nat.eqb_spec g h); [congruence|]. rewrite andb_false_r, !orb_false_r. reflexivity.
Qed.

Lemma listExcl_addAll_other {I X} (Equals : I -> I -> bool) (Contains : I -> X -> bool) idx E h g x :
  g <> h ->
  existsb (fun e => Contains e.1 x && bool_decide (g ∈ e.2)) (addAll (ListNode.addIdx Equals) idx E h)
  = existsb (fun e => Contains e.1 x && bool_decide (g ∈ e.2)) idx.
Proof.
  intros Hne. unfold addAll. revert idx. induction E as [|v E IH]; intros idx; simpl; [reflexivity|].
  rewrite IH. apply listExcl_addIdx_other. exact Hne.
Qed.

Lemma map_find_mono {K} `{Countable K} (n : MapNode.t K) isAny isInv vs cur fresh c n' a x d :
  MapNode.GetOrInsertChild n isAny isInv vs cur fresh = Some (c, n', a) ->
  d ∈ specMapFindChildren n x -> d ∈ specMapFindChildren n' x.
Proof.
  unfold MapNode.GetOrInsertChild, specMapFindChildren. destruct isAny.
  { destruct (MapNode.anyChild n) as [c0|] eqn:Ha; intros Hr; injection Hr as <- <- _;
      [rewrite Ha; tauto|]. simpl. rewrite !elem_of_app.
    intros [Hd|[Hd|Hd]]; [left; exact Hd|right; left; exact Hd|apply elem_of_nil in Hd; contradiction]. }
  destruct isInv.
  - destruct (getOrInsertInverseChild _ _ _ _ _ _) as [[[[c0 ics] idx] al]|] eqn:Hgo;
      simpl; [|discriminate].
    intros Hr; injection Hr as <- <- _. simpl. rewrite !elem_of_app.
    intros [Hd|[Hd|Hd]]; [left; exact Hd| |right; right; exact Hd]. right; left.
    apply getOrInsertInverseChild_shape in Hgo as [[-> ->]|[-> ->]]; [exact Hd|].
    eapply unexcludedGroups_mono; [apply prefix_app_r_snoc| |exact Hd].
    intros g Hg. apply mapExcl_addAll_other. lia.
  - destruct (MapNode.children n !! cur) as [c0|] eqn:Hc; intros Hr; injection Hr as <- <- _;
      [tauto|]. simpl. rewrite !elem_of_app. intros [Hd|Hd]; [left|right; exact Hd].
    destruct (decide (x = cur)) as [->|Hne]; [rewrite Hc in Hd; apply elem_of_nil in Hd; contradiction|].
    rewrite lookup_insert_ne by congruence. exact Hd.
Qed.

Lemma list_find_mono {I X} (Equals : I -> I -> bool) (Contains : I -> X -> bool) (n : ListNode.t I)
    isAny isInv vs cur fresh c n' a x d :
  ListNode.GetOrInsertChild Equals n isAny isInv vs cur fresh = Some (c, n', a) ->
  d ∈ specListFindChildren Contains n x -> d ∈ specListFindChildren Contains n' x.
Proof.
  unfold ListNode.GetOrInsertChild, specListFindChildren. destruct isAny.
  { destruct (ListNode.anyChild n) as [c0|] eqn:Ha; intros Hr; injection Hr as <- <- _;
      [rewrite Ha; tauto|]. simpl. rewrite !elem_of_app.
    intros [Hd|[Hd|Hd]]; [left; exact Hd|right; left; exact Hd|apply elem_of_nil in Hd; contradiction]. }
  destruct isInv.
  - destruct (getOrInsertInverseChild _ _ _ _ _ _) as [[[[c0 ics] idx] al]|] eqn:Hgo;
      simpl; [|discriminate].
    intros Hr; injection Hr as <- <- _. simpl. rewrite !elem_of_app.
    intros [Hd|[Hd|Hd]]; [left; exact Hd| |right; right; exact Hd]. right; left.
    apply getOrInsertInverseChild_shape in Hgo as [[-> ->]|[-> ->]]; [exact Hd|].
    eapply unexcludedGroups_mono; [apply prefix_app_r_snoc| |exact Hd].
    intros g Hg. apply listExcl_addAll_other. lia.
  - destruct (indexFunc (fun x => Equals x.1 cur) (ListNode.children n)) as [i|].
    + destruct (ListNode.children n !! i) as [y|]; simpl; [|discriminate].
      intros Hr; injection Hr as <- <- _. tauto.
    + intros Hr; injection Hr as <- <- _. simpl. rewrite !elem_of_app.
      intros [Hd|Hd]; [left|right; exact Hd].
      rewrite filter_app, map_app. apply elem_of_app. left. exact Hd.
Qed.

(** Inserting a child only adds to what [FindChildren] yields. *)
Lemma node_find_mono nd p fresh c nd' a k cs d :
  nodeGetOrInsertChild nd p fresh = Some (c, nd', a) ->
  specFindChildren nd k = Some cs -> d ∈ cs ->
  exists cs', specFindChildren nd' k = Some cs' /\ d ∈ cs'.
Proof.
  destruct nd as [rs|n|n|n|n]; simpl; try discriminate;
    match goal with
    | |- context [MapNode.GetOrInsertChild ?n ?a ?i ?v ?cu ?f] =>
        destruct (MapNode.GetOrInsertChild n a i v cu f) as [[[c0 n'] a0]|] eqn:Hg
    | |- context [ListNode.GetOrInsertChild ?e ?n ?a ?i ?v ?cu ?f] =>
        destruct (ListNode.GetOrInsertChild e n a i v cu f) as [[[c0 n'] a0]|] eqn:Hg
    end; simpl; try discriminate;
    intros Hr; injection Hr as <- <- <-; intros Hcs; injection Hcs as <-; intros Hd;
    eexists; (split; [reflexivity|]).
  - eapply map_find_mono; eassumption.
  - eapply map_find_mono; eassumption.
  - eapply list_find_mono; eassumption.
  - eapply list_find_mono; eassumption.
Qed.

Lemma String_distinct_bool_decide p :
  patDistinct p -> distinctBy (fun a b : string => bool_decide (a = b)) (Strings p).
Proof. intros [H _]. exact H. Qed.

(** An insertion with duplicate-free value lists keeps the invariant. *)
Lemma node_groups_step nd p fresh c nd' a :
  nodeGroupsOK nd -> patDistinct p -> nodeGetOrInsertChild nd p fresh = Some (c, nd', a) ->
  nodeGroupsOK nd'.
Proof.
  intros Hg (Hs & Hz & Hi).
  destruct nd as [rs|n|n|n|n]; simpl in *; try discriminate.
  - destruct (MapNode.GetOrInsertChild _ _ _ _ _ _) as [[[c0 n'] a0]|] eqn:Hgo; simpl; [|discriminate].
    intros Hr; injection Hr as <- <- <-. simpl.
    exact (proj1 (map_insert_complete kString n _ _ _ _ _ _ _ _ Hg (fun _ _ => Hs) Hgo)).
  - destruct (MapNode.GetOrInsertChild _ _ _ _ _ _) as [[[c0 n'] a0]|] eqn:Hgo; simpl; [|discriminate].
    intros Hr; injection Hr as <- <- <-. simpl.
    exact (proj1 (map_insert_complete kInteger n _ _ _ _ _ _ _ _ Hg (fun _ _ => Hz) Hgo)).
  - destruct (ListNode.GetOrInsertChild _ _ _ _ _ _ _) as [[[c0 n'] a0]|] eqn:Hgo; simpl; [|discriminate].
    intros Hr; injection Hr as <- <- <-. simpl.
    exact (proj1 (list_insert_complete _ _ kInteger IntegerInterval_Equals_refl IntegerInterval_Equals_sym
                   IntegerInterval_Equals_trans IntegerInterval_Equals_Contains
                   n _ _ _ _ _ _ _ _ Hg (fun _ _ => Hi) Hgo)).
  - destruct (ListNode.GetOrInsertChild _ _ _ _ _ _ _) as [[[c0 n'] a0]|]; simpl; [|discriminate].
    intros Hr; injection Hr as <- <- <-. exact I.
Qed.

(** The child an insertion returns is yielded for every key the pattern's
    edge admits. *)
Lemma node_insert_finds nd p fresh c nd' a k :
  nodeGroupsOK nd -> patDistinct p -> nodeType nd = pType p -> pType p <> MatchNumberInterval ->
  nodeGetOrInsertChild nd p fresh = Some (c, nd', a) -> walkAdmits p k = true ->
  exists cs, specFindChildren nd' k = Some cs /\ c ∈ cs.
Proof.
  intros Hg (Hs & Hz & Hi) Hty Hni.
  unfold walkAdmits, specPatternAdmits, currentAdmits.
  destruct nd as [rs|n|n|n|n]; simpl in *; rewrite <- Hty; try contradiction.
  - discriminate.
  - destruct (MapNode.GetOrInsertChild _ _ _ _ _ _) as [[[c0 n'] a0]|] eqn:Hgo; simpl; [|discriminate].
    intros Hr; injection Hr as <- <- <-. intros Hk. eexists. split; [reflexivity|].
    apply (proj2 (map_insert_complete kString n _ _ _ _ _ _ _ _ Hg (fun _ _ => Hs) Hgo)).
    destruct (IsAny p); [reflexivity|]. destruct (IsInverse p).
    + rewrite <- Hk. f_equal. apply existsb_fun_ext. intros v. symmetry. apply String_eqb_bool_decide.
    + rewrite <- Hk. symmetry. apply String_eqb_bool_decide.
  - destruct (MapNode.GetOrInsertChild _ _ _ _ _ _) as [[[c0 n'] a0]|] eqn:Hgo; simpl; [|discriminate].
    intros Hr; injection Hr as <- <- <-. intros Hk. eexists. split; [reflexivity|].
    apply (proj2 (map_insert_complete kInteger n _ _ _ _ _ _ _ _ Hg (fun _ _ => Hz) Hgo)).
    destruct (IsAny p); [reflexivity|]. destruct (IsInverse p).
    + rewrite <- Hk. f_equal. apply existsb_fun_ext. intros v. symmetry. apply Zeqb_bool_decide.
    + rewrite <- Hk. symmetry. apply Zeqb_bool_decide.
  - destruct (ListNode.GetOrInsertChild _ _ _ _ _ _ _) as [[[c0 n'] a0]|] eqn:Hgo; simpl; [|discriminate].
    intros Hr; injection Hr as <- <- <-. intros Hk. eexists. split; [reflexivity|].
    apply (proj2 (list_insert_complete _ _ kInteger IntegerInterval_Equals_refl IntegerInterval_Equals_sym
                   IntegerInterval_Equals_trans IntegerInterval_Equals_Contains
                   n _ _ _ _ _ _ _ _ Hg (fun _ _ => Hi) Hgo)).
    destruct (IsAny p); [reflexivity|]. destruct (IsInverse p); exact Hk.
  - exfalso. apply Hni. rewrite <- Hty. reflexivity.
Qed.

Lemma reaches_grows s s' n ks m : findGrows s s' -> reaches s n ks m -> reaches s' n ks m.
Proof.
  intros Hg. induction 1 as [n|n k ks cs c m Hf Hc _ IH]; [constructor|].
  destruct (Hg n k cs c Hf Hc) as (cs' & Hf' & Hc'). econstructor; eassumption.
Qed.

Lemma findGrows_refl s : findGrows s s.
Proof. intros n k cs c Hf Hc. exists cs. split; assumption. Qed.

Lemma findGrows_trans s1 s2 s3 : findGrows s1 s2 -> findGrows s2 s3 -> findGrows s1 s3.
Proof.
  intros H12 H23 n k cs c Hf Hc. destruct (H12 n k cs c Hf Hc) as (cs2 & Hf2 & Hc2).
  exact (H23 n k cs2 c Hf2 Hc2).
Qed.

Lemma FindChildren_same s s' n k :
  s' !! n = s !! n -> FindChildren s' n k = FindChildren s n k.
Proof. intros H. unfold FindChildren. rewrite H. reflexivity. Qed.

Lemma findGrows_snoc s x : findGrows s (s ++ [x]).
Proof.
  intros n k cs c Hf Hc. exists cs. split; [|exact Hc].
  rewrite (FindChildren_same s); [exact Hf|]. unfold FindChildren in Hf.
  destruct (s !! n) as [nd|] eqn:Hn; simpl in Hf; [|discriminate].
  apply lookup_app_l_Some. exact Hn.
Qed.

Lemma nodeOK_inner nd p fresh c nd' a :
  nodeOK nd -> nodeGetOrInsertChild nd p fresh = Some (c, nd', a) ->
  exists ty, nodeSteps (newMatchNode ty) nd /\ nodeSteps (newMatchNode ty) nd'.
Proof.
  intros [[rs ->]|[ty Hs]] Hg; [discriminate|].
  exists ty. split; [exact Hs|eapply nodeSteps_snoc; eassumption].
Qed.

(** An insertion into an arena of grown nodes only adds to what
    [FindChildren] yields. *)
Lemma GetOrInsertChild_findGrows s id p ty c s' :
  arenaOK s -> GetOrInsertChild s id p ty = Some (c, s') -> findGrows s s'.
Proof.
  intros Hok. unfold GetOrInsertChild.
  destruct (s !! id) as [nd|] eqn:Hid; simpl; [|discriminate].
  destruct (nodeGetOrInsertChild nd p (length s)) as [[[c0 nd'] al]|] eqn:Hn; simpl; [|discriminate].
  destruct (nodeOK_inner _ _ _ _ _ _ (Forall_lookup_1 _ _ _ _ Hok Hid) Hn) as (ty0 & Hs & Hs').
  assert (Hlt : id < length s) by (eapply lookup_lt_Some; exact Hid).
  assert (Hins : findGrows s (<[id := nd']> s)).
  { intros n k cs d Hf Hd. destruct (decide (n = id)) as [->|Hne].
    - rewrite (FindChildren_grown ty0 nd s id k Hs Hid) in Hf.
      rewrite (FindChildren_grown ty0 nd' (<[id := nd']> s) id k Hs')
        by (apply list_lookup_insert_eq; exact Hlt).
      exact (node_find_mono _ _ _ _ _ _ _ _ _ Hn Hf Hd).
    - exists cs. split; [|exact Hd]. rewrite (FindChildren_same s); [exact Hf|].
      apply list_lookup_insert_ne. congruence. }
  destruct al; intros Hr; injection Hr as <- <-; [|exact Hins].
  eapply findGrows_trans; [exact Hins|apply findGrows_snoc].
Qed.

Lemma walkPath_findGrows ps s node lp leaf s' :
  arenaOK s -> walkPath s node lp ps = Some (leaf, s') -> findGrows s s'.
Proof.
  revert s node lp. induction ps as [|q ps IH]; intros s node lp Hok; simpl.
  - apply GetOrInsertChild_findGrows. exact Hok.
  - destruct (GetOrInsertChild s node lp (pType q)) as [[c s1]|] eqn:E; simpl; [|discriminate].
    intros Hw. eapply findGrows_trans; [eapply GetOrInsertChild_findGrows; eassumption|].
    eapply IH; [eapply GetOrInsertChild_ok; eassumption|exact Hw].
Qed.

Lemma AddResult_findGrows s id r s' : AddResult s id r = Some s' -> findGrows s s'.
Proof.
  unfold AddResult. destruct (s !! id) as [nd|] eqn:Hid; simpl; [|discriminate].
  destruct nd as [rs| | | |]; try discriminate. intros Hr; injection Hr as <-.
  intros n k cs c Hf Hc. exists cs. split; [|exact Hc].
  destruct (decide (n = id)) as [->|Hne].
  - unfold FindChildren in Hf. rewrite Hid in Hf. discriminate.
  - rewrite (FindChildren_same s); [exact Hf|]. apply list_lookup_insert_ne. congruence.
Qed.

Lemma newMatchNode_groupsOK ty : nodeGroupsOK (newMatchNode ty).
Proof.
  destruct ty; simpl; try exact I.
  - exists (fun _ => []). split; [split; [|split]|].
    + intros g v Hg. unfold MapNode.lookupIdx in Hg. simpl in Hg. rewrite lookup_empty in Hg.
      apply elem_of_nil in Hg. contradiction.
    + intros g v. unfold MapNode.lookupIdx. simpl. rewrite lookup_empty. simpl. lia.
    + intros g Hg. simpl in Hg. lia.
    + intros g k Hx. unfold mapExcl, MapNode.lookupIdx in Hx. simpl in Hx.
      rewrite lookup_empty in Hx. apply bool_decide_eq_true in Hx. apply elem_of_nil in Hx. contradiction.
  - exists (fun _ => []). split; [split; [|split]|].
    + intros g v Hg. unfold MapNode.lookupIdx in Hg. simpl in Hg. rewrite lookup_empty in Hg.
      apply elem_of_nil in Hg. contradiction.
    + intros g v. unfold MapNode.lookupIdx. simpl. rewrite lookup_empty. simpl. lia.
    + intros g Hg. simpl in Hg. lia.
    + intros g k Hx. unfold mapExcl, MapNode.lookupIdx in Hx. simpl in Hx.
      rewrite lookup_empty in Hx. apply bool_decide_eq_true in Hx. apply elem_of_nil in Hx. contradiction.
  - exists (fun _ => []). split; [split; [|split]|].
    + intros g v Hg. apply elem_of_nil in Hg. contradiction.
    + intros g v. simpl. lia.
    + intros g Hg. simpl in Hg. lia.
    + intros g k Hx. discriminate.
Qed.

Lemma GetOrInsertChild_groupsOK s id p ty c s' :
  groupsOK s -> patDistinct p -> GetOrInsertChild s id p ty = Some (c, s') -> groupsOK s'.
Proof.
  unfold GetOrInsertChild, groupsOK. intros Hs Hp.
  destruct (s !! id) as [nd|] eqn:Hid; simpl; [|discriminate].
  destruct (nodeGetOrInsertChild nd p (length s)) as [[[c0 nd'] al]|] eqn:Hn; simpl; [|discriminate].
  assert (Hnd : nodeGroupsOK nd') by exact (node_groups_step _ _ _ _ _ _ (Forall_lookup_1 _ _ _ _ Hs Hid) Hp Hn).
  destruct al; intros Hr; injection Hr as <- <-.
  - apply Forall_app_2; [apply Forall_insert; assumption|constructor; [apply newMatchNode_groupsOK|constructor]].
  - apply Forall_insert; assumption.
Qed.

Lemma walkPath_groupsOK ps s node lp leaf s' :
  groupsOK s -> Forall patDistinct (lp :: ps) -> walkPath s node lp ps = Some (leaf, s') -> groupsOK s'.
Proof.
  revert s node lp. induction ps as [|q ps IH]; intros s node lp Hs Hp; simpl;
    apply Forall_cons in Hp as [Hlp Hp].
  - apply GetOrInsertChild_groupsOK; assumption.
  - destruct (GetOrInsertChild s node lp (pType q)) as [[c s1]|] eqn:E; simpl; [|discriminate].
    apply IH; [eapply GetOrInsertChild_groupsOK; eassumption|exact Hp].
Qed.

Lemma AddResult_groupsOK s id r s' : groupsOK s -> AddResult s id r = Some s' -> groupsOK s'.
Proof.
  unfold AddResult, groupsOK. intros Hs.
  destruct (s !! id) as [nd|]; simpl; [|discriminate].
  destruct nd; try discriminate. intros H; injection H as <-.
  apply Forall_insert; [assumption|exact I].
Qed.

(** The child an insertion returns is yielded, for every key the pattern's
    edge admits, by the node it was inserted into. *)
Lemma GetOrInsertChild_finds s id nd p ty c s' k :
  arenaOK s -> groupsOK s -> s !! id = Some nd -> nodeType nd = pType p ->
  pType p <> MatchNumberInterval -> patDistinct p ->
  GetOrInsertChild s id p ty = Some (c, s') -> walkAdmits p k = true ->
  exists cs, FindChildren s' id k = Some cs /\ c ∈ cs.
Proof.
  intros Hok Hgs Hid Hty Hni Hp. unfold GetOrInsertChild. rewrite Hid. simpl.
  destruct (nodeGetOrInsertChild nd p (length s)) as [[[c0 nd'] al]|] eqn:Hn; simpl; [|discriminate].
  destruct (nodeOK_inner _ _ _ _ _ _ (Forall_lookup_1 _ _ _ _ Hok Hid) Hn) as (ty0 & _ & Hs').
  assert (Hlt : id < length s) by (eapply lookup_lt_Some; exact Hid).
  intros Hr Hk.
  destruct (node_insert_finds _ _ _ _ _ _ k (Forall_lookup_1 _ _ _ _ Hgs Hid) Hp Hty Hni Hn Hk)
    as (cs & Hcs & Hc).
  exists cs. split; [|destruct al; injection Hr as <- _; exact Hc].
  destruct al; injection Hr as <- <-.
  - rewrite (FindChildren_grown ty0 nd'); [exact Hcs|exact Hs'|].
    apply lookup_app_l_Some. apply list_lookup_insert_eq. exact Hlt.
  - rewrite (FindChildren_grown ty0 nd'); [exact Hcs|exact Hs'|].
    apply list_lookup_insert_eq. exact Hlt.
Qed.

Lemma node_at {T} (R : list (MatchRule T)) tys s lab node pl ty :
  soundArena R tys s lab -> lab !! node = Some pl -> tys !! length pl = Some ty ->
  exists nd, s !! node = Some nd /\ nodeType nd = ty.
Proof.
  intros [Hlen Hs] Hpl Hty. destruct (s !! node) as [nd|] eqn:Hn.
  2: { apply lookup_ge_None in Hn. apply lookup_lt_Some in Hpl. lia. }
  exists nd. split; [reflexivity|].
  destruct (Hs node nd Hn) as (pl0 & Hpl0 & Hnd). rewrite Hpl in Hpl0. injection Hpl0 as <-.
  destruct nd as [rs| | | |]; simpl in Hnd |- *;
    try (destruct Hnd as [Ht _]; rewrite Hty in Ht; injection Ht as <-; reflexivity).
  destruct Hnd as [Hl _]. apply lookup_lt_Some in Hty. lia.
Qed.

(** The path [walkPath] makes or follows is one [FindChildren] follows, for
    every key list its patterns' edges admit. *)
Lemma walkPath_complete {T} (R : list (MatchRule T)) tys ps :
  forall s lab node pl lp leaf s' keys,
  tysOK tys -> soundArena R tys s lab -> arenaOK s -> groupsOK s -> lab !! node = Some pl ->
  drop (length pl) tys = map pType (lp :: ps) -> Forall patOK (lp :: ps) ->
  walkPath s node lp ps = Some (leaf, s') -> walkAdmitsAll (lp :: ps) keys = true ->
  reaches s' node keys leaf.
Proof.
  induction ps as [|q ps IH]; intros s lab node pl lp leaf s' keys Hok HS Hao Hgs Hpl Hdrop Hp Hw Hk;
    simpl in Hw; apply drop_cons_inv in Hdrop as [Hty Hdrop];
    apply Forall_cons in Hp as [Hlp Hp];
    destruct keys as [|k keys]; simpl in Hk; try discriminate;
    apply andb_true_iff in Hk as [Hk Hks];
    destruct (node_at R tys s lab node pl _ HS Hpl Hty) as (nd & Hnd & Hnt);
    destruct (tysOK_lookup _ _ _ Hok Hty) as [_ Hni].
  - destruct keys; [|discriminate].
    destruct (GetOrInsertChild_finds s node nd lp MatchNone leaf s' k Hao Hgs Hnd Hnt Hni
                (proj1 Hlp) Hw Hk) as (cs & Hf & Hc).
    econstructor; [exact Hf|exact Hc|constructor].
  - destruct (GetOrInsertChild s node lp (pType q)) as [[c s1]|] eqn:Hg; simpl in Hw; [|discriminate].
    apply drop_cons_inv in Hdrop as Hq. destruct Hq as [Hq _].
    destruct (GetOrInsertChild_sound R tys s lab node pl lp (pType q) c s1 HS Hpl Hty Hlp)
      as (lab1 & l & HS1 & _ & Hlk1 & _); [|exact Hg|].
    { left. split; [exact Hq|]. exact (tysOK_lookup _ _ _ Hok Hq). }
    pose proof (GetOrInsertChild_ok _ _ _ _ _ _ Hao Hg) as Hao1.
    pose proof (GetOrInsertChild_groupsOK _ _ _ _ _ _ Hgs (proj1 Hlp) Hg) as Hgs1.
    assert (Hr : reaches s' c keys leaf).
    { apply (IH s1 lab1 c (pl ++ [l]) q leaf s' keys Hok HS1 Hao1 Hgs1 Hlk1); [|exact Hp|exact Hw|exact Hks].
      rewrite length_app. simpl. rewrite Nat.add_1_r. exact Hdrop. }
    destruct (GetOrInsertChild_finds s node nd lp (pType q) c s1 k Hao Hgs Hnd Hnt Hni
                (proj1 Hlp) Hg Hk) as (cs & Hf & Hc).
    destruct (walkPath_findGrows ps s1 c q leaf s' Hao1 Hw node k cs c Hf Hc) as (cs' & Hf' & Hc').
    econstructor; [exact Hf'|exact Hc'|exact Hr].
Qed.

(** [doAddRule] leaves its result at a terminal node [Search] reaches from
    the root for every key list its patterns' edges admit. *)
Lemma doAddRule_complete {T} (R : list (MatchRule T)) (t t' : MatchTree T) lab ps vi prio keys :
  tysOK (types t) -> soundTree t R lab -> arenaOK (nodes t) -> groupsOK (nodes t) ->
  map pType ps = types t -> Forall patOK ps ->
  doAddRule t ps vi prio = Some t' -> walkAdmitsAll ps keys = true ->
  exists r leaf rs res, root t' = Some r /\ reaches (nodes t') r keys leaf /\
    nodes t' !! leaf = Some (matchNodeOfNone rs) /\ res ∈ rs /\ ValueIndex res = vi.
Proof.
  intros Hok [HS Hroot] Hao Hgs Hty Hp Hd Hk. unfold doAddRule in Hd.
  assert (Hr1 : exists r t1 lab1, getOrInsertRoot t
              (match ps with p :: _ => pType p | [] => MatchNone end) = (r, t1) /\
            root t1 = Some r /\ soundArena R (types t) (nodes t1) lab1 /\ lab1 !! r = Some [] /\
            arenaOK (nodes t1) /\ groupsOK (nodes t1)).
  { unfold getOrInsertRoot. destruct (root t) as [r|] eqn:Hrt.
    - exists r, t, lab. split; [reflexivity|]. split; [first [exact Hrt|reflexivity]|].
      split; [exact HS|split; [apply Hroot; first [exact Hrt|reflexivity]|split; assumption]].
    - eexists _, _, (lab ++ [[]]). split; [reflexivity|]. simpl.
      split; [reflexivity|split; [|split; [|split]]].
      + apply soundArena_snoc; [exact HS|]. apply nodeSound_new.
        destruct ps as [|p ps]; simpl in Hty.
        * right. rewrite <- Hty. split; reflexivity.
        * left. assert (H0 : types t !! 0 = Some (pType p)) by (rewrite <- Hty; reflexivity).
          split; [exact H0|]. exact (tysOK_lookup _ _ _ Hok H0).
      + destruct HS as [Hlen _]. rewrite lookup_app_r by lia. rewrite Hlen, Nat.sub_diag.
        reflexivity.
      + apply Forall_app_2; [exact Hao|constructor; [apply newMatchNode_ok|constructor]].
      + apply Forall_app_2; [exact Hgs|constructor; [apply newMatchNode_groupsOK|constructor]]. }
  destruct Hr1 as (r & t1 & lab1 & Hgr & Hrt1 & HS1 & Hl1 & Hao1 & Hgs1).
  rewrite Hgr in Hd.
  destruct (match ps with | [] => Some (r, nodes t1) | p :: ps => walkPath (nodes t1) r p ps end)
    as [[leaf s]|] eqn:Hw; simpl in Hd; [|discriminate].
  assert (Hreach : reaches s r keys leaf).
  { destruct ps as [|p ps].
    - injection Hw as <- <-. destruct keys; [constructor|discriminate].
    - eapply walkPath_complete; [exact Hok|exact HS1|exact Hao1|exact Hgs1|exact Hl1| |exact Hp|exact Hw|exact Hk].
      simpl. symmetry. exact Hty. }
  destruct (AddResult s leaf _) as [s'|] eqn:Ha; simpl in Hd; [|discriminate].
  injection Hd as <-. simpl.
  pose proof Ha as Ha'. unfold AddResult in Ha'.
  destruct (s !! leaf) as [[rs| | | |]|] eqn:Hleaf; simpl in Ha'; try discriminate.
  injection Ha' as <-.
  exists r, leaf, (rs ++ [{| ValueIndex := vi; Priority := prio |}]), {| ValueIndex := vi; Priority := prio |}.
  split; [exact Hrt1|split; [|split; [|split; [|reflexivity]]]].
  - eapply reaches_grows; [|exact Hreach]. apply (AddResult_findGrows s leaf _ _ Ha).
  - apply list_lookup_insert_eq. eapply lookup_lt_Some; exact Hleaf.
  - apply elem_of_app. right. left.
Qed.

Lemma treeExt_refl {T} (t : MatchTree T) : treeExt t t.
Proof.
  split; [auto|split; [apply findGrows_refl|]]. intros i rs H. exists []. rewrite app_nil_r. exact H.
Qed.

Lemma treeExt_trans {T} (t1 t2 t3 : MatchTree T) : treeExt t1 t2 -> treeExt t2 t3 -> treeExt t1 t3.
Proof.
  intros (A1 & B1 & C1) (A2 & B2 & C2). split; [auto|split; [eapply findGrows_trans; eassumption|]].
  intros i rs H. destruct (C1 i rs H) as (rs1 & H1). destruct (C2 i _ H1) as (rs2 & H2).
  exists (rs1 ++ rs2). rewrite app_assoc. exact H2.
Qed.

Lemma pathTo_ext {T} (t t' : MatchTree T) keys vi : treeExt t t' -> pathTo t keys vi -> pathTo t' keys vi.
Proof.
  intros (A & B & C) (r & leaf & rs & res & Hr & Hreach & Hl & Hres & Hvi).
  destruct (C leaf rs Hl) as (rs' & Hl').
  exists r, leaf, (rs ++ rs'), res. split; [auto|split; [eapply reaches_grows; eassumption|]].
  split; [exact Hl'|split; [apply elem_of_app; left; exact Hres|exact Hvi]].
Qed.

Lemma GetOrInsertChild_leaves s id p ty c s' i rs :
  GetOrInsertChild s id p ty = Some (c, s') ->
  s !! i = Some (matchNodeOfNone rs) -> s' !! i = Some (matchNodeOfNone rs).
Proof. intros H. apply GetOrInsertChild_terminals in H as [H _]. apply H. Qed.

Lemma walkPath_leaves ps s node lp leaf s' i rs :
  walkPath s node lp ps = Some (leaf, s') ->
  s !! i = Some (matchNodeOfNone rs) -> s' !! i = Some (matchNodeOfNone rs).
Proof.
  revert s node lp. induction ps as [|q ps IH]; intros s node lp; simpl.
  - apply GetOrInsertChild_leaves.
  - destruct (GetOrInsertChild s node lp (pType q)) as [[c s1]|] eqn:E; simpl; [|discriminate].
    intros Hw Hi. eapply IH; [exact Hw|]. eapply GetOrInsertChild_leaves; eassumption.
Qed.

Lemma doAddRule_ext {T} (t t' : MatchTree T) ps vi prio :
  arenaOK (nodes t) -> doAddRule t ps vi prio = Some t' -> treeExt t t'.
Proof.
  intros Hao. unfold doAddRule.
  assert (Hr1 : forall ty, treeExt t (getOrInsertRoot t ty).2 /\ arenaOK (nodes (getOrInsertRoot t ty).2) /\
                  root (getOrInsertRoot t ty).2 = Some (getOrInsertRoot t ty).1).
  { intros ty. unfold getOrInsertRoot. destruct (root t) as [r|] eqn:Hrt; simpl.
    - split; [apply treeExt_refl|split; [exact Hao|exact Hrt]].
    - split; [|split; [apply Forall_app_2; [exact Hao|constructor; [apply newMatchNode_ok|constructor]]|reflexivity]].
      split; [intros r H; rewrite Hrt in H; discriminate|split; [apply findGrows_snoc|]].
      intros i rs H. exists []. rewrite app_nil_r. simpl. apply lookup_app_l_Some. exact H. }
  specialize (Hr1 (match ps with p :: _ => pType p | [] => MatchNone end)).
  destruct (getOrInsertRoot t _) as [r t1]. simpl in Hr1. destruct Hr1 as (E1 & Hao1 & _).
  destruct (match ps with [] => _ | _ => _ end) as [[leaf s]|] eqn:Hw; simpl; [|discriminate].
  assert (E2 : findGrows (nodes t1) s /\
               forall i rs, nodes t1 !! i = Some (matchNodeOfNone rs) -> s !! i = Some (matchNodeOfNone rs)).
  { destruct ps as [|p ps].
    - injection Hw as _ <-. split; [apply findGrows_refl|auto].
    - split; [eapply walkPath_findGrows; eassumption|]. intros i rs. eapply walkPath_leaves. exact Hw. }
  destruct (AddResult s leaf _) as [s'|] eqn:Ha; simpl; [|discriminate].
  intros H; injection H as <-. eapply treeExt_trans; [exact E1|].
  destruct E2 as [F2 L2]. split; [simpl; auto|split; [simpl; eapply findGrows_trans; [exact F2|eapply AddResult_findGrows; exact Ha]|]].
  intros i rs Hi. simpl. apply L2 in Hi. unfold AddResult in Ha.
  destruct (s !! leaf) as [[rs0| | | |]|] eqn:Hleaf; simpl in Ha; try discriminate.
  injection Ha as <-. destruct (decide (i = leaf)) as [->|Hne].
  - rewrite Hleaf in Hi. injection Hi as <-. eexists. apply list_lookup_insert_eq.
    eapply lookup_lt_Some; exact Hleaf.
  - exists []. rewrite app_nil_r, list_lookup_insert_ne by congruence. exact Hi.
Qed.

Lemma forEach_inv_ext {T A} (f : A -> MatchTree T -> option (MatchTree T)) vs :
  (forall v t t', In v vs -> arenaOK (nodes t) -> f v t = Some t' -> arenaOK (nodes t') /\ treeExt t t') ->
  forall t t', arenaOK (nodes t) -> forEach f vs t = Some t' -> arenaOK (nodes t') /\ treeExt t t'.
Proof.
  induction vs as [|v vs IH]; intros Hf t t' Ht; simpl.
  - intros H; injection H as <-. split; [exact Ht|apply treeExt_refl].
  - destruct (f v t) as [t1|] eqn:H1; simpl; [|discriminate]. intros Hfe.
    destruct (Hf v t t1 (or_introl eq_refl) Ht H1) as [Ht1 E1].
    destruct (IH (fun v' t0 t0' Hv => Hf v' t0 t0' (or_intror Hv)) t1 t' Ht1 Hfe) as [Ht' E2].
    split; [exact Ht'|eapply treeExt_trans; eassumption].
Qed.

Lemma walkPatterns_ext {T} (rest pre : list MatchPattern) vi prio (t t' : MatchTree T) :
  arenaOK (nodes t) -> walkPatterns pre rest vi prio t = Some t' -> treeExt t t'.
Proof.
  revert pre t t'; induction rest as [|q rest IH]; intros pre t t' Hao; simpl.
  - apply doAddRule_ext. exact Hao.
  - destruct (IsAny q); [apply IH; exact Hao|].
    destruct (IsInverse q); [apply IH; exact Hao|].
    destruct (pType q); try discriminate; intros Hfe;
    match type of Hfe with
    | forEach ?f ?vs _ = _ =>
        apply (forEach_inv_ext f vs); [|exact Hao|exact Hfe];
        intros v t0 t0' _ H0 Hw0; split; [eapply walkPatterns_ok; eassumption|];
        eapply IH; eassumption
    end.
Qed.

Lemma doAddRule_groupsOK {T} (t t' : MatchTree T) ps vi prio :
  groupsOK (nodes t) -> Forall patDistinct ps -> doAddRule t ps vi prio = Some t' -> groupsOK (nodes t').
Proof.
  intros Hgs Hp. unfold doAddRule.
  assert (Hr1 : forall ty, groupsOK (nodes (getOrInsertRoot t ty).2)).
  { intros ty. unfold getOrInsertRoot. destruct (root t); simpl; [exact Hgs|].
    apply Forall_app_2; [exact Hgs|constructor; [apply newMatchNode_groupsOK|constructor]]. }
  specialize (Hr1 (match ps with p :: _ => pType p | [] => MatchNone end)).
  destruct (getOrInsertRoot t _) as [r t1]. simpl in Hr1.
  destruct (match ps with [] => _ | _ => _ end) as [[leaf s]|] eqn:Hw; simpl; [|discriminate].
  assert (Hs : groupsOK s).
  { destruct ps as [|p ps]; [injection Hw as _ <-; exact Hr1|]. eapply walkPath_groupsOK; eassumption. }
  destruct (AddResult s leaf _) as [s'|] eqn:Ha; simpl; [|discriminate].
  intros H; injection H as <-. simpl. eapply AddResult_groupsOK; eassumption.
Qed.

Lemma walkPatterns_groupsOK {T} (rest pre : list MatchPattern) vi prio (t t' : MatchTree T) :
  groupsOK (nodes t) -> Forall patDistinct pre -> Forall patDistinct rest ->
  walkPatterns pre rest vi prio t = Some t' -> groupsOK (nodes t').
Proof.
  revert pre t t'; induction rest as [|q rest IH]; intros pre t t' Hgs Hpre Hrest; simpl.
  - apply doAddRule_groupsOK; assumption.
  - apply Forall_cons in Hrest as [Hq Hrest].
    assert (Hsn : forall q', patDistinct q' -> Forall patDistinct (pre ++ [q'])).
    { intros q' H. apply Forall_app_2; [exact Hpre|constructor; [exact H|constructor]]. }
    destruct (IsAny q); [apply IH; auto|].
    destruct (IsInverse q); [apply IH; auto|].
    destruct (pType q); try discriminate; intros Hfe;
    match type of Hfe with
    | forEach ?f ?vs _ = _ =>
        refine (forEach_inv (fun t0 => groupsOK (nodes t0)) f vs _ t t' Hgs Hfe);
        intros v t0 t0' _ H0 Hw0; refine (IH _ t0 t0' H0 _ Hrest Hw0); apply Hsn; exact Hq
    end.
Qed.

Lemma walkAdmitsAll_snoc ps keys p k :
  walkAdmitsAll ps keys = true -> walkAdmits p k = true ->
  walkAdmitsAll (ps ++ [p]) (keys ++ [k]) = true.
Proof.
  revert keys. induction ps as [|q ps IH]; intros [|k0 keys]; simpl; try (intros Hf; discriminate Hf).
  - intros _ H. rewrite H. reflexivity.
  - intros H Hp. apply andb_true_iff in H as [H1 H2]. rewrite H1, (IH keys H2 Hp). reflexivity.
Qed.

(** [walkPatterns] leaves a result of the rule at a terminal node reached
    along every key list that the patterns expanded so far and the
    patterns still to expand admit. *)
Lemma walkPatterns_complete {T} (R : list (MatchRule T)) rule vi prio rest :
  forall pre (t t' : MatchTree T) kp kr,
  tysOK (types t) -> R !! vi = Some rule ->
  map pType (pre ++ rest) = types t -> Forall patOK pre -> Forall patDistinct rest ->
  (forall keys, specPatternsAdmit (pre ++ rest) keys = true -> specRuleMatches rule keys = true) ->
  (exists lab, soundTree t R lab) -> arenaOK (nodes t) -> groupsOK (nodes t) ->
  walkPatterns pre rest vi prio t = Some t' ->
  walkAdmitsAll pre kp = true -> specPatternsAdmit rest kr = true ->
  pathTo t' (kp ++ kr) vi.
Proof.
  induction rest as [|p rest IH];
    intros pre t t' kp kr Hok Hr Hmap Hpre Hrest Hm [lab Hs] Hao Hgs Hw Hkp Hkr; simpl in Hw.
  - destruct kr; [|discriminate]. rewrite app_nil_r in Hmap |- *.
    exact (doAddRule_complete R t t' lab pre vi prio kp Hok Hs Hao Hgs Hmap Hpre Hw Hkp).
  - destruct kr as [|k kr]; [discriminate|]. simpl in Hkr. apply andb_true_iff in Hkr as [Hk Hkr].
    apply Forall_cons in Hrest as [Hdp Hrest].
    assert (Hcase : forall q t0 t0', pType q = pType p -> patOK q ->
              (forall k, specPatternAdmits q k = specPatternAdmits p k) -> walkAdmits q k = true ->
              types t0 = types t -> (exists lab, soundTree t0 R lab) -> arenaOK (nodes t0) ->
              groupsOK (nodes t0) -> walkPatterns (pre ++ [q]) rest vi prio t0 = Some t0' ->
              pathTo t0' (kp ++ k :: kr) vi).
    { intros q t0 t0' Hq Hqok Hqa Hqk Ht0 Hs0 Hao0 Hgs0 Hw0.
      replace (kp ++ k :: kr) with ((kp ++ [k]) ++ kr) by (rewrite <- app_assoc; reflexivity).
      apply (IH (pre ++ [q]) t0 t0' (kp ++ [k]) kr); try assumption.
      - rewrite Ht0. exact Hok.
      - rewrite <- app_assoc. simpl. rewrite Ht0, <- Hmap, !map_app. simpl. rewrite Hq. reflexivity.
      - apply Forall_app_2; [exact Hpre|constructor; [exact Hqok|constructor]].
      - intros keys. rewrite <- app_assoc. simpl.
        rewrite (specPatternsAdmit_swap pre p q rest keys Hqa). apply Hm.
      - apply walkAdmitsAll_snoc; assumption. }
    assert (Hsplit : forall A (vs : list A) (setc : A -> MatchPattern) v,
              In v vs ->
              (forall v, In v vs -> pType (setc v) = pType p /\ patOK (setc v) /\
                 forall k, specPatternAdmits (setc v) k = specPatternAdmits p k) ->
              walkAdmits (setc v) k = true ->
              forEach (fun v => walkPatterns (pre ++ [setc v]) rest vi prio) vs t = Some t' ->
              pathTo t' (kp ++ k :: kr) vi).
    { intros A vs setc v Hin Hset Hv Hfe.
      assert (Hstep : forall v' t0 t0', In v' vs -> types t0 = types t -> (exists lab, soundTree t0 R lab) ->
                 arenaOK (nodes t0) -> groupsOK (nodes t0) ->
                 walkPatterns (pre ++ [setc v']) rest vi prio t0 = Some t0' ->
                 types t0' = types t /\ (exists lab, soundTree t0' R lab) /\ arenaOK (nodes t0') /\
                 groupsOK (nodes t0')).
      { intros v' t0 t0' Hin' Ht0 Hs0 Hao0 Hgs0 Hw0. destruct (Hset v' Hin') as (Hq & Hqok & Hqa).
        destruct (walkPatterns_sound R rule vi prio rest (pre ++ [setc v']) t0 t0' (types t) (values t0)
                    Ht0 eq_refl Hok Hr) as (Ht' & _ & Hs').
        - rewrite <- app_assoc. simpl. rewrite <- Hmap, !map_app. simpl. rewrite Hq. reflexivity.
        - apply Forall_app_2; [exact Hpre|constructor; [exact Hqok|constructor]].
        - exact Hrest.
        - intros keys. rewrite <- app_assoc. simpl.
          rewrite (specPatternsAdmit_swap pre p (setc v') rest keys Hqa). apply Hm.
        - exact Hs0.
        - exact Hw0.
        - split; [exact Ht'|split; [exact Hs'|split]].
          + eapply walkPatterns_ok; eassumption.
          + eapply walkPatterns_groupsOK; [exact Hgs0| |exact Hrest|exact Hw0].
            apply Forall_app_2; [|constructor; [exact (proj1 Hqok)|constructor]].
            eapply Forall_impl; [exact Hpre|]. intros x [Hx _]. exact Hx. }
      pose proof Hin as Hin0. apply in_split in Hin as (l1 & l2 & Hvs). rewrite Hvs in Hfe.
      rewrite forEach_app in Hfe.
      destruct (forEach _ l1 t) as [t1|] eqn:H1; simpl in Hfe; [|discriminate].
      destruct (walkPatterns (pre ++ [setc v]) rest vi prio t1) as [t2|] eqn:H2; simpl in Hfe;
        [|discriminate].
      assert (Q1 : types t1 = types t /\ (exists lab, soundTree t1 R lab) /\ arenaOK (nodes t1) /\
                   groupsOK (nodes t1)).
      { refine (forEach_inv (fun t0 => types t0 = types t /\ (exists lab, soundTree t0 R lab) /\
                   arenaOK (nodes t0) /\ groupsOK (nodes t0)) _ l1 _ t t1 _ H1).
        - intros v' t0 t0' Hin' (Ht0 & Hs0 & Hao0 & Hgs0) Hw0.
          apply (Hstep v' t0 t0'); try assumption. rewrite Hvs. apply in_or_app. left. exact Hin'.
        - split; [reflexivity|split; [exists lab; exact Hs|split; assumption]]. }
      destruct Q1 as (Ht1 & Hs1 & Hao1 & Hgs1).
      destruct (Hset v Hin0) as (Hq & Hqok & Hqa).
      pose proof (Hcase (setc v) t1 t2 Hq Hqok Hqa Hv Ht1 Hs1 Hao1 Hgs1 H2) as Hp2.
      eapply pathTo_ext; [|exact Hp2].
      refine (proj2 (forEach_inv_ext _ l2 _ t2 t' _ Hfe)).
      - intros v' t0 t0' _ Hao0 Hw0. split; [eapply walkPatterns_ok; eassumption|].
        eapply walkPatterns_ext; eassumption.
      - eapply walkPatterns_ok; [exact Hao1|exact H2]. }
    destruct (IsAny p) eqn:Ha.
    { apply (Hcase p t t'); try assumption; try reflexivity.
      - split; [exact Hdp|congruence].
      - unfold walkAdmits. rewrite Ha. reflexivity.
      - exists lab. exact Hs. }
    destruct (IsInverse p) eqn:Hi.
    { apply (Hcase p t t'); try assumption; try reflexivity.
      - split; [exact Hdp|congruence].
      - unfold walkAdmits. rewrite Ha, Hi. exact Hk.
      - exists lab. exact Hs. }
    unfold specPatternAdmits in Hk. rewrite Ha, Hi in Hk. simpl in Hk.
    destruct (pType p) eqn:Htp.
    + discriminate.
    + apply existsb_exists in Hk as (v & Hin & Hv).
      apply (Hsplit _ (Strings p) (setCurrentString p) v Hin); [| |exact Hw].
      * intros v' Hin'. split; [exact Htp|split; [|reflexivity]].
        split; [exact Hdp|]. intros _ _. unfold patCurrentIn. simpl. rewrite Htp.
        apply list_elem_of_In. exact Hin'.
      * unfold walkAdmits, currentAdmits. simpl. rewrite Ha, Hi, Htp. exact Hv.
    + apply existsb_exists in Hk as (v & Hin & Hv).
      apply (Hsplit _ (Integers p) (setCurrentInteger p) v Hin); [| |exact Hw].
      * intros v' Hin'. split; [exact Htp|split; [|reflexivity]].
        split; [exact Hdp|]. intros _ _. unfold patCurrentIn. simpl. rewrite Htp.
        apply list_elem_of_In. exact Hin'.
      * unfold walkAdmits, currentAdmits. simpl. rewrite Ha, Hi, Htp. exact Hv.
    + apply existsb_exists in Hk as (v & Hin & Hv).
      apply (Hsplit _ (IntegerIntervals p) (setCurrentIntegerInterval p) v Hin); [| |exact Hw].
      * intros v' Hin'. split; [exact Htp|split; [|reflexivity]].
        split; [exact Hdp|]. intros _ _. unfold patCurrentIn. simpl. rewrite Htp.
        apply list_elem_of_In. exact Hin'.
      * unfold walkAdmits, currentAdmits. simpl. rewrite Ha, Hi, Htp. exact Hv.
    + exfalso. assert (Hpin : pType p ∈ types t).
      { rewrite <- Hmap, map_app. apply elem_of_app. right. simpl. left. }
      unfold tysOK in Hok. rewrite Forall_forall in Hok.
      destruct (Hok _ Hpin) as [_ Hni]. apply Hni. exact Htp.
Qed.

(** In a tree built by [AddRule], every key list a rule matches leads from
    the root to a terminal node holding a result of that rule. *)
Lemma builtFrom_complete {T} (t : MatchTree T) R :
  builtFrom t R -> tysOK (types t) ->
  groupsOK (nodes t) /\
  forall i rule keys, R !! i = Some rule -> specRuleMatches rule keys = true -> pathTo t keys i.
Proof.
  induction 1 as [tys t Hnew|t R rule t' Hb IH Hadd|t R rule t' e Hb IH Hadd]; intros Hok.
  - unfold NewMatchTree in Hnew. destruct (decide _); [discriminate|]. injection Hnew as <-.
    split; [constructor|]. intros i rule keys Hi. rewrite lookup_nil in Hi. discriminate.
  - pose proof (builtFrom_reachable t R Hb) as Hreach.
    destruct (reachable_wf t Hreach) as [Hnone _].
    destruct (AddRule_grows t t' rule None Hnone Hadd) as [[Hc _]|(_ & Hty & _)];
      [contradiction|].
    rewrite Hty in Hok. destruct (IH Hok) as [Hgs Hold].
    destruct (builtFrom_sound t R Hb Hok) as [Hv [lab [HS Hroot]]].
    pose proof (reachable_ok t Hreach) as Hao.
    unfold AddRule in Hadd.
    destruct (negb _) eqn:Hlen; [injection Hadd as _ H; discriminate|].
    destruct (firstTypeMismatch _ _) as [[x y]|] eqn:Hmis; [injection Hadd as _ H; discriminate|].
    destruct (walkPatterns _ _ _ _ _) as [t2|] eqn:Hw; simpl in Hadd; [|discriminate].
    injection Hadd as <-.
    pose proof (AddRule_types_match t rule Hlen Hmis) as Hmap.
    assert (Hni : Forall (fun p => pType p <> MatchNumberInterval) (Patterns rule)).
    { apply Forall_forall. intros q Hq. unfold tysOK in Hok. rewrite Forall_forall in Hok.
      apply Hok. rewrite <- Hmap. apply list_elem_of_In, in_map, list_elem_of_In. exact Hq. }
    assert (Hdist : Forall patDistinct (map clonePattern (Patterns rule))).
    { apply Forall_map, Forall_forall. intros q _. apply patDistinct_clone. }
    split.
    + exact (walkPatterns_groupsOK _ [] _ _ (mkMatchTree (types t) (values t ++ [Value rule]) (root t) (nodes t)) t2 Hgs (Forall_nil_2 _) Hdist Hw).
    + intros i rule0 keys Hi Hm0. apply lookup_app_Some in Hi as [Hi|[Hge Hi]].
      * eapply pathTo_ext; [refine (walkPatterns_ext _ _ _ _ _ _ _ Hw); exact Hao|].
        exact (Hold i rule0 keys Hi Hm0).
      * apply list_lookup_singleton_Some in Hi as [Hi <-].
        assert (Hvi : length (values t) = i) by (rewrite Hv, length_map; lia).
        rewrite <- Hvi.
        refine (walkPatterns_complete (R ++ [rule]) rule (length (values t)) (RulePriority rule)
                  (map clonePattern (Patterns rule)) []
                  (mkMatchTree (types t) (values t ++ [Value rule]) (root t) (nodes t)) t2 [] keys
                  Hok _ _ (Forall_nil_2 _) Hdist _ _ Hao Hgs Hw eq_refl _).
        -- rewrite Hv, length_map. apply list_lookup_middle. reflexivity.
        -- simpl. rewrite map_map. exact Hmap.
        -- intros keys' Hk. unfold specRuleMatches. simpl in Hk.
           rewrite specPatternsAdmit_clone in Hk by exact Hni. exact Hk.
        -- exists lab. split; simpl; [apply soundArena_rules_mono; exact HS|exact Hroot].
        -- rewrite specPatternsAdmit_clone by exact Hni. exact Hm0.
  - pose proof Hadd as He. apply AddRule_error in He. subst t'.
    exact (IH Hok).
Qed.

Lemma mapM_elem_of {A B} (f : A -> option B) l k y :
  mapM f l = Some k -> y ∈ k <-> exists x, x ∈ l /\ f x = Some y.
Proof.
  intros H. apply mapM_Some in H. induction H as [|x y0 l k Hxy HF IH].
  - split; [intros Hy; apply elem_of_nil in Hy; contradiction|].
    intros (x & Hx & _). apply elem_of_nil in Hx. contradiction.
  - rewrite elem_of_cons, IH. split.
    + intros [->|(x' & Hx' & Hf)]; [exists x; split; [left|exact Hxy]|].
      exists x'. split; [right; exact Hx'|exact Hf].
    + intros (x' & Hx' & Hf). apply elem_of_cons in Hx' as [->|Hx'].
      * left. congruence.
      * right. exists x'. split; assumption.
Qed.

Lemma elem_of_concat_iff {A} (x : A) (ls : list (list A)) :
  x ∈ concat ls <-> exists l, l ∈ ls /\ x ∈ l.
Proof.
  rewrite list_elem_of_In, in_concat. split.
  - intros (l & Hl & Hx). exists l. split; apply list_elem_of_In; assumption.
  - intros (l & Hl & Hx). exists l. split; apply list_elem_of_In; assumption.
Qed.

Lemma insertRev_perm {A} (cmp : A -> A -> Z) x acc : insertRev cmp x acc ≡ₚ x :: acc.
Proof.
  induction acc as [|p ps IH]; simpl; [reflexivity|].
  destruct (Z.ltb _ 0); [|reflexivity]. rewrite IH. apply Permutation_swap.
Qed.

Lemma sortFunc_perm {A} (cmp : A -> A -> Z) l : sortFunc cmp l ≡ₚ l.
Proof.
  unfold sortFunc. rewrite <- Permutation_rev.
  assert (H : forall acc, fold_left (fun acc x => insertRev cmp x acc) l acc ≡ₚ l ++ acc).
  { induction l as [|x l IH]; intros acc; simpl; [reflexivity|].
    rewrite IH, insertRev_perm. symmetry. apply Permutation_middle. }
  rewrite H, app_nil_r. reflexivity.
Qed.

Lemma dedupResults_sub last l r : r ∈ dedupResults last l -> r ∈ l.
Proof.
  revert last. induction l as [|x l IH]; intros last; simpl; [tauto|].
  destruct (Z.eqb _ _).
  - intros H. right. eapply IH. exact H.
  - intros H. apply elem_of_cons in H as [->|H]; [left|right; eapply IH; exact H].
Qed.

Lemma dedupResults_cover last l r :
  r ∈ l -> Z.of_nat (ValueIndex r) = last \/
           exists r', r' ∈ dedupResults last l /\ ValueIndex r' = ValueIndex r.
Proof.
  revert last. induction l as [|x l IH]; intros last Hr; [apply elem_of_nil in Hr; contradiction|].
  simpl. destruct (Z.eqb (Z.of_nat (ValueIndex x)) last) eqn:Hx.
  - apply Z.eqb_eq in Hx. apply elem_of_cons in Hr as [->|Hr]; [left; exact Hx|].
    exact (IH last Hr).
  - right. apply elem_of_cons in Hr as [->|Hr]; [exists x; split; [left|reflexivity]|].
    destruct (IH (Z.of_nat (ValueIndex x)) Hr) as [He|(r' & Hr' & He)].
    + exists x. split; [left|lia].
    + exists r'. split; [right; exact Hr'|exact He].
Qed.

(** What [extractValues] returns for terminal nodes holding results of
    known values: the values of their results. *)
Lemma extractValues_members {T} (t : MatchTree T) ns :
  (forall n, n ∈ ns -> exists rs, nodes t !! n = Some (matchNodeOfNone rs) /\ rs <> [] /\
       Forall (fun r => ValueIndex r < length (values t)) rs) ->
  exists vs, extractValues t ns = Some vs /\
    forall v, v ∈ vs <-> exists n rs r, n ∈ ns /\ nodes t !! n = Some (matchNodeOfNone rs) /\
      r ∈ rs /\ values t !! ValueIndex r = Some v.
Proof.
  intros Hns. unfold extractValues.
  assert (Hm : exists rss, mapM (GetResults (nodes t)) ns = Some rss).
  { apply mapM_is_Some_2. apply Forall_forall. intros n Hn.
    destruct (Hns n Hn) as (rs & Hn' & _).
    unfold compose, GetResults. rewrite Hn'. simpl. eexists. reflexivity. }
  destruct Hm as (rss & Hm). rewrite Hm. simpl.
  assert (Hrs : forall r, r ∈ concat rss <-> exists n rs, n ∈ ns /\
            nodes t !! n = Some (matchNodeOfNone rs) /\ r ∈ rs).
  { intros r. rewrite elem_of_concat_iff. split.
    - intros (rs & Hrs & Hr). apply (mapM_elem_of _ _ _ rs Hm) in Hrs as (n & Hn & Hg).
      exists n, rs. split; [exact Hn|split; [apply GetResults_terminal; exact Hg|exact Hr]].
    - intros (n & rs & Hn & Hnd & Hr). exists rs. split; [|exact Hr].
      apply (mapM_elem_of _ _ _ rs Hm). exists n. split; [exact Hn|].
      unfold GetResults. rewrite Hnd. reflexivity. }
  assert (Hvi : forall r, r ∈ concat rss -> is_Some (values t !! ValueIndex r)).
  { intros r Hr. apply Hrs in Hr as (n & rs & Hn & Hnd & Hr).
    destruct (Hns n Hn) as (rs' & Hnd' & _ & HF). rewrite Hnd in Hnd'. injection Hnd' as <-.
    apply lookup_lt_is_Some. rewrite Forall_forall in HF. apply HF. exact Hr. }
  destruct (Nat.eqb _ 1) eqn:H1.
  - apply Nat.eqb_eq in H1.
    destruct (sum_one_single rss) as (r & ->); [|exact H1|].
    { apply Forall_forall. intros rs Hrs0.
      apply (mapM_elem_of _ _ _ rs Hm) in Hrs0 as (n & Hn & Hg).
      destruct (Hns n Hn) as (rs' & Hnd & Hne & _). apply GetResults_terminal in Hg.
      rewrite Hnd in Hg. injection Hg as <-. exact Hne. }
    destruct (Hvi r) as (v & Hv); [simpl; left|]. simpl. rewrite Hv. simpl.
    exists [v]. split; [reflexivity|]. intros v'. rewrite list_elem_of_singleton. split.
    + intros ->. destruct (proj1 (Hrs r) (ltac:(simpl; left))) as (n & rs & Hn & Hnd & Hr).
      exists n, rs, r. auto.
    + intros (n & rs & r' & Hn & Hnd & Hr' & Hv').
      assert (Hc : r' ∈ concat [[r]]) by (apply Hrs; exists n, rs; auto).
      simpl in Hc. apply elem_of_cons in Hc as [->|Hc]; [congruence|apply elem_of_nil in Hc; contradiction].
  - set (ded := dedupResults (-1) (sortFunc cmpResults (concat rss))).
    assert (Hded : forall r, r ∈ ded -> r ∈ concat rss).
    { intros r Hr. rewrite <- (sortFunc_perm cmpResults). eapply dedupResults_sub. exact Hr. }
    assert (Hm2 : exists vs, mapM (fun r => values t !! ValueIndex r) ded = Some vs).
    { apply mapM_is_Some_2. apply Forall_forall. intros r Hr. apply Hvi, Hded. exact Hr. }
    destruct Hm2 as (vs & Hm2). exists vs. split; [exact Hm2|]. intros v.
    rewrite (mapM_elem_of _ _ _ v Hm2). split.
    + intros (r & Hr & Hv). apply Hded, Hrs in Hr as (n & rs & Hn & Hnd & Hr).
      exists n, rs, r. auto.
    + intros (n & rs & r & Hn & Hnd & Hr & Hv).
      assert (Hc : r ∈ sortFunc cmpResults (concat rss)).
      { rewrite (sortFunc_perm cmpResults). apply Hrs. exists n, rs. auto. }
      destruct (dedupResults_cover (-1) _ r Hc) as [He|(r' & Hr' & He)]; [lia|].
      exists r'. split; [exact Hr'|]. rewrite He. exact Hv.
Qed.

(** X10: when every node given is a terminal node holding results whose
    value indexes are within the value table, [extractValues] succeeds and
    returns exactly the values its nodes' results index, whether it takes
    the single-result path or sorts and deduplicates. *)
Theorem extractValues_spec {T} (t : MatchTree T) ns :
  (forall n, n ∈ ns -> exists rs, nodes t !! n = Some (matchNodeOfNone rs) /\ rs <> [] /\
       Forall (fun r => ValueIndex r < length (values t)) rs) ->
  exists vs, extractValues t ns = Some vs /\
    forall v, v ∈ vs <-> exists n rs r, n ∈ ns /\ nodes t !! n = Some (matchNodeOfNone rs) /\
      r ∈ rs /\ values t !! ValueIndex r = Some v.
Proof. exact (extractValues_members t ns). Qed.

Lemma extractValues_spec_witness :
  (forall n, n ∈ [2; 5] -> exists rs, nodes completeTree !! n = Some (matchNodeOfNone rs) /\
       rs <> [] /\ Forall (fun r => ValueIndex r < length (values completeTree)) rs) /\
  exists vs, extractValues completeTree [2; 5] = Some vs /\
    forall v, v ∈ vs <-> exists n rs r, n ∈ [2; 5] /\
      nodes completeTree !! n = Some (matchNodeOfNone rs) /\
      r ∈ rs /\ values completeTree !! ValueIndex r = Some v.
Proof.
  assert (H : forall n, n ∈ [2; 5] -> exists rs, nodes completeTree !! n = Some (matchNodeOfNone rs) /\
       rs <> [] /\ Forall (fun r => ValueIndex r < length (values completeTree)) rs).
  { intros n Hn. apply elem_of_cons in Hn as [->|Hn]; [|apply elem_of_cons in Hn as [->|Hn]].
    - eexists. split; [vm_compute; reflexivity|split; [discriminate|vm_compute; repeat constructor]].
    - eexists. split; [vm_compute; reflexivity|split; [discriminate|vm_compute; repeat constructor]].
    - apply elem_of_nil in Hn. contradiction. }
  split; [exact H|]. exact (extractValues_spec completeTree [2; 5] H).
Defined.

Lemma searchNodes_reaches s keys : forall ns ns' n m,
  searchNodes s keys ns = Some ns' -> n ∈ ns -> reaches s n keys m -> m ∈ ns'.
Proof.
  induction keys as [|k keys IH]; intros ns ns' n m Hs Hn Hr; simpl in Hs.
  - injection Hs as <-. inversion Hr; subst. exact Hn.
  - inversion Hr as [|n0 k0 ks cs c m0 Hf Hc Hr']; subst.
    unfold searchLayer in Hs.
    destruct (mapM (fun n => FindChildren s n k) ns) as [css|] eqn:Hm; simpl in Hs; [|discriminate].
    eapply IH; [exact Hs| |exact Hr'].
    apply elem_of_concat_iff. exists cs. split; [|exact Hc].
    apply (mapM_elem_of _ _ _ cs Hm). exists n. split; assumption.
Qed.

Lemma lookup_map_Some {A B} (f : A -> B) l i x : l !! i = Some x -> map f l !! i = Some (f x).
Proof.
  revert i. induction l as [|y l IH]; intros [|i] H; simpl in *; try discriminate.
  - injection H as <-. reflexivity.
  - apply IH. exact H.
Qed.

Lemma lookup_map_inv {A B} (f : A -> B) l i y : map f l !! i = Some y -> exists x, l !! i = Some x /\ y = f x.
Proof.
  revert i. induction l as [|x l IH]; intros [|i] H; simpl in *; try discriminate.
  - injection H as <-. exists x. split; reflexivity.
  - apply IH. exact H.
Qed.

Lemma addRules_builtFrom {T} (rules : list (MatchRule T)) : forall t R t',
  builtFrom t R -> addRules t rules = Some t' -> builtFrom t' (R ++ rules).
Proof.
  induction rules as [|r rules IH]; intros t R t' Hb; simpl.
  - intros H; injection H as <-. rewrite app_nil_r. exact Hb.
  - destruct (AddRule t r) as [[t1 [e|]]|] eqn:Ha; try discriminate.
    intros H. replace (R ++ r :: rules) with ((R ++ [r]) ++ rules) by (rewrite <- app_assoc; reflexivity).
    eapply IH; [|exact H]. eapply builtFrom_added; eassumption.
Qed.

(** X9: for a tree built by [NewMatchTree] and [AddRule] calls, with no
    number-interval dimension, [Search] with as many keys as dimensions,
    each of its dimension's type, returns no error and a list holding the
    values of exactly the rules added that the keys match. *)
Theorem Search_complete {T} (t : MatchTree T) R keys :
  builtFrom t R -> Forall (fun ty => ty <> MatchNumberInterval) (types t) ->
  length keys = length (types t) -> firstTypeMismatch (types t) (map kType keys) = None ->
  exists vs, Search t keys = Some (vs, None) /\
    forall v, v ∈ vs <-> exists rule, rule ∈ R /\ specRuleMatches rule keys = true /\ v = Value rule.
Proof.
  intros Hb Hni Hlen Hty.
  pose proof (builtFrom_reachable t R Hb) as Hr.
  destruct (reachable_wf t Hr) as [Hnone Hwf].
  assert (Hok : tysOK (types t)).
  { unfold tysOK. rewrite Forall_forall in Hni |- *. intros ty Hin.
    split; [intros ->; contradiction|exact (Hni ty Hin)]. }
  destruct (builtFrom_sound t R Hb Hok) as [Hv [lab [HS Hroot]]].
  destruct (builtFrom_complete t R Hb Hok) as [_ Hpath].
  pose proof HS as [Hl Hs'].
  unfold Search. rewrite Hlen, Nat.eqb_refl, Hty. simpl.
  destruct (searchNodes_sound R (types t) (nodes t) lab keys []
              (match root t with Some r => [r] | None => [] end) HS (reachable_ok t Hr))
    as (ns & Hs & Hns).
  - simpl. exact Hlen.
  - intros n Hn. destruct (root t) as [r|] eqn:Hrt; [|apply elem_of_nil in Hn; contradiction].
    apply list_elem_of_singleton in Hn. subst n. exists []. split; [apply Hroot; reflexivity|].
    reflexivity.
  - rewrite Hs.
    (* every node reached is a terminal node whose results the keys match *)
    assert (Hleaf : forall n, n ∈ ns -> exists rs, nodes t !! n = Some (matchNodeOfNone rs) /\
              Forall (fun r => exists rule, R !! ValueIndex r = Some rule /\
                        specRuleMatches rule keys = true) rs).
    { intros n Hn. destruct (Hns n Hn) as (pl & Hpl & Hadm). simpl in Hadm.
      destruct (nodes t !! n) as [nd|] eqn:Hnd.
      2: { apply lookup_ge_None in Hnd. apply lookup_lt_Some in Hpl. lia. }
      destruct (Hs' n nd Hnd) as (pl0 & Hpl0 & Hsnd). rewrite Hpl in Hpl0. injection Hpl0 as <-.
      pose proof (labelsAdmit_length _ _ Hadm) as Hpk.
      destruct nd as [rs| | | |];
        try (destruct Hsnd as [Htp _]; apply lookup_lt_Some in Htp; lia).
      exists rs. split; [reflexivity|]. destruct Hsnd as [_ HF].
      eapply Forall_impl; [exact HF|]. intros r (rule & Hrule & Hm).
      exists rule. split; [exact Hrule|apply Hm; exact Hadm]. }
    assert (Hiff : forall v, (exists n rs r, n ∈ ns /\ nodes t !! n = Some (matchNodeOfNone rs) /\
                     r ∈ rs /\ values t !! ValueIndex r = Some v) <->
                   exists rule, rule ∈ R /\ specRuleMatches rule keys = true /\ v = Value rule).
    { intros v. split.
      - intros (n & rs & r & Hn & Hnd & Hr0 & Hvr).
        destruct (Hleaf n Hn) as (rs' & Hnd' & HF). rewrite Hnd in Hnd'. injection Hnd' as <-.
        rewrite Forall_forall in HF. destruct (HF r Hr0) as (rule & Hrule & Hm).
        exists rule. split; [eapply list_elem_of_lookup_2; exact Hrule|split; [exact Hm|]].
        rewrite Hv in Hvr. rewrite (lookup_map_Some Value R _ rule Hrule) in Hvr.
        injection Hvr as <-. reflexivity.
      - intros (rule & Hrule & Hm & ->). apply list_elem_of_lookup_1 in Hrule as (i & Hi).
        destruct (Hpath i rule keys Hi Hm) as (r & leaf & rs & res & Hrt & Hreach & Hlf & Hres & Hvi).
        exists leaf, rs, res. split; [|split; [exact Hlf|split; [exact Hres|]]].
        + eapply searchNodes_reaches; [exact Hs| |exact Hreach]. rewrite Hrt. left.
        + rewrite Hvi, Hv. apply lookup_map_Some. exact Hi. }
    destruct ns as [|n0 ns0].
    + exists []. split; [reflexivity|]. intros v. rewrite <- Hiff. split.
      * intros Hv'. apply elem_of_nil in Hv'. contradiction.
      * intros (n & _ & _ & Hn & _). apply elem_of_nil in Hn. contradiction.
    + destruct (extractValues_members t (n0 :: ns0)) as (vs & He & Hvs).
      * intros n Hn. destruct (Hleaf n Hn) as (rs & Hnd & _). exists rs.
        split; [exact Hnd|exact (Hwf n rs Hnd)].
      * simpl. rewrite He. simpl. exists vs. split; [reflexivity|]. intros v. rewrite Hvs. apply Hiff.
Qed.

Lemma Search_complete_witness :
  builtFrom completeTree completeRules /\
  exists vs, Search completeTree [stringKey "x"; integerKey 1] = Some (vs, None) /\
    forall v, v ∈ vs <-> exists rule, rule ∈ completeRules /\
      specRuleMatches rule [stringKey "x"; integerKey 1] = true /\ v = Value rule.
Proof.
  assert (Hb : builtFrom completeTree completeRules).
  { apply (addRules_builtFrom completeRules (emptyTree [MatchString; MatchInteger]) []).
    - apply (builtFrom_new [MatchString; MatchInteger]). vm_compute. reflexivity.
    - vm_compute. reflexivity. }
  split; [exact Hb|]. apply (Search_complete completeTree completeRules _ Hb).
  - vm_compute. repeat constructor; intros H; discriminate H.
  - vm_compute. reflexivity.
  - vm_compute. reflexivity.
Defined.

(** ** [FindChildren] and the patterns of the edges *)













